(** * Functional-dependency analysis for GROUP BY (sql/sql_func_dep.cc)

    A shallow embedding of the analyzer that decides whether the SELECT
    list and the HAVING clause of a query block use only 'allowed'
    fields: GROUP BY fields and fields functionally dependent on them.

    The tables of a statement are heap objects reached through pointers
    and mutated in place (the [tmp_set] bitmap of every [TABLE]); the
    embedding keeps them in a store indexed by table identity and threads
    that store, the diagnostics area and the subquery context tags through
    every function with a small state monad.  Dereferencing a null
    pointer, indexing past an array or reading an object through a cast to
    a class it does not have has no defined result in the source: such a
    run ends in [Undef].  Memory allocation is taken to succeed, so the
    exits of the source on a failed [push_back] are never taken.  The one
    loop of the source that is not a pass over a list is unrolled with
    fuel, and a run that would need more ends in [NoFuel]; it is proved
    below that this never happens. *)

From Stdlib Require Import ZArith.
From stdpp Require Import gmap strings list fin_maps.

Set Warnings "-register-all".

Local Open Scope Z_scope.
Local Open Scope nat_scope.

(** ** Bitmaps (MY_BITMAP): one bit per column *)

Module Bitmap.

Abbreviation MY_BITMAP := (list bool).

Definition bitmap_is_set (map : MY_BITMAP) (bit : nat) : option bool :=
  map !! bit.

Definition bitmap_set_bit (map : MY_BITMAP) (bit : nat) : option MY_BITMAP :=
  if decide (bit < length map) then Some (<[bit := true]> map) else None.

Definition bitmap_set_all (map : MY_BITMAP) : MY_BITMAP :=
  replicate (length map) true.

Definition bitmap_clear_all (map : MY_BITMAP) : MY_BITMAP :=
  replicate (length map) false.

Definition bitmap_is_set_all (map : MY_BITMAP) : bool :=
  forallb (fun b => b) map.

Definition bitmap_is_clear_all (map : MY_BITMAP) : bool :=
  forallb negb map.

End Bitmap.
Export Bitmap.

(** ** Table metadata *)

(** A [Field] knows its table ([field->table]) and its position in that
    table's bitmaps ([field->field_index]). *)
Record Field := mkField {
  table : nat;
  field_index : nat
}.

Global Instance Field_eq_dec : EqDecision Field.
Proof. solve_decision. Defined.

(** [KEY]: [flags] and the [user_defined_key_parts] leading entries of
    [key_part], each with its [field]. *)
Record KEY := mkKEY {
  flags : Z;
  key_part : list Field
}.

(** [TABLE_LIST]: a table reference of a FROM clause.  [tl_table] is the
    [table] pointer (null before the table is opened) and
    [materialized_derived] the answer of [is_materialized_derived()]. *)
Record TABLE_LIST := mkTABLE_LIST {
  tl_table : option nat;
  materialized_derived : bool
}.

(** [TABLE]: [key_info] holds the [s->keys] keys, [primary_key] is
    [s->primary_key]. *)
Record TABLE := mkTABLE {
  tmp_set : MY_BITMAP;
  key_info : list KEY;
  primary_key : nat;
  pos_in_table_list : TABLE_LIST
}.

Definition with_tmp_set (T : TABLE) (map : MY_BITMAP) : TABLE :=
  {| tmp_set := map; key_info := key_info T;
     primary_key := primary_key T;
     pos_in_table_list := pos_in_table_list T |}.

(** ** Expressions *)

Inductive Type_handler :=
| type_handler_slonglong
| type_handler_double
| type_handler_newdecimal
| type_handler_long_blob
| type_handler_row.

Global Instance Type_handler_eq_dec : EqDecision Type_handler.
Proof. solve_decision. Defined.

Inductive Item_Type :=
| FIELD_ITEM | REF_ITEM | FUNC_ITEM | COND_ITEM | SUBSELECT_ITEM | CONST_ITEM.

Global Instance Item_Type_eq_dec : EqDecision Item_Type.
Proof. solve_decision. Defined.

Inductive Functype := UNKNOWN_FUNC | EQ_FUNC | COND_AND_FUNC | COND_OR_FUNC.

Global Instance Functype_eq_dec : EqDecision Functype.
Proof. solve_decision. Defined.

(** The [Item] class hierarchy, as far as the analyzer looks into it.
    Every node carries its [full_name()]. *)
Inductive Item :=
| Item_field (name : string) (field : Field) (th : Type_handler)
| Item_ref (name : string) (ref : Item)
| Item_const (name : string) (th : Type_handler)
| Item_func (name : string) (is_deterministic : bool) (th : Type_handler)
            (args : list Item)
| Item_func_eq (name : string) (is_deterministic : bool)
               (cmp : Type_handler) (a0 a1 : Item)
| Item_cond_and (name : string) (list : list Item)
| Item_cond_or (name : string) (list : list Item)
| Item_subselect (name : string) (th : Type_handler).

Definition type (it : Item) : Item_Type :=
  match it with
  | Item_field _ _ _ => FIELD_ITEM
  | Item_ref _ _ => REF_ITEM
  | Item_const _ _ => CONST_ITEM
  | Item_func _ _ _ _ | Item_func_eq _ _ _ _ _ => FUNC_ITEM
  | Item_cond_and _ _ | Item_cond_or _ _ => COND_ITEM
  | Item_subselect _ _ => SUBSELECT_ITEM
  end.

Definition functype (it : Item) : Functype :=
  match it with
  | Item_func_eq _ _ _ _ _ => EQ_FUNC
  | Item_cond_and _ _ => COND_AND_FUNC
  | Item_cond_or _ _ => COND_OR_FUNC
  | _ => UNKNOWN_FUNC
  end.

Fixpoint real_item (it : Item) : Item :=
  match it with
  | Item_ref _ ref => real_item ref
  | _ => it
  end.

Definition full_name (it : Item) : string :=
  match it with
  | Item_field n _ _ | Item_ref n _ | Item_const n _ | Item_func n _ _ _
  | Item_func_eq n _ _ _ _ | Item_cond_and n _ | Item_cond_or n _
  | Item_subselect n _ => n
  end.

(** [Item_func::is_deterministic]; only function items have the member. *)
Definition is_deterministic (it : Item) : option bool :=
  match it with
  | Item_func _ d _ _ | Item_func_eq _ d _ _ _ => Some d
  | _ => None
  end.

Fixpoint type_handler_for_comparison (it : Item) : Type_handler :=
  match it with
  | Item_field _ _ th | Item_const _ th | Item_func _ _ th _
  | Item_subselect _ th => th
  | Item_ref _ ref => type_handler_for_comparison ref
  | Item_func_eq _ _ _ _ _ | Item_cond_and _ _ | Item_cond_or _ _ =>
      type_handler_slonglong
  end.

(** [Item_func_eq::compare_type_handler()] and [arguments()]. *)
Definition compare_type_handler (eq : Item) : option Type_handler :=
  match eq with
  | Item_func_eq _ _ cmp _ _ => Some cmp
  | _ => None
  end.

Definition arguments (eq : Item) : option (Item * Item) :=
  match eq with
  | Item_func_eq _ _ _ a0 a1 => Some (a0, a1)
  | _ => None
  end.

(** The downcast [(Item_field * )it] followed by [->field]: it reads the
    member only of an object that is an [Item_field]. *)
Definition Item_field_field (it : Item) : option Field :=
  match it with
  | Item_field _ f _ => Some f
  | _ => None
  end.

(** ** Query blocks *)

Record JOIN := mkJOIN {
  conds : option Item;
  join_having : option Item
}.

Inductive st_select_lex := mk_select_lex {
  select_number : Z;
  leaf_tables : list TABLE_LIST;
  group_list : list Item;
  item_list : list Item;
  having : option Item;
  join : option JOIN;
  master_unit : st_select_lex_unit
}
with st_select_lex_unit := mk_unit {
  item : option Item;
  outer_select : option st_select_lex
}.

Definition UINT_MAX : Z := 4294967295.
Definition INT_MAX : Z := 2147483647.

(** ** Analysis state *)

Inductive enum_parsing_place := SELECT_LIST | IN_WHERE | IN_HAVING.

(** Error numbers of the server that [my_error] can be given, and a
    raised condition of the diagnostics area with the two string
    arguments of its message. *)
Inductive error_code :=
| ER_NON_GROUPING_FIELD_USED
| ER_OUTOFMEMORY
| ER_WRONG_FIELD_WITH_GROUP.

Global Instance error_code_eq_dec : EqDecision error_code.
Proof. solve_decision. Defined.

Record diagnostic := mkDiag {
  code : error_code;
  field_name : string;
  clause : string
}.

Record State := mkState {
  tables : gmap nat TABLE;
  errors : list diagnostic;
  subquery_ctx : list (string * enum_parsing_place)
}.

Inductive outcome (A : Type) :=
| Ret (a : A) (st : State)
| Undef
| NoFuel.
Arguments Ret {A} a st.
Arguments Undef {A}.
Arguments NoFuel {A}.

Definition M (A : Type) := State -> outcome A.

Definition ret {A} (a : A) : M A := fun st => Ret a st.

Definition bind {A B} (m : M A) (k : A -> M B) : M B :=
  fun st => match m st with
            | Ret a st' => k a st'
            | Undef => Undef
            | NoFuel => NoFuel
            end.

Notation "'let*' x := m 'in' k" := (bind m (fun x => k))
  (at level 10, x name, m at level 100, k at level 200).
Notation "'let*' ' pat := m 'in' k" :=
  (bind m (fun x => match x with pat => k end))
  (at level 10, pat pattern, m at level 100, k at level 200).
Notation "'do*' m 'in' k" := (bind m (fun _ => k))
  (at level 10, m at level 100, k at level 200).

Definition undef {A} : M A := fun _ => Undef.

Definition deref {A} (p : option A) : M A :=
  match p with Some a => ret a | None => undef end.

Definition get_table (t : nat) : M TABLE :=
  fun st => match tables st !! t with
            | Some T => Ret T st
            | None => Undef
            end.

Definition put_tmp_set (t : nat) (map : MY_BITMAP) : M unit :=
  fun st => match tables st !! t with
            | Some T =>
                Ret tt {| tables := <[t := with_tmp_set T map]> (tables st);
                          errors := errors st;
                          subquery_ctx := subquery_ctx st |}
            | None => Undef
            end.

Definition my_error (nr : error_code) (name place : string) : M unit :=
  fun st => Ret tt {| tables := tables st;
                      errors := errors st ++ [mkDiag nr name place];
                      subquery_ctx := subquery_ctx st |}.

Definition tmp_set_all (t : nat) : M unit :=
  let* T := get_table t in put_tmp_set t (bitmap_set_all (tmp_set T)).

(** [bitmap_set_bit(&table->tmp_set, bit)] on the table object [t]. *)
Definition tmp_set_bit (t bit : nat) : M unit :=
  let* T := get_table t in
  let* map := deref (bitmap_set_bit (tmp_set T) bit) in
  put_tmp_set t map.

(** Modelled from the spec: [Field::excl_func_dep_on_grouping_fields] is
    declared outside this file; a column is allowed exactly when its bit
    of the Allowed-Set of its table is set. *)
Definition Field_excl_func_dep_on_grouping_fields (fld : Field) : M bool :=
  let* T := get_table (table fld) in
  deref (bitmap_is_set (tmp_set T) (field_index fld)).

(** Modelled from the spec: [Item::with_subquery()] and the walk with
    [Item::set_subquery_ctx] are declared outside this file; the walk tags
    every subquery expression reachable from the item with the clause it
    appears in. *)
Fixpoint subselects (it : Item) : list string :=
  match it with
  | Item_subselect n _ => [n]
  | Item_ref _ ref => subselects ref
  | Item_func _ _ _ args => flat_map subselects args
  | Item_func_eq _ _ _ a0 a1 => subselects a0 ++ subselects a1
  | Item_cond_and _ l | Item_cond_or _ l => flat_map subselects l
  | Item_field _ _ _ | Item_const _ _ => []
  end.

Definition with_subquery (it : Item) : bool :=
  negb (bool_decide (subselects it = [])).

Definition walk_set_subquery_ctx (it : Item) (ctx : enum_parsing_place)
  : M unit :=
  fun st => Ret tt {| tables := tables st;
                      errors := errors st;
                      subquery_ctx :=
                        subquery_ctx st
                        ++ List.map (fun n => (n, ctx)) (subselects it) |}.

(** [Item_cond::argument_list()]. *)
Definition argument_list (it : Item) : option (list Item) :=
  match it with
  | Item_cond_and _ l | Item_cond_or _ l => Some l
  | _ => None
  end.

(** The test [item->type() == Item::FUNC_ITEM &&
    !((Item_func * )item)->is_deterministic]. *)
Definition is_non_deterministic_func (it : Item) : bool :=
  bool_decide (type it = FUNC_ITEM)
  && match is_deterministic it with
     | Some d => negb d
     | None => false
     end.

(** This class is used to store fields used in the equality and this
    equality itself. *)
Record Item_equal_fd_info := mk_fd_info {
  equal : Item;
  fields_l : list Field;
  fields_r : list Field
}.

(** ** The expression capabilities, from their description *)

Module Capabilities.

Definition field_allowed_b (st : State) (fld : Field) : bool :=
  match tables st !! table fld with
  | Some T => default false (tmp_set T !! field_index fld)
  | None => false
  end.

(** A column of a table of the FROM clause of [sl], as opposed to an
    outer reference. *)
Definition is_local (sl : st_select_lex) (fld : Field) : bool :=
  bool_decide (Some (table fld) ∈ List.map tl_table (leaf_tables sl)).

(** The bare column references an expression is built from. *)
Fixpoint item_fields (it : Item) : list Field :=
  match it with
  | Item_field _ f _ => [f]
  | Item_ref _ ref => item_fields ref
  | Item_func _ _ _ args => flat_map item_fields args
  | Item_func_eq _ _ _ a0 a1 => item_fields a0 ++ item_fields a1
  | Item_cond_and _ l | Item_cond_or _ l => flat_map item_fields l
  | Item_const _ _ | Item_subselect _ _ => []
  end.

Fixpoint Item_eqb (a b : Item) : bool :=
  let fix all2 (l l' : list Item) : bool :=
    match l, l' with
    | [], [] => true
    | x :: r, y :: r' => Item_eqb x y && all2 r r'
    | _, _ => false
    end in
  match a, b with
  | Item_field n f th, Item_field n' f' th' =>
      String.eqb n n' && bool_decide (f = f') && bool_decide (th = th')
  | Item_ref n r, Item_ref n' r' => String.eqb n n' && Item_eqb r r'
  | Item_const n th, Item_const n' th' =>
      String.eqb n n' && bool_decide (th = th')
  | Item_func n d th l, Item_func n' d' th' l' =>
      String.eqb n n' && Bool.eqb d d' && bool_decide (th = th')
      && all2 l l'
  | Item_func_eq n d c x y, Item_func_eq n' d' c' x' y' =>
      String.eqb n n' && Bool.eqb d d' && bool_decide (c = c')
      && Item_eqb x x' && Item_eqb y y'
  | Item_cond_and n l, Item_cond_and n' l' => String.eqb n n' && all2 l l'
  | Item_cond_or n l, Item_cond_or n' l' => String.eqb n n' && all2 l l'
  | Item_subselect n th, Item_subselect n' th' =>
      String.eqb n n' && bool_decide (th = th')
  | _, _ => false
  end.

(** The first column reference of an expression, in evaluation order,
    that fails the test [ok]; sub-expressions that pass [whole] are not
    entered. *)
Fixpoint first_offender (whole : Item -> bool) (ok : Field -> bool)
    (it : Item) : option Item :=
  let fix first (l : list Item) : option Item :=
    match l with
    | [] => None
    | x :: r =>
        match first_offender whole ok x with
        | Some w => Some w
        | None => first r
        end
    end in
  if whole it then None
  else
    match it with
    | Item_field _ f _ => if ok f then None else Some it
    | Item_ref _ ref => first_offender whole ok ref
    | Item_func _ _ _ args => first args
    | Item_func_eq _ _ _ a0 a1 => first [a0; a1]
    | Item_cond_and _ l | Item_cond_or _ l => first l
    | Item_const _ _ | Item_subselect _ _ => None
    end.

(** Modelled from the spec: capability (a) of an expression, "is
    excluded from functional dependence on grouping fields", is
    implemented outside this file.  An expression passes when it is one
    of the non-column grouping expressions or is composed, recursively
    through functions, of constants and allowed columns; on failure the
    first offending sub-expression is returned. *)
Definition excl_func_dep_on_grouping_fields (st : State)
    (sl : st_select_lex) (gb_items : list Item) (it : Item)
    (item_arg : option Item) : bool * option Item :=
  match first_offender (fun x => existsb (Item_eqb x) gb_items)
                       (field_allowed_b st) it with
  | Some w => (false, Some w)
  | None => (true, item_arg)
  end.

(** Modelled from the spec: capability (b) of an expression, "collect
    functional dependence from equalities", is implemented outside this
    file.  It decides whether the expression is closed over allowed
    columns and constants and collects the bare column references of the
    tables of the block it is built from; an outer reference that is not
    allowed is the witness it reports.  An expression that uses no
    column at all, a call of [rand()] for one, is closed under that
    description; the test of [check_equality_on_new_func_dep] on
    non-deterministic function items and the fourth scenario of the
    description, in which that test is what keeps [b = RAND()] from
    making [b] allowed, are there because of it. *)
Definition excl_func_dep_from_equalities (st : State)
    (sl : st_select_lex) (it : Item) (item_arg : option Item)
    (fields : list Field) : bool * option Item * list Field :=
  let closed := forallb (field_allowed_b st) (item_fields it) in
  let witness :=
    first_offender (fun _ => false)
                   (fun f => is_local sl f || field_allowed_b st f) it in
  (closed,
   match witness with Some w => Some w | None => item_arg end,
   fields ++ List.filter (is_local sl) (item_fields it)).

(** Modelled from the spec: the default values of the macros [MAX_KEY]
    and [HA_NOSAME], which the source takes from headers outside this
    file: the largest number of keys of a table (a larger
    [primary_key] means that the table has none) and the flag of a key
    that allows no duplicates. *)
Definition MAX_KEY : nat := 64.
Definition HA_NOSAME : Z := 1.

End Capabilities.

(** ** Sample schema and query blocks *)

Module Samples.

(** [t(pk int primary key, a int, b int)], opened as table 0, with a
    given Allowed-Set. *)
Definition t_ref : TABLE_LIST := mkTABLE_LIST (Some 0) false.
Definition t_pk : Field := mkField 0 0.
Definition t_a : Field := mkField 0 1.
Definition t_b : Field := mkField 0 2.
Definition t_bits (bits : MY_BITMAP) : TABLE :=
  mkTABLE bits [mkKEY Capabilities.HA_NOSAME [t_pk]] 0 t_ref.
Definition t : TABLE := t_bits [false; false; false].

(** [u(x int, z int)] without keys, opened as table 1. *)
Definition u_ref : TABLE_LIST := mkTABLE_LIST (Some 1) false.
Definition u_x : Field := mkField 1 0.
Definition u_z : Field := mkField 1 1.
Definition u_bits (bits : MY_BITMAP) : TABLE :=
  mkTABLE bits [] Capabilities.MAX_KEY u_ref.
Definition u : TABLE := u_bits [false; false].

Definition st_bits (bits : MY_BITMAP) : State :=
  mkState {[ 0 := t_bits bits ]} [] [].
Definition st_t : State := st_bits [false; false; false].
Definition st_bits2 (bits_t bits_u : MY_BITMAP) : State :=
  mkState {[ 0 := t_bits bits_t; 1 := u_bits bits_u ]} [] [].
Definition st_tu : State := st_bits2 [false; false; false] [false; false].

Definition pk : Item := Item_field "t.pk" t_pk type_handler_slonglong.
Definition a : Item := Item_field "t.a" t_a type_handler_slonglong.
Definition b : Item := Item_field "t.b" t_b type_handler_slonglong.
Definition x : Item := Item_field "u.x" u_x type_handler_slonglong.
Definition z : Item := Item_field "u.z" u_z type_handler_slonglong.
Definition one : Item := Item_const "1" type_handler_slonglong.
Definition a_plus_1 : Item :=
  Item_func "t.a + 1" true type_handler_slonglong [a; one].
Definition rand : Item := Item_func "rand()" false type_handler_double [].
(** A column of a merged view defined as [rand()], and one defined as
    [t.b]: references to the expressions of the view. *)
Definition v_r : Item := Item_ref "v.r" rand.
Definition v_b : Item := Item_ref "v.b" b.

Definition eq_ (name : string) (cmp : Type_handler) (l r : Item) : Item :=
  Item_func_eq name true cmp l r.

Definition block_of (number : Z) (from : list TABLE_LIST)
    (group_by select_list : list Item) (where_ : option Item)
  : st_select_lex :=
  mk_select_lex number from group_by select_list None
                (Some (mkJOIN where_ None)) (mk_unit None None).

Definition block (group_by select_list : list Item)
    (where_ : option Item) : st_select_lex :=
  block_of 1 [t_ref] group_by select_list where_.

(** SELECT a, b FROM t GROUP BY a *)
Definition q_a_b_by_a : st_select_lex := block [a] [a; b] None.

(** SELECT a, b FROM t WHERE b = a + 1 GROUP BY a *)
Definition b_eq_a_plus_1 : Item :=
  eq_ "t.b = t.a + 1" type_handler_slonglong b a_plus_1.
Definition q_eq_a_plus_1 : st_select_lex :=
  block [a] [a; b] (Some b_eq_a_plus_1).

(** SELECT pk, b FROM t GROUP BY pk *)
Definition q_by_pk : st_select_lex := block [pk] [pk; b] None.

(** SELECT b FROM t WHERE b = RAND() GROUP BY a *)
Definition b_eq_rand : Item := eq_ "t.b = rand()" type_handler_double b rand.
Definition q_eq_rand : st_select_lex := block [a] [b] (Some b_eq_rand).

(** SELECT b FROM t, v WHERE b = v.r GROUP BY a, the view column [v.r]
    being [rand()]. *)
Definition b_eq_v_r : Item := eq_ "t.b = v.r" type_handler_double b v_r.
Definition q_eq_v_r : st_select_lex := block [a] [b] (Some b_eq_v_r).

(** SELECT a, v.b FROM v WHERE v.b = a + 1 GROUP BY a, the view column
    [v.b] being [t.b]. *)
Definition v_b_eq_a_plus_1 : Item :=
  eq_ "v.b = t.a + 1" type_handler_slonglong v_b a_plus_1.
Definition q_ref_eq : st_select_lex :=
  block [a] [a; v_b] (Some v_b_eq_a_plus_1).

(** SELECT b FROM t, without GROUP BY: as an ordinary block, and as the
    internal placeholder block of a union. *)
Definition q_plain : st_select_lex := block [] [b] None.
Definition q_placeholder : st_select_lex :=
  block_of INT_MAX [t_ref] [] [b] None.

(** SELECT b FROM t with no GROUP BY, as a subquery of an outer block
    that has a join. *)
Definition q_under_aggregate : st_select_lex :=
  mk_select_lex 2 [t_ref] [] [b] None (Some (mkJOIN None None))
    (mk_unit (Some (Item_subselect "(select t.b from t)"
                                   type_handler_slonglong))
             (Some (block_of 1 [u_ref] [z] [z] None))).

(** SELECT u.x FROM t, u WHERE t.pk = 1 AND u.x = t.b GROUP BY u.z *)
Definition pk_eq_1 : Item := eq_ "t.pk = 1" type_handler_slonglong pk one.
Definition x_eq_b : Item := eq_ "u.x = t.b" type_handler_slonglong x b.
Definition q_two_tables : st_select_lex :=
  block_of 1 [t_ref; u_ref] [z] [x]
           (Some (Item_cond_and "t.pk = 1 and u.x = t.b" [pk_eq_1; x_eq_b])).

(** The equality [u.x = t.b] as it is deferred by the first pass. *)
Definition x_eq_b_deferred : Item_equal_fd_info :=
  mk_fd_info x_eq_b [u_x] [t_b].

(** Two materialized derived tables [d(m int, n int)] and
    [e(p int)], without keys, opened as tables 2 and 3. *)
Definition d_ref : TABLE_LIST := mkTABLE_LIST (Some 2) true.
Definition d_m : Field := mkField 2 0.
Definition d_n : Field := mkField 2 1.
Definition d_bits (bits : MY_BITMAP) : TABLE :=
  mkTABLE bits [] Capabilities.MAX_KEY d_ref.
Definition e_ref : TABLE_LIST := mkTABLE_LIST (Some 3) true.
Definition e_bits (bits : MY_BITMAP) : TABLE :=
  mkTABLE bits [] Capabilities.MAX_KEY e_ref.
Definition st_derived (bits_t bits_d bits_e : MY_BITMAP) : State :=
  mkState {[ 0 := t_bits bits_t; 2 := d_bits bits_d; 3 := e_bits bits_e ]}
          [] [].
Definition dm : Item := Item_field "d.m" d_m type_handler_slonglong.
Definition dn : Item := Item_field "d.n" d_n type_handler_slonglong.

(** SELECT d.n FROM t, (...) d, (...) e GROUP BY d.m *)
Definition q_derived : st_select_lex :=
  block_of 1 [t_ref; d_ref; e_ref] [dm] [dn] None.

(** UPDATE u SET ... WHERE ... (SELECT b FROM t): the subquery of an
    item of an outer block that has no join. *)
Definition q_in_update : st_select_lex :=
  mk_select_lex 2 [t_ref] [] [b] None (Some (mkJOIN None None))
    (mk_unit (Some (Item_subselect "(select t.b from t)"
                                   type_handler_slonglong))
             (Some (mk_select_lex 1 [u_ref] [] [] None None
                                  (mk_unit None None)))).

(** SELECT a, (SELECT 1) FROM t WHERE a = (SELECT 2) GROUP BY a *)
Definition select_1 : Item :=
  Item_subselect "(select 1)" type_handler_slonglong.
Definition select_2 : Item :=
  Item_subselect "(select 2)" type_handler_slonglong.
Definition q_subqueries : st_select_lex :=
  block [a] [a; select_1]
        (Some (eq_ "t.a = (select 2)" type_handler_slonglong a select_2)).

(** SELECT a FROM t WHERE a = u.x GROUP BY a, the column [u.x] being a
    reference to an outer block. *)
Definition a_eq_x : Item := eq_ "t.a = u.x" type_handler_slonglong a x.
Definition q_outer_reference : st_select_lex := block [a] [a] (Some a_eq_x).

(** SELECT u.x FROM t, u WHERE u.x = t.b GROUP BY u.z *)
Definition q_deferred_only : st_select_lex :=
  block_of 1 [t_ref; u_ref] [z] [x] (Some x_eq_b).

(** The equality [t.a + 1 = t.b], the column on the right. *)
Definition a_plus_1_eq_b : Item :=
  eq_ "t.a + 1 = t.b" type_handler_slonglong a_plus_1 b.

(** SELECT d.n FROM (...) d, without GROUP BY, as a subquery of an outer
    block that has a join. *)
Definition q_derived_under_aggregate : st_select_lex :=
  mk_select_lex 2 [d_ref] [] [dn] None (Some (mkJOIN None None))
    (mk_unit (Some (Item_subselect "(select d.n from d)"
                                   type_handler_slonglong))
             (Some (block_of 1 [u_ref] [z] [z] None))).

(** SELECT a FROM t GROUP BY a HAVING b > 0 *)
Definition zero : Item := Item_const "0" type_handler_slonglong.
Definition b_gt_0 : Item :=
  Item_func "t.b > 0" true type_handler_slonglong [b; zero].
Definition q_having : st_select_lex :=
  mk_select_lex 1 [t_ref] [a] [a] (Some b_gt_0)
                (Some (mkJOIN None (Some b_gt_0))) (mk_unit None None).

End Samples.

(** ** The analyzer *)

Section Analyzer.

Set Default Proof Using "Type".

(** [MAX_KEY] and [HA_NOSAME] are macros of headers that are not part of
    this file. *)
Variable MAX_KEY : nat.
Variable HA_NOSAME : Z.

(** The two capabilities every expression supplies.  Both read the
    current Allowed-Sets; [item_arg] is the in/out pointer through which
    they report an offending sub-expression, [fields] the list to which
    the second one appends the fields the expression is built from. *)
Variable Item_excl_func_dep_on_grouping_fields :
  State -> st_select_lex -> list Item -> Item -> option Item ->
  bool * option Item.
Variable Item_excl_func_dep_from_equalities :
  State -> st_select_lex -> Item -> option Item -> list Field ->
  bool * option Item * list Field.

Definition excl_func_dep_on_grouping_fields
    (sl : st_select_lex) (gb_items : list Item) (it : Item)
    (item_arg : option Item) : M (bool * option Item) :=
  fun st =>
    Ret (Item_excl_func_dep_on_grouping_fields st sl gb_items it item_arg)
        st.

Definition excl_func_dep_from_equalities
    (sl : st_select_lex) (it : Item) (item_arg : option Item)
    (fields : list Field) : M (bool * option Item * list Field) :=
  fun st =>
    Ret (Item_excl_func_dep_from_equalities st sl it item_arg fields) st.

(** Check if all 'key' parts are 'allowed' fields. *)
Fixpoint are_key_parts_allowed (parts : list Field) : M bool :=
  match parts with
  | [] => ret true
  | fld :: rest =>
      let* ok := Field_excl_func_dep_on_grouping_fields fld in
      if ok then are_key_parts_allowed rest else ret false
  end.

Definition are_key_fields_allowed (key : KEY) : M bool :=
  are_key_parts_allowed (key_part key).

(** The scan of the UNIQUE keys of one table: stops at the first key
    flagged [HA_NOSAME] whose fields are all 'allowed'. *)
Fixpoint unique_keys_scan (t : nat) (keys : list KEY) : M bool :=
  match keys with
  | [] => ret false
  | k :: rest =>
      if (Z.land (flags k) HA_NOSAME =? 0)%Z then unique_keys_scan t rest
      else
        let* ok := are_key_fields_allowed k in
        if ok then do* tmp_set_all t in ret true
        else unique_keys_scan t rest
  end.

(** The body of the loop of [check_allowed_unique_keys] for one leaf
    table; answers whether the table has just been marked. *)
Definition check_table_keys (tbl : TABLE_LIST) : M bool :=
  match tl_table tbl with
  | None => ret false
  | Some t =>
      let* T := get_table t in
      if bitmap_is_set_all (tmp_set T) then ret false
      else
        let* pk_allowed :=
          (if decide (primary_key T < MAX_KEY) then
             let* pk := deref (key_info T !! primary_key T) in
             are_key_fields_allowed pk
           else ret false) in
        if pk_allowed then do* tmp_set_all t in ret true
        else unique_keys_scan t (key_info T)
  end.

Fixpoint check_allowed_unique_keys_from
    (tbls : list TABLE_LIST) (fields_extracted : bool) : M bool :=
  match tbls with
  | [] => ret fields_extracted
  | tbl :: rest =>
      let* e := check_table_keys tbl in
      check_allowed_unique_keys_from rest (fields_extracted || e)
  end.

(** Check if PRIMARY or UNIQUE keys fields are 'allowed'. *)
Definition check_allowed_unique_keys (sl : st_select_lex) : M bool :=
  check_allowed_unique_keys_from (leaf_tables sl) false.

(** The pass over [mat_derived]; answers the tables left in the list. *)
Fixpoint mat_derived_scan (l : list TABLE_LIST) : M (list TABLE_LIST) :=
  match l with
  | [] => ret []
  | tbl :: rest =>
      let* t := deref (tl_table tbl) in
      let* T := get_table t in
      if bitmap_is_clear_all (tmp_set T) then
        let* rest' := mat_derived_scan rest in ret (tbl :: rest')
      else
        do* tmp_set_all t in mat_derived_scan rest
  end.

(** Check if materialized derived tables and views fields are
    'allowed'. *)
Definition check_allowed_materialized_derived
    (mat_derived : list TABLE_LIST) : M (bool * list TABLE_LIST) :=
  match mat_derived with
  | [] => ret (false, mat_derived)
  | _ =>
      let tabs_cnt := length mat_derived in
      let* mat_derived' := mat_derived_scan mat_derived in
      ret (negb (tabs_cnt =? length mat_derived'), mat_derived')
  end.

(** The loop of [collect_gb_fields] over the GROUP BY list.  The return
    on a failed [gb_items.push_back] is the exit on a failed allocation
    that the embedding leaves out. *)
Fixpoint collect_gb_scan (ords : list Item) (gb_items : list Item)
  : M (list Item) :=
  match ords with
  | [] => ret gb_items
  | ord_item :: rest =>
      if bool_decide (type ord_item = FIELD_ITEM)
         || (bool_decide (type ord_item = REF_ITEM)
             && bool_decide (type (real_item ord_item) = FIELD_ITEM))
      then
        let* fld := deref (Item_field_field (real_item ord_item)) in
        do* tmp_set_bit (table fld) (field_index fld) in
        collect_gb_scan rest gb_items
      else collect_gb_scan rest (gb_items ++ [ord_item])
  end.

(** Collect fields used in GROUP BY. *)
Definition collect_gb_fields (sl : st_select_lex)
    (mat_derived : list TABLE_LIST) (gb_items : list Item)
  : M (bool * list TABLE_LIST * list Item) :=
  do* deref (join sl) in
  match group_list sl with
  | [] => ret (false, mat_derived, gb_items)
  | _ =>
      let* gb_items' := collect_gb_scan (group_list sl) gb_items in
      do* check_allowed_unique_keys sl in
      let* '(_, mat_derived') :=
        check_allowed_materialized_derived mat_derived in
      ret (false, mat_derived', gb_items')
  end.

(** Set subqueries places in the SELECT sl. *)
Fixpoint set_select_list_context (items : list Item) : M unit :=
  match items with
  | [] => ret tt
  | it :: rest =>
      do* (if with_subquery it then walk_set_subquery_ctx it SELECT_LIST
           else ret tt) in
      set_select_list_context rest
  end.

Definition set_clause_context (clause : option Item)
    (ctx : enum_parsing_place) : M unit :=
  match clause with
  | Some it =>
      if with_subquery it then walk_set_subquery_ctx it ctx else ret tt
  | None => ret tt
  end.

Definition set_subqueries_context (sl : st_select_lex) : M unit :=
  do* set_select_list_context (item_list sl) in
  let* j := deref (join sl) in
  do* set_clause_context (conds j) IN_WHERE in
  set_clause_context (join_having j) IN_HAVING.

(** The error report shared by the three clauses:
    [my_error(ER_NON_GROUPING_FIELD_USED, MYF(0),
              item_arg->real_item()->full_name(), place)]. *)
Definition report_non_grouping_field (item_arg : option Item)
    (place : string) : M unit :=
  let* w := deref item_arg in
  my_error ER_NON_GROUPING_FIELD_USED (full_name (real_item w)) place.

(** Check if SELECT list items consists of constants and/or 'allowed'
    fields only. *)
Fixpoint select_list_scan (sl : st_select_lex) (gb_items : list Item)
    (items : list Item) : M bool :=
  match items with
  | [] => ret true
  | it :: rest =>
      let* '(ok, item_arg) :=
        excl_func_dep_on_grouping_fields sl gb_items it None in
      if ok then select_list_scan sl gb_items rest
      else
        do* report_non_grouping_field item_arg "SELECT list" in
        ret false
  end.

Definition are_select_list_fields_allowed (sl : st_select_lex)
    (gb_items : list Item) : M bool :=
  select_list_scan sl gb_items (item_list sl).

(** Check if HAVING items consists of constants and/or 'allowed' fields
    only. *)
Definition are_having_fields_allowed (sl : st_select_lex)
    (having : option Item) (gb_items : list Item) : M bool :=
  match having with
  | None => ret true
  | Some h =>
      let* '(ok, item_arg) :=
        excl_func_dep_on_grouping_fields sl gb_items h None in
      if ok then ret true
      else
        do* report_non_grouping_field item_arg "HAVING clause" in
        ret false
  end.

(** Mark non-'allowed' field as 'allowed' if possible. *)
Definition extract_new_func_dep_field (eq dp_part nd_part : Item)
  : M bool :=
  if negb (bool_decide (type (real_item nd_part) = FIELD_ITEM))
  then ret false
  else
    let* cmp := deref (compare_type_handler eq) in
    if negb (bool_decide (type_handler_for_comparison dp_part = cmp))
    then ret false
    else
      let* fld := deref (Item_field_field nd_part) in
      let* T := get_table (table fld) in
      let* is_set := deref (bitmap_is_set (tmp_set T) (field_index fld)) in
      if is_set then ret false
      else
        do* tmp_set_bit (table fld) (field_index fld) in
        do* (if materialized_derived (pos_in_table_list T)
             then tmp_set_all (table fld) else ret tt) in
        ret true.

(** The common exit of [check_equality_on_new_func_dep] when nothing
    can be extracted: an error if a witness was reported. *)
Definition where_clause_exit (item_arg : option Item)
    (eq_items : list Item_equal_fd_info)
  : M (bool * list Item_equal_fd_info) :=
  match item_arg with
  | Some _ =>
      do* report_non_grouping_field item_arg "WHERE clause" in
      ret (true, eq_items)
  | None => ret (false, eq_items)
  end.

(** Check if new 'allowed' field can be extracted from the equality.
    The return on a failed [eq_items.push_back], which answers true
    without a call of [my_error], is the exit on a failed allocation
    that the embedding leaves out. *)
Definition check_equality_on_new_func_dep (eq_item : Item)
    (sl : st_select_lex) (eq_items : list Item_equal_fd_info)
  : M (bool * list Item_equal_fd_info) :=
  do* deref (join sl) in
  let* '(item_l, item_r) := deref (arguments eq_item) in
  if is_non_deterministic_func item_l || is_non_deterministic_func item_r
  then ret (false, eq_items)
  else
    let* '(dep_l, item_arg, fields_l) :=
      excl_func_dep_from_equalities sl item_l None [] in
    if negb dep_l && bool_decide (fields_l = [])
    then where_clause_exit item_arg eq_items
    else
      let* '(dep_r, item_arg, fields_r) :=
        excl_func_dep_from_equalities sl item_r item_arg [] in
      if (dep_l && dep_r)
         || (negb dep_r && bool_decide (fields_r = []))
         || (negb (length fields_l =? 1) && negb (length fields_r =? 1))
      then where_clause_exit item_arg eq_items
      else if negb dep_l && negb dep_r
      then ret (false, eq_items ++ [mk_fd_info eq_item fields_l fields_r])
      else if dep_l
      then do* extract_new_func_dep_field eq_item item_l item_r in
           ret (false, eq_items)
      else if dep_r
      then do* extract_new_func_dep_field eq_item item_r item_l in
           ret (false, eq_items)
      else ret (false, eq_items).

(** The locals of [check_where_and_get_new_dependencies] that its first
    stage updates. *)
Record where_locals := mk_where_locals {
  eq_items : list Item_equal_fd_info;
  fields : list Field;
  item_arg : option Item;
  eq_count : nat
}.

(** A WHERE condition that is not an equality. *)
Definition check_other_condition (it : Item) (sl : st_select_lex)
    (w : where_locals) : M (bool * where_locals) :=
  let* '(ok, item_arg', fields') :=
    excl_func_dep_from_equalities sl it (item_arg w) (fields w) in
  let w' := mk_where_locals (eq_items w) fields' item_arg' (eq_count w) in
  match negb ok, item_arg' with
  | true, Some _ =>
      do* report_non_grouping_field item_arg' "WHERE clause" in
      ret (true, w')
  | _, _ => ret (false, w')
  end.

Definition check_equality_condition (it : Item) (sl : st_select_lex)
    (w : where_locals) : M (bool * where_locals) :=
  let* '(err, eq_items') :=
    check_equality_on_new_func_dep it sl (eq_items w) in
  ret (err, mk_where_locals eq_items' (fields w) (item_arg w)
                            (S (eq_count w))).

(** The loop over the arguments of a top-level AND. *)
Fixpoint and_arguments_scan (args : list Item) (sl : st_select_lex)
    (w : where_locals) : M (bool * where_locals) :=
  match args with
  | [] => ret (false, w)
  | it :: rest =>
      let* '(err, w') :=
        (if bool_decide (type it = FUNC_ITEM)
            && bool_decide (functype it = EQ_FUNC)
         then check_equality_condition it sl w
         else check_other_condition it sl w) in
      if err then ret (true, w') else and_arguments_scan rest sl w'
  end.

(** Stage 1: traverse the WHERE clause. *)
Definition traverse_where (cond : Item) (sl : st_select_lex)
  : M (bool * where_locals) :=
  let w := mk_where_locals [] [] None 0 in
  if bool_decide (type cond = COND_ITEM)
     && bool_decide (functype cond = COND_AND_FUNC)
  then
    let* args := deref (argument_list cond) in
    and_arguments_scan args sl w
  else if bool_decide (type cond = FUNC_ITEM)
          && bool_decide (functype cond = EQ_FUNC)
  then check_equality_condition cond sl w
  else check_other_condition cond sl w.

(** [dep &= fld->excl_func_dep_on_grouping_fields(...)] over a stored
    field list: every field is asked. *)
Fixpoint fields_dep (flds : list Field) (dep : bool) : M bool :=
  match flds with
  | [] => ret dep
  | fld :: rest =>
      let* ok := Field_excl_func_dep_on_grouping_fields fld in
      fields_dep rest (dep && ok)
  end.

(** One deferred equality in one round of stage 4.  The second
    component of the answer tells whether [li.remove()] was reached. *)
Definition process_eq_it (eq_it : Item_equal_fd_info) (extracted : bool)
  : M (bool * bool) :=
  let* dep_l := fields_dep (fields_l eq_it) true in
  let* dep_r := fields_dep (fields_r eq_it) true in
  if negb dep_l && negb dep_r then ret (extracted, false)
  else
    let* ex :=
      (if negb (dep_l && dep_r) then
         let* ex_l :=
           (if dep_l then
              let* '(a0, a1) := deref (arguments (equal eq_it)) in
              extract_new_func_dep_field (equal eq_it) a0 a1
            else ret false) in
         if ex_l then ret true
         else if dep_r then
           let* '(a0, a1) := deref (arguments (equal eq_it)) in
           extract_new_func_dep_field (equal eq_it) a1 a0
         else ret false
       else ret false) in
    ret (extracted || ex, true).

(** One pass of the iterator [li] over [eq_items]. *)
Fixpoint eq_items_round (items : list Item_equal_fd_info)
    (extracted : bool) : M (bool * list Item_equal_fd_info) :=
  match items with
  | [] => ret (extracted, [])
  | eq_it :: rest =>
      let* '(extracted', removed) := process_eq_it eq_it extracted in
      let* '(extracted'', rest') := eq_items_round rest extracted' in
      ret (extracted'', if removed then rest' else eq_it :: rest')
  end.

(** The body of the loop of stage 4: one pass over the list, then the
    keys if nothing was extracted or nothing is left. *)
Definition eq_items_loop_body (sl : st_select_lex)
    (items : list Item_equal_fd_info)
  : M (bool * list Item_equal_fd_info) :=
  let* '(extracted, items') := eq_items_round items false in
  if negb extracted || bool_decide (items' = []) then
    let* keys := check_allowed_unique_keys sl in
    ret (if keys then true else extracted, items')
  else ret (extracted, items').

(** Stage 4: [while (extracted && !eq_items.is_empty())].  The loop is
    unrolled at most [fuel] times; the answer is the list left when it
    stops. *)
Fixpoint eq_items_loop (fuel : nat) (sl : st_select_lex)
    (extracted : bool) (items : list Item_equal_fd_info)
  : M (list Item_equal_fd_info) :=
  if extracted && negb (bool_decide (items = [])) then
    match fuel with
    | 0 => fun _ => NoFuel
    | S fuel' =>
        let* '(extracted', items') := eq_items_loop_body sl items in
        eq_items_loop fuel' sl extracted' items'
    end
  else ret items.

(** Rounds that suffice for stage 4 (see [eq_items_loop_fuel]). *)
Definition rounds_bound (sl : st_select_lex)
    (items : list Item_equal_fd_info) : nat :=
  S (length items + length (leaf_tables sl)).

(** Get information about fields used in the WHERE clause. *)
Definition check_where_and_get_new_dependencies (sl : st_select_lex)
    (mat_derived : list TABLE_LIST) : M bool :=
  let* j := deref (join sl) in
  match conds j with
  | None => ret false
  | Some cond =>
      let* '(err, w) := traverse_where cond sl in
      if err then ret true
      else if bool_decide (eq_items w = [])
      then do* check_allowed_unique_keys sl in ret false
      else if eq_count w =? length (eq_items w)
      then ret false
      else
        do* eq_items_loop (rounds_bound sl (eq_items w)) sl true
                          (eq_items w) in
        ret false
  end.

Fixpoint set_all_tables (tbls : list TABLE_LIST) : M unit :=
  match tbls with
  | [] => ret tt
  | tbl :: rest =>
      let* t := deref (tl_table tbl) in
      do* tmp_set_all t in
      set_all_tables rest
  end.

(** If UPDATE query is used mark all fields of the updated table as
    'allowed'. *)
Definition set_update_table_fields (sl : st_select_lex) : M unit :=
  match item (master_unit sl), outer_select (master_unit sl) with
  | Some _, Some outer =>
      match join outer with
      | Some _ => ret tt
      | None => set_all_tables (leaf_tables outer)
      end
  | _, _ => ret tt
  end.

(** The first loop of [check_func_dep]: clear the Allowed-Sets and
    collect the materialized derived tables.  The return on a failed
    [mat_derived.push_back] is the exit on a failed allocation that the
    embedding leaves out. *)
Fixpoint clear_and_collect (tbls : list TABLE_LIST)
    (mat_derived : list TABLE_LIST) : M (list TABLE_LIST) :=
  match tbls with
  | [] => ret mat_derived
  | tbl :: rest =>
      match tl_table tbl with
      | None => clear_and_collect rest mat_derived
      | Some t =>
          let* T := get_table t in
          do* put_tmp_set t (bitmap_clear_all (tmp_set T)) in
          if materialized_derived tbl
          then clear_and_collect rest (mat_derived ++ [tbl])
          else clear_and_collect rest mat_derived
      end
  end.

Definition need_check (sl : st_select_lex) : bool :=
  negb (bool_decide (group_list sl = []))
  || match outer_select (master_unit sl) with
     | Some outer => bool_decide (is_Some (join outer))
     | None => false
     end
  || bool_decide (is_Some (having sl)).

(** [check_func_dep] from the call of [collect_gb_fields] on. *)
Definition check_func_dep_closure (sl : st_select_lex)
    (mat_derived : list TABLE_LIST) : M bool :=
  let* '(err, mat_derived', gb_items) :=
    collect_gb_fields sl mat_derived [] in
  if err then ret true
  else
    let* err := check_where_and_get_new_dependencies sl mat_derived' in
    if err then ret true
    else
      let* ok := are_select_list_fields_allowed sl gb_items in
      if negb ok then ret true
      else
        let* j := deref (join sl) in
        let* ok := are_having_fields_allowed sl (join_having j)
                                             gb_items in
        if negb ok then ret true else ret false.

(** [check_func_dep] after the Allowed-Sets have been cleared. *)
Definition check_func_dep_cleared (sl : st_select_lex)
    (mat_derived : list TABLE_LIST) : M bool :=
  do* set_update_table_fields sl in
  do* set_subqueries_context sl in
  if bool_decide (group_list sl = [])
     && negb (bool_decide (is_Some (having sl)))
  then
    do* set_all_tables (leaf_tables sl) in
    if negb (need_check sl) then ret false
    else check_func_dep_closure sl mat_derived
  else check_func_dep_closure sl mat_derived.

(** Check if SELECT returns deterministic result. *)
Definition check_func_dep (sl : st_select_lex) : M bool :=
  do* deref (join sl) in
  if bool_decide (leaf_tables sl = [])
     || (select_number sl =? UINT_MAX)%Z
     || (select_number sl =? INT_MAX)%Z
  then ret false
  else
    let* mat_derived := clear_and_collect (leaf_tables sl) [] in
    check_func_dep_cleared sl mat_derived.

(** ** Vocabulary of the properties *)

Definition bitmap_le (m m' : MY_BITMAP) : Prop :=
  length m = length m' /\ forall i, m !! i = Some true -> m' !! i = Some true.

Definition table_le (T T' : TABLE) : Prop :=
  key_info T' = key_info T /\ primary_key T' = primary_key T /\
  pos_in_table_list T' = pos_in_table_list T /\
  bitmap_le (tmp_set T) (tmp_set T').

(** No table appears or disappears and no bit of an Allowed-Set is
    cleared. *)
Definition state_le (st st' : State) : Prop :=
  forall t, option_Forall2 table_le (tables st !! t) (tables st' !! t).

(** A run that returns leaves the store above where it started, and the
    run does not stop for lack of fuel. *)
Definition grows {A} (m : M A) : Prop :=
  forall st,
    match m st with
    | Ret _ st' => state_le st st'
    | Undef => True
    | NoFuel => False
    end.

(** A run that returns leaves the whole state as it was. *)
Definition reads {A} (m : M A) : Prop :=
  forall st,
    match m st with
    | Ret _ st' => st' = st
    | Undef => True
    | NoFuel => False
    end.

Definition field_allowed (st : State) (fld : Field) : Prop :=
  exists T, tables st !! table fld = Some T /\
            tmp_set T !! field_index fld = Some true.

Definition table_full (st : State) (t : nat) : Prop :=
  exists T, tables st !! t = Some T /\ bitmap_is_set_all (tmp_set T) = true.

Definition key_allowed (st : State) (key : KEY) : Prop :=
  Forall (field_allowed st) (key_part key).

(** The table has a PRIMARY key whose fields are all allowed, or a
    UNIQUE key whose fields are all allowed. *)
Definition has_allowed_key (st : State) (T : TABLE) : Prop :=
  (primary_key T < MAX_KEY /\
   exists pk, key_info T !! primary_key T = Some pk /\ key_allowed st pk)
  \/ (exists k, k ∈ key_info T /\ Z.land (flags k) HA_NOSAME <> 0%Z /\
                key_allowed st k).

(** The state after [bitmap_set_all(&table->tmp_set)] on table [t]. *)
Definition mark_table (st : State) (t : nat) (T : TABLE) : State :=
  mkState (<[t := with_tmp_set T (bitmap_set_all (tmp_set T))]> (tables st))
          (errors st) (subquery_ctx st).

(** The Allowed-Set of some table is not the same in the two states. *)
Definition allowed_set_changed (st st' : State) : Prop :=
  exists t T T', tables st !! t = Some T /\ tables st' !! t = Some T' /\
                 tmp_set T' <> tmp_set T.

(** The Allowed-Set of table [t] is not full in [st] and full in [st']. *)
Definition filled (st st' : State) (t : nat) : Prop :=
  (exists T, tables st !! t = Some T /\ bitmap_is_set_all (tmp_set T) = false)
  /\ table_full st' t.

(** Leaf tables whose Allowed-Set is not full yet. *)
Definition not_full_b (st : State) (tbl : TABLE_LIST) : bool :=
  match tl_table tbl with
  | Some t =>
      match tables st !! t with
      | Some T => negb (bitmap_is_set_all (tmp_set T))
      | None => false
      end
  | None => false
  end.

Definition not_full_count (st : State) (tbls : list TABLE_LIST) : nat :=
  length (List.filter (not_full_b st) tbls).

Definition fields_allowed (st : State) (flds : list Field) : Prop :=
  Forall (field_allowed st) flds.

(** The state after [extract_new_func_dep_field] has marked column
    [fld] of table object [T]. *)
Definition extracted_state (st : State) (fld : Field) (T : TABLE) : State :=
  let T1 := with_tmp_set T (<[field_index fld := true]> (tmp_set T)) in
  let st1 := mkState (<[table fld := T1]> (tables st)) (errors st)
                     (subquery_ctx st) in
  if materialized_derived (pos_in_table_list T)
  then mark_table st1 (table fld) T1
  else st1.

(** Well-formed pointers of the table metadata: every field of every key
    is a column of a table of the store, and a present primary key is one
    of the keys. *)
Definition field_valid (st : State) (fld : Field) : Prop :=
  exists T, tables st !! table fld = Some T /\
            field_index fld < length (tmp_set T).

Definition table_wf (st : State) (T : TABLE) : Prop :=
  (primary_key T < MAX_KEY -> primary_key T < length (key_info T)) /\
  Forall (fun k => Forall (field_valid st) (key_part k)) (key_info T).

Definition leaf_tables_wf (st : State) (tbls : list TABLE_LIST) : Prop :=
  Forall (fun tbl => forall t, tl_table tbl = Some t ->
            exists T, tables st !! t = Some T /\ table_wf st T) tbls.

(** A run that returns raises nothing. *)
Definition quiet {A} (m : M A) : Prop :=
  forall st,
    match m st with
    | Ret _ st' => errors st' = errors st
    | _ => True
    end.

Definition clause_names : list string :=
  ["SELECT list"; "HAVING clause"; "WHERE clause"].

(** Exactly one condition was raised between the two states: the error
    ER_NON_GROUPING_FIELD_USED with a field name and one of the three
    clause names. *)
Definition raised (st st' : State) : Prop :=
  exists name place,
    errors st' = errors st ++ [mkDiag ER_NON_GROUPING_FIELD_USED name place]
    /\ place ∈ clause_names.

(** A run whose answer [a] tells with [failed a] whether it raised the
    error; it raises nothing otherwise. *)
Definition reports {A} (failed : A -> bool) (m : M A) : Prop :=
  forall st a st',
    m st = Ret a st' ->
    if failed a then raised st st' else errors st' = errors st.

(** The state after [my_error(ER_NON_GROUPING_FIELD_USED, MYF(0),
    item_arg->real_item()->full_name(), place)]. *)
Definition with_error (st : State) (item_arg : Item) (place : string)
  : State :=
  mkState (tables st)
          (errors st ++ [mkDiag ER_NON_GROUPING_FIELD_USED
                                (full_name (real_item item_arg)) place])
          (subquery_ctx st).

(** A grouping expression that is a bare column reference, or a
    reference that resolves to one, and the column it denotes. *)
Definition is_column_reference (it : Item) : bool :=
  bool_decide (type (real_item it) = FIELD_ITEM).

Definition column_of (it : Item) : option Field :=
  Item_field_field (real_item it).

(** Every table reference of the list has an opened table in the
    store. *)
Definition tables_opened (st : State) (tbls : list TABLE_LIST) : Prop :=
  Forall (fun tbl => exists t, tl_table tbl = Some t /\
                               is_Some (tables st !! t)) tbls.

Definition same_tables (st st' : State) : Prop :=
  forall t, is_Some (tables st !! t) <-> is_Some (tables st' !! t).

Definition all_full (st : State) (tbls : list TABLE_LIST) : Prop :=
  forall tbl t, tbl ∈ tbls -> tl_table tbl = Some t -> table_full st t.

(** An expression that contains a call of a non-deterministic function,
    at any depth. *)
Fixpoint contains_non_deterministic_func (it : Item) : bool :=
  match it with
  | Item_func _ d _ args =>
      negb d || existsb contains_non_deterministic_func args
  | Item_func_eq _ d _ a0 a1 =>
      negb d || contains_non_deterministic_func a0
      || contains_non_deterministic_func a1
  | Item_ref _ ref => contains_non_deterministic_func ref
  | Item_cond_and _ l | Item_cond_or _ l =>
      existsb contains_non_deterministic_func l
  | Item_field _ _ _ | Item_const _ _ | Item_subselect _ _ => false
  end.

(** The Allowed-Set of the table of a table reference has no bit set. *)
Definition allowed_set_clear_b (st : State) (tbl : TABLE_LIST) : bool :=
  match tl_table tbl with
  | Some t =>
      match tables st !! t with
      | Some T => bitmap_is_clear_all (tmp_set T)
      | None => true
      end
  | None => true
  end.

(** Every field of every key of table object [t] is a column of [t]
    itself. *)
Definition own_keys (t : nat) (T : TABLE) : Prop :=
  forall k fld, k ∈ key_info T -> fld ∈ key_part k -> table fld = t.

Definition keys_own (st : State) (tbls : list TABLE_LIST) : Prop :=
  forall tbl t T, tbl ∈ tbls -> tl_table tbl = Some t ->
    tables st !! t = Some T -> own_keys t T.

(** The tags the walk of one expression adds for the clause [ctx]. *)
Definition clause_tags (ctx : enum_parsing_place) (it : Item)
  : list (string * enum_parsing_place) :=
  List.map (fun n => (n, ctx)) (subselects it).

Definition clause_tags_opt (ctx : enum_parsing_place) (clause : option Item)
  : list (string * enum_parsing_place) :=
  match clause with
  | Some it => clause_tags ctx it
  | None => []
  end.

(** The table object with its Allowed-Set cleared. *)
Definition cleared (T : TABLE) : TABLE :=
  with_tmp_set T (bitmap_clear_all (tmp_set T)).

(** Some table reference of the list has table object [t]. *)
Definition referenced (tbls : list TABLE_LIST) (t : nat) : Prop :=
  exists tbl, tbl ∈ tbls /\ tl_table tbl = Some t.

(** The two states have the same tables, with the same keys and with
    Allowed-Sets of the same size. *)
Definition same_shape (st st' : State) : Prop :=
  forall t,
    option_Forall2
      (fun T T' => key_info T' = key_info T /\
                   primary_key T' = primary_key T /\
                   pos_in_table_list T' = pos_in_table_list T /\
                   length (tmp_set T') = length (tmp_set T))
      (tables st !! t) (tables st' !! t).

(** The expression passes the first capability: it is built from
    allowed fields, constants and grouping expressions only. *)
Definition passes (st : State) (sl : st_select_lex) (gb_items : list Item)
    (it : Item) : Prop :=
  fst (Item_excl_func_dep_on_grouping_fields st sl gb_items it None) = true.

(** The grouping expressions that are not column references. *)
Definition non_column_groups (sl : st_select_lex) : list Item :=
  List.filter (fun it => negb (is_column_reference it)) (group_list sl).

(** Exactly one condition was raised between the two states, the error
    ER_NON_GROUPING_FIELD_USED for the clause [place]. *)
Definition raised_in (place : string) (st st' : State) : Prop :=
  exists name,
    errors st' = errors st ++ [mkDiag ER_NON_GROUPING_FIELD_USED name place].

(** What holds of an equality kept for the later rounds. *)
Definition deferred_entry (e : Item_equal_fd_info) : Prop :=
  (exists item_l item_r,
      arguments (equal e) = Some (item_l, item_r) /\
      is_non_deterministic_func item_l = false /\
      is_non_deterministic_func item_r = false) /\
  fields_l e <> [] /\ fields_r e <> [] /\
  (length (fields_l e) = 1 \/ length (fields_r e) = 1).

(** What a piece of the first pass over the WHERE clause does to the
    locals and to the state: it appends deferred equalities, counts
    every equality it meets, raises its error for the WHERE clause, and
    changes the state only when some equality is not deferred. *)
Definition first_pass (w : where_locals) (st : State) (err : bool)
    (w' : where_locals) (st' : State) : Prop :=
  exists new k,
    eq_items w' = eq_items w ++ new /\ Forall deferred_entry new /\
    eq_count w' = eq_count w + length new + k /\
    (if err then raised_in "WHERE clause" st st'
     else errors st' = errors st) /\
    (k = 0 -> err = false -> st' = st).

(** Neither side of the deferred equality is built from allowed fields
    only. *)
Definition unresolved (st : State) (e : Item_equal_fd_info) : Prop :=
  ~ fields_allowed st (fields_l e) /\ ~ fields_allowed st (fields_r e).

(** The field is the column of a grouping expression that is a column
    reference. *)
Definition grouped_column (sl : st_select_lex) (fld : Field) : Prop :=
  exists it, it ∈ group_list sl /\ is_column_reference it = true /\
             column_of it = Some fld.

(** * Properties *)

(** ** Runs of the state monad *)

Lemma bind_Ret {A B} (m : M A) (k : A -> M B) st b st' :
  bind m k st = Ret b st' <->
  exists a st1, m st = Ret a st1 /\ k a st1 = Ret b st'.
Proof.
  unfold bind. split.
  - destruct (m st) as [a st1| |]; try discriminate. eauto.
  - intros (a & st1 & -> & Hk). exact Hk.
Qed.

Lemma deref_Ret {A} (p : option A) st a st' :
  deref p st = Ret a st' <-> p = Some a /\ st' = st.
Proof.
  destruct p as [x|]; cbn; split.
  - intros [= -> ->]. done.
  - intros [[= ->] ->]. done.
  - discriminate.
  - intros [? _]. discriminate.
Qed.

Lemma get_table_Ret t st T st' :
  get_table t st = Ret T st' <-> tables st !! t = Some T /\ st' = st.
Proof.
  unfold get_table. destruct (tables st !! t) as [T0|]; split.
  - intros [= -> ->]. done.
  - intros [[= ->] ->]. done.
  - discriminate.
  - intros [? _]. discriminate.
Qed.

Lemma put_tmp_set_Ret t map st u st' :
  put_tmp_set t map st = Ret u st' <->
  exists T, tables st !! t = Some T /\
    st' = mkState (<[t := with_tmp_set T map]> (tables st)) (errors st)
                  (subquery_ctx st).
Proof.
  unfold put_tmp_set. destruct (tables st !! t) as [T0|]; split.
  - intros [= <-]. eauto.
  - intros (T & [= <-] & ->). by destruct u.
  - discriminate.
  - intros (T & ? & _). discriminate.
Qed.

(** Decompose a hypothesis saying that a run returned. *)
Ltac run_inv :=
  repeat match goal with
  | H : bind _ _ _ = Ret _ _ |- _ =>
      apply bind_Ret in H; destruct H as (? & ? & ? & H)
  | H : ret _ _ = Ret _ _ |- _ => unfold ret in H
  | H : Ret _ _ = Ret _ _ |- _ => injection H as ? ?; subst
  | H : deref _ _ = Ret _ _ |- _ => apply deref_Ret in H; destruct H as [? ?]
  | H : get_table _ _ = Ret _ _ |- _ =>
      apply get_table_Ret in H; destruct H as [? ?]
  | H : undef _ = Ret _ _ |- _ => discriminate H
  | H : Undef = Ret _ _ |- _ => discriminate H
  | H : NoFuel = Ret _ _ |- _ => discriminate H
  | H : (match ?x with (_, _) => _ end) _ = Ret _ _ |- _ => destruct x
  end; subst.

(** ** The order on Allowed-Sets *)

Lemma bitmap_le_refl m : bitmap_le m m.
Proof. by split. Qed.

Lemma bitmap_le_trans m1 m2 m3 :
  bitmap_le m1 m2 -> bitmap_le m2 m3 -> bitmap_le m1 m3.
Proof. intros [L1 H1] [L2 H2]. split; [congruence | auto]. Qed.

Lemma table_le_refl T : table_le T T.
Proof. unfold table_le. auto using bitmap_le_refl. Qed.

Lemma table_le_trans T1 T2 T3 :
  table_le T1 T2 -> table_le T2 T3 -> table_le T1 T3.
Proof.
  intros (K1 & P1 & L1 & B1) (K2 & P2 & L2 & B2).
  repeat split; try congruence; eapply bitmap_le_trans; eauto.
Qed.

Lemma state_le_refl st : state_le st st.
Proof.
  intros t. destruct (tables st !! t); constructor. apply table_le_refl.
Qed.

Lemma state_le_trans st1 st2 st3 :
  state_le st1 st2 -> state_le st2 st3 -> state_le st1 st3.
Proof.
  intros H12 H23 t. specialize (H12 t). specialize (H23 t).
  destruct H12 as [T1 T2 H12|]; inversion H23; subst; constructor.
  eapply table_le_trans; eauto.
Qed.

Lemma state_le_lookup st st' t T :
  state_le st st' -> tables st !! t = Some T ->
  exists T', tables st' !! t = Some T' /\ table_le T T'.
Proof.
  intros H Ht. specialize (H t). rewrite Ht in H. inversion H; subst. eauto.
Qed.

Lemma state_le_lookup_inv st st' t T' :
  state_le st st' -> tables st' !! t = Some T' ->
  exists T, tables st !! t = Some T /\ table_le T T'.
Proof.
  intros H Ht. specialize (H t). rewrite Ht in H. inversion H; subst. eauto.
Qed.

Lemma bitmap_is_set_all_spec (m : MY_BITMAP) :
  bitmap_is_set_all m = true <->
  forall i, i < length m -> m !! i = Some true.
Proof.
  unfold bitmap_is_set_all. induction m as [|b m IH]; cbn.
  - split; [intros _ i Hi; lia | done].
  - rewrite andb_true_iff, IH. split.
    + intros [-> H] [|i] Hi; cbn; [done | apply H; lia].
    + intros H. split.
      * specialize (H 0 ltac:(lia)). by injection H.
      * intros i Hi. apply (H (S i)). lia.
Qed.

Lemma bitmap_set_all_is_set_all m :
  bitmap_is_set_all (bitmap_set_all m) = true.
Proof.
  apply bitmap_is_set_all_spec. unfold bitmap_set_all. intros i Hi.
  rewrite length_replicate in Hi. by apply lookup_replicate_2.
Qed.

Lemma bitmap_le_set_all m : bitmap_le m (bitmap_set_all m).
Proof.
  unfold bitmap_set_all. split.
  - by rewrite length_replicate.
  - intros i Hi. apply lookup_replicate_2. by apply lookup_lt_Some in Hi.
Qed.

Lemma bitmap_le_set_bit m bit m' :
  bitmap_set_bit m bit = Some m' ->
  bitmap_le m m' /\ m' !! bit = Some true.
Proof.
  unfold bitmap_set_bit. case_decide; [|discriminate]. intros [= <-].
  repeat split.
  - by rewrite length_insert.
  - intros i Hi. destruct (decide (bit = i)) as [->|Hne].
    + by apply list_lookup_insert_eq.
    + by rewrite list_lookup_insert_ne.
  - by apply list_lookup_insert_eq.
Qed.

Lemma bitmap_le_is_set_all m m' :
  bitmap_le m m' -> bitmap_is_set_all m = true ->
  bitmap_is_set_all m' = true.
Proof.
  intros [L H]. rewrite !bitmap_is_set_all_spec. intros Hm i Hi.
  apply H, Hm. lia.
Qed.

Lemma field_allowed_le st st' fld :
  state_le st st' -> field_allowed st fld -> field_allowed st' fld.
Proof.
  intros Hle (T & Ht & Hb).
  destruct (state_le_lookup _ _ _ _ Hle Ht) as (T' & Ht' & _ & _ & _ & _ & HB).
  exists T'. auto.
Qed.

Lemma table_full_le st st' t :
  state_le st st' -> table_full st t -> table_full st' t.
Proof.
  intros Hle (T & Ht & Hb).
  destruct (state_le_lookup _ _ _ _ Hle Ht) as (T' & Ht' & _ & _ & _ & HB).
  exists T'. eauto using bitmap_le_is_set_all.
Qed.

(** ** Every operation only adds to the Allowed-Sets *)

Lemma reads_grows {A} (m : M A) : reads m -> grows m.
Proof.
  intros H st. specialize (H st). destruct (m st); try done.
  subst. apply state_le_refl.
Qed.

Lemma reads_ret {A} (a : A) : reads (ret a).
Proof. by intros st. Qed.

Lemma reads_bind {A B} (m : M A) (k : A -> M B) :
  reads m -> (forall a, reads (k a)) -> reads (bind m k).
Proof.
  intros Hm Hk st. unfold bind. specialize (Hm st).
  destruct (m st) as [a st1| |]; try done. subst.
  apply Hk.
Qed.

Lemma reads_deref {A} (p : option A) : reads (deref p).
Proof. by destruct p. Qed.

Lemma reads_get_table t : reads (get_table t).
Proof. intros st. unfold get_table. by destruct (tables st !! t). Qed.

Lemma grows_ret {A} (a : A) : grows (ret a).
Proof. apply reads_grows, reads_ret. Qed.

Lemma grows_bind {A B} (m : M A) (k : A -> M B) :
  grows m -> (forall a, grows (k a)) -> grows (bind m k).
Proof.
  intros Hm Hk st. unfold bind. specialize (Hm st).
  destruct (m st) as [a st1| |]; try done.
  specialize (Hk a st1). destruct (k a st1); try done.
  eapply state_le_trans; eauto.
Qed.

Lemma grows_Ret {A} (m : M A) st a st' :
  grows m -> m st = Ret a st' -> state_le st st'.
Proof. intros H E. specialize (H st). by rewrite E in H. Qed.

Lemma reads_Ret {A} (m : M A) st a st' :
  reads m -> m st = Ret a st' -> st' = st.
Proof. intros H E. specialize (H st). by rewrite E in H. Qed.

Lemma state_le_insert st t T T' :
  tables st !! t = Some T -> table_le T T' ->
  state_le st (mkState (<[t := T']> (tables st)) (errors st)
                       (subquery_ctx st)).
Proof.
  intros Ht Hle t'. cbn. destruct (decide (t = t')) as [<-|Hne].
  - rewrite lookup_insert_eq, Ht. by constructor.
  - rewrite lookup_insert_ne by done.
    destruct (tables st !! t'); constructor. apply table_le_refl.
Qed.

Lemma grows_tmp_set_all t : grows (tmp_set_all t).
Proof.
  intros st. unfold tmp_set_all, bind, get_table, put_tmp_set.
  destruct (tables st !! t) as [T|] eqn:Ht; [|done]. rewrite Ht.
  apply state_le_insert with T; [done|].
  unfold table_le. cbn. auto using bitmap_le_set_all.
Qed.

Lemma grows_tmp_set_bit t bit : grows (tmp_set_bit t bit).
Proof.
  intros st. unfold tmp_set_bit, bind, get_table, put_tmp_set.
  destruct (tables st !! t) as [T|] eqn:Ht; [|done].
  destruct (bitmap_set_bit (tmp_set T) bit) as [m'|] eqn:Hb; [|done].
  cbn. rewrite Ht. apply state_le_insert with T; [done|].
  apply bitmap_le_set_bit in Hb as [Hb _]. unfold table_le. cbn. auto.
Qed.

Lemma state_le_same st st' : tables st' = tables st -> state_le st st'.
Proof.
  intros E t. rewrite E. destruct (tables st !! t); constructor.
  apply table_le_refl.
Qed.

Lemma grows_my_error nr name place : grows (my_error nr name place).
Proof. intros st. by apply state_le_same. Qed.

Lemma grows_walk_set_subquery_ctx it ctx :
  grows (walk_set_subquery_ctx it ctx).
Proof. intros st. by apply state_le_same. Qed.

Lemma reads_Field_excl fld :
  reads (Field_excl_func_dep_on_grouping_fields fld).
Proof.
  apply reads_bind; [apply reads_get_table | intros; apply reads_deref].
Qed.

Lemma reads_excl_func_dep_on_grouping_fields sl gb it w :
  reads (excl_func_dep_on_grouping_fields sl gb it w).
Proof. by intros st. Qed.

Lemma reads_excl_func_dep_from_equalities sl it w fs :
  reads (excl_func_dep_from_equalities sl it w fs).
Proof. by intros st. Qed.

Create HintDb grows.
#[local] Hint Resolve reads_grows reads_ret reads_deref reads_get_table
  grows_ret grows_tmp_set_all grows_tmp_set_bit grows_my_error
  grows_walk_set_subquery_ctx reads_Field_excl
  reads_excl_func_dep_on_grouping_fields
  reads_excl_func_dep_from_equalities : grows.

(** Split a goal about a composed run along its structure. *)
Ltac run_struct P bindlem :=
  repeat first
    [ solve [eauto with grows]
    | match goal with
      | |- P _ (bind _ _) => apply bindlem; [|intros]
      | |- P _ (if ?b then _ else _) => destruct b
      | |- P _ (match ?x with _ => _ end) => destruct x
      end ].

Ltac grows_tac := run_struct (@grows) (@grows_bind).
Ltac reads_tac := run_struct (@reads) (@reads_bind).

Lemma reads_are_key_parts_allowed parts : reads (are_key_parts_allowed parts).
Proof. induction parts; cbn; reads_tac. Qed.

Lemma reads_fields_dep flds dep : reads (fields_dep flds dep).
Proof. revert dep. induction flds; intros; cbn; reads_tac. Qed.

#[local] Hint Resolve reads_are_key_parts_allowed reads_fields_dep : grows.

Lemma grows_unique_keys_scan t keys : grows (unique_keys_scan t keys).
Proof. induction keys; cbn; unfold are_key_fields_allowed; grows_tac. Qed.

#[local] Hint Resolve grows_unique_keys_scan : grows.

Lemma grows_check_table_keys tbl : grows (check_table_keys tbl).
Proof. unfold check_table_keys, are_key_fields_allowed. grows_tac. Qed.

#[local] Hint Resolve grows_check_table_keys : grows.

Lemma grows_check_allowed_unique_keys_from tbls fe :
  grows (check_allowed_unique_keys_from tbls fe).
Proof. revert fe. induction tbls; intros; cbn; grows_tac. Qed.

Lemma grows_check_allowed_unique_keys sl : grows (check_allowed_unique_keys sl).
Proof. apply grows_check_allowed_unique_keys_from. Qed.

#[local] Hint Resolve grows_check_allowed_unique_keys : grows.

Lemma grows_mat_derived_scan l : grows (mat_derived_scan l).
Proof. induction l; cbn; grows_tac. Qed.

#[local] Hint Resolve grows_mat_derived_scan : grows.

Lemma grows_check_allowed_materialized_derived md :
  grows (check_allowed_materialized_derived md).
Proof. unfold check_allowed_materialized_derived. grows_tac. Qed.

Lemma grows_collect_gb_scan ords gb : grows (collect_gb_scan ords gb).
Proof. revert gb. induction ords; intros; cbn; grows_tac. Qed.

#[local] Hint Resolve grows_check_allowed_materialized_derived
  grows_collect_gb_scan : grows.

Lemma grows_collect_gb_fields sl md gb : grows (collect_gb_fields sl md gb).
Proof. unfold collect_gb_fields. grows_tac. Qed.

Lemma grows_set_select_list_context items :
  grows (set_select_list_context items).
Proof. induction items; cbn; grows_tac. Qed.

#[local] Hint Resolve grows_set_select_list_context : grows.

Lemma grows_set_subqueries_context sl : grows (set_subqueries_context sl).
Proof. unfold set_subqueries_context, set_clause_context. grows_tac. Qed.

Lemma grows_report_non_grouping_field w place :
  grows (report_non_grouping_field w place).
Proof. unfold report_non_grouping_field. grows_tac. Qed.

#[local] Hint Resolve grows_report_non_grouping_field : grows.

Lemma grows_select_list_scan sl gb items : grows (select_list_scan sl gb items).
Proof. induction items; cbn; grows_tac. Qed.

Lemma grows_are_select_list_fields_allowed sl gb :
  grows (are_select_list_fields_allowed sl gb).
Proof. apply grows_select_list_scan. Qed.

Lemma grows_are_having_fields_allowed sl h gb :
  grows (are_having_fields_allowed sl h gb).
Proof. unfold are_having_fields_allowed. grows_tac. Qed.

Lemma grows_extract_new_func_dep_field eq dp nd :
  grows (extract_new_func_dep_field eq dp nd).
Proof. unfold extract_new_func_dep_field. grows_tac. Qed.

#[local] Hint Resolve grows_are_select_list_fields_allowed
  grows_are_having_fields_allowed grows_extract_new_func_dep_field
  grows_collect_gb_fields grows_set_subqueries_context : grows.

Lemma grows_check_equality_on_new_func_dep eq sl eqs :
  grows (check_equality_on_new_func_dep eq sl eqs).
Proof.
  unfold check_equality_on_new_func_dep, where_clause_exit. grows_tac.
Qed.

#[local] Hint Resolve grows_check_equality_on_new_func_dep : grows.

Lemma grows_and_arguments_scan args sl w : grows (and_arguments_scan args sl w).
Proof.
  revert w. induction args; intros; cbn;
    unfold check_equality_condition, check_other_condition; grows_tac.
Qed.

#[local] Hint Resolve grows_and_arguments_scan : grows.

Lemma grows_traverse_where cond sl : grows (traverse_where cond sl).
Proof.
  unfold traverse_where, check_equality_condition, check_other_condition.
  grows_tac.
Qed.

Lemma grows_process_eq_it eq_it ex : grows (process_eq_it eq_it ex).
Proof. unfold process_eq_it. grows_tac. Qed.

#[local] Hint Resolve grows_traverse_where grows_process_eq_it : grows.

Lemma grows_eq_items_round items ex : grows (eq_items_round items ex).
Proof. revert ex. induction items; intros; cbn; grows_tac. Qed.

#[local] Hint Resolve grows_eq_items_round : grows.

Lemma grows_eq_items_loop_body sl items : grows (eq_items_loop_body sl items).
Proof. unfold eq_items_loop_body. grows_tac. Qed.

Lemma grows_set_all_tables tbls : grows (set_all_tables tbls).
Proof. induction tbls; cbn; grows_tac. Qed.

#[local] Hint Resolve grows_eq_items_loop_body grows_set_all_tables : grows.

Lemma grows_set_update_table_fields sl : grows (set_update_table_fields sl).
Proof. unfold set_update_table_fields. grows_tac. Qed.

#[local] Hint Resolve grows_set_update_table_fields : grows.

(** ** Key Closure *)

Lemma Field_excl_Ret fld st b st' :
  Field_excl_func_dep_on_grouping_fields fld st = Ret b st' ->
  st' = st /\ (b = true <-> field_allowed st fld).
Proof.
  unfold Field_excl_func_dep_on_grouping_fields, bitmap_is_set. intros H.
  run_inv. split; [done|]. unfold field_allowed. split.
  - intros ->. eauto.
  - intros (T & HT & Hb). congruence.
Qed.

Lemma are_key_parts_allowed_Ret parts st b st' :
  are_key_parts_allowed parts st = Ret b st' ->
  st' = st /\ (b = true <-> Forall (field_allowed st) parts).
Proof.
  revert st. induction parts as [|fld rest IH]; cbn; intros st H.
  - run_inv. split; [done|]. split; [constructor | done].
  - run_inv. apply Field_excl_Ret in H0 as [-> Hf]. destruct x.
    + apply IH in H as [-> Hr]. split; [done|]. rewrite Hr. split.
      * intros. constructor; [by apply Hf | done].
      * by inversion 1.
    + run_inv. split; [done|]. split; [done|]. inversion 1; subst.
      by apply Hf.
Qed.

Lemma tmp_set_all_Ret t st u st' :
  tmp_set_all t st = Ret u st' <->
  exists T, tables st !! t = Some T /\ st' = mark_table st t T.
Proof.
  unfold tmp_set_all, mark_table. rewrite bind_Ret. split.
  - intros (T & st1 & HT & Hp). run_inv.
    apply put_tmp_set_Ret in Hp as (T' & HT' & ->).
    exists T. split; [done|]. congruence.
  - intros (T & HT & ->). exists T, st. split; [by apply get_table_Ret|].
    apply put_tmp_set_Ret. eauto.
Qed.

Lemma mark_table_full st t T : table_full (mark_table st t T) t.
Proof.
  exists (with_tmp_set T (bitmap_set_all (tmp_set T))). cbn.
  rewrite lookup_insert_eq. auto using bitmap_set_all_is_set_all.
Qed.

Lemma mark_table_le st t T :
  tables st !! t = Some T -> state_le st (mark_table st t T).
Proof.
  intros HT. apply state_le_insert with T; [done|].
  unfold table_le. cbn. auto using bitmap_le_set_all.
Qed.

Lemma unique_keys_scan_Ret t keys st b st' :
  unique_keys_scan t keys st = Ret b st' ->
  (b = false /\ st' = st /\
   Forall (fun k => Z.land (flags k) HA_NOSAME <> 0%Z -> ~ key_allowed st k)
          keys)
  \/ (b = true /\ exists T, tables st !! t = Some T /\
                            st' = mark_table st t T).
Proof.
  induction keys as [|k rest IH]; cbn; intros H.
  - run_inv. left. auto.
  - destruct (Z.land (flags k) HA_NOSAME =? 0)%Z eqn:Hflag.
    + apply Z.eqb_eq in Hflag.
      destruct (IH H) as [(-> & -> & Hr)|?]; [left|by right].
      do 2 (split; [done|]). constructor; [congruence | done].
    + run_inv. apply are_key_parts_allowed_Ret in H0 as [-> Hk].
      destruct x.
      * run_inv. right. split; [done|]. by apply tmp_set_all_Ret in H0.
      * destruct (IH H) as [(-> & -> & Hr)|?]; [left|by right].
        do 2 (split; [done|]). constructor; [|done].
        intros _ Hall. apply Hk in Hall. discriminate.
Qed.

Lemma check_table_keys_Ret tbl st e st' :
  check_table_keys tbl st = Ret e st' ->
  (e = false /\ st' = st /\
   forall t T, tl_table tbl = Some t -> tables st !! t = Some T ->
     bitmap_is_set_all (tmp_set T) = true \/ ~ has_allowed_key st T)
  \/ (e = true /\ exists t T,
        tl_table tbl = Some t /\ tables st !! t = Some T /\
        bitmap_is_set_all (tmp_set T) = false /\ st' = mark_table st t T).
Proof.
  unfold check_table_keys. destruct (tl_table tbl) as [t|]; intros H.
  - apply bind_Ret in H as (T & st1 & HT & H).
    apply get_table_Ret in HT as [HT ->].
    destruct (bitmap_is_set_all (tmp_set T)) eqn:Hfull.
    + run_inv. left. do 2 (split; [done|]). intros ? ? [= <-] ?. left.
      congruence.
    + apply bind_Ret in H as (p & st1 & Hp & H).
      assert (st1 = st /\ (p = true <->
        primary_key T < MAX_KEY /\
        exists pk, key_info T !! primary_key T = Some pk /\
                   key_allowed st pk)) as [-> Hpk].
      { case_decide as Hlt.
        - apply bind_Ret in Hp as (pk & st2 & Hd & Hp).
          apply deref_Ret in Hd as [Hd ->].
          apply are_key_parts_allowed_Ret in Hp as [-> Hk].
          split; [done|]. rewrite Hk. split; [eauto|].
          intros (_ & pk' & E & Hall). rewrite Hd in E.
          by injection E as <-.
        - run_inv. split; [done|]. split; [done|]. intros [? _]. lia. }
      destruct p.
      * apply bind_Ret in H as (u & st2 & Hs & H). run_inv.
        right. split; [done|]. exists t, T.
        apply tmp_set_all_Ret in Hs as (T' & HT' & ->).
        do 3 (split; [done|]). congruence.
      * apply unique_keys_scan_Ret in H
          as [(-> & -> & Hr)|(-> & T' & HT' & ->)].
        -- left. do 2 (split; [done|]). intros ? T0 [= <-] HT0. right.
           assert (T0 = T) as -> by congruence.
           intros [Hp'|(k & Hin & Hf & Hall)].
           ++ apply Hpk in Hp'. discriminate.
           ++ rewrite Forall_forall in Hr. by apply (Hr k).
        -- right. split; [done|]. exists t, T. do 3 (split; [done|]).
           congruence.
  - run_inv. left. do 2 (split; [done|]). discriminate.
Qed.

Lemma key_allowed_le st st' k :
  state_le st st' -> key_allowed st k -> key_allowed st' k.
Proof.
  unfold key_allowed. intros Hle Hall. eapply Forall_impl; [exact Hall|].
  intros. by eapply field_allowed_le.
Qed.

Lemma has_allowed_key_le st st' T T' :
  state_le st st' -> table_le T T' ->
  has_allowed_key st T -> has_allowed_key st' T'.
Proof.
  intros Hle (HK & HP & _) [(Hlt & pk & E & Hall)|(k & Hin & Hf & Hall)].
  - left. rewrite HP, HK. eauto using key_allowed_le.
  - right. rewrite HK. eauto using key_allowed_le.
Qed.

Lemma filled_le st0 st st' st1 t :
  state_le st0 st -> state_le st' st1 -> filled st st' t -> filled st0 st1 t.
Proof.
  intros H0 H1 [(T & HT & Hn) Hf]. split; [|by eapply table_full_le].
  destruct (state_le_lookup_inv _ _ _ _ H0 HT) as (T0 & HT0 & _ & _ & _ & HB).
  exists T0. split; [done|].
  destruct (bitmap_is_set_all (tmp_set T0)) eqn:E; [|done].
  rewrite (bitmap_le_is_set_all _ _ HB E) in Hn. discriminate.
Qed.

Lemma check_allowed_unique_keys_from_Ret tbls fe st r st' :
  check_allowed_unique_keys_from tbls fe st = Ret r st' ->
  state_le st st' /\
  (forall tbl t T, tbl ∈ tbls -> tl_table tbl = Some t ->
     tables st !! t = Some T -> has_allowed_key st T -> table_full st' t) /\
  (r = false -> fe = false /\ st' = st) /\
  (r = true -> fe = true \/
     exists tbl t, tbl ∈ tbls /\ tl_table tbl = Some t /\ filled st st' t).
Proof.
  revert fe st. induction tbls as [|tbl rest IH]; cbn; intros fe st H.
  - run_inv. split; [apply state_le_refl|]. split.
    { intros ? ? ? Hin. by apply elem_of_nil in Hin. }
    split; [done | auto].
  - run_inv. rename x into e, x0 into st1.
    pose proof (grows_Ret _ _ _ _ (grows_check_table_keys tbl) H0) as Hle1.
    destruct (IH _ _ H) as (Hle2 & Hall & Hfalse & Htrue).
    split; [by eapply state_le_trans|]. split; [|split].
    + intros tbl' t T Hin Ht HT Hkey.
      apply elem_of_cons in Hin as [->|Hin].
      * eapply table_full_le; [exact Hle2|].
        apply check_table_keys_Ret in H0
          as [(-> & -> & Hno)|(-> & t' & T' & Ht' & HT' & Hn & ->)].
        -- destruct (Hno _ _ Ht HT) as [Hf|Hf]; [by exists T | done].
        -- assert (t' = t) as -> by congruence. apply mark_table_full.
      * destruct (state_le_lookup _ _ _ _ Hle1 HT) as (T1 & HT1 & HTle).
        eapply Hall; eauto using has_allowed_key_le.
    + intros ->. destruct (Hfalse eq_refl) as [Hor ->].
      apply orb_false_iff in Hor as [-> ->].
      apply check_table_keys_Ret in H0 as [(_ & -> & _)|(? & _)]; done.
    + intros ->. destruct fe; [by left|right]. cbn in *.
      apply check_table_keys_Ret in H0
        as [(-> & -> & Hno)|(-> & t' & T' & Ht' & HT' & Hn & ->)].
      * destruct (Htrue eq_refl) as [?|(tbl' & t & Hin & Ht & Hf)]; [done|].
        exists tbl', t. split; [apply elem_of_cons; by right | done].
      * exists tbl, t'. split; [apply elem_of_cons; by left|]. split; [done|].
        eapply filled_le; [apply state_le_refl | exact Hle2 |].
        split; [eauto | apply mark_table_full].
Qed.

Lemma filled_changed st st' t : filled st st' t -> allowed_set_changed st st'.
Proof.
  intros [(T & HT & Hn) (T' & HT' & Hf)]. exists t, T, T'.
  repeat split; try done. congruence.
Qed.

(** ** Single-field extraction *)

Lemma tmp_set_bit_Ret t bit st u st' :
  tmp_set_bit t bit st = Ret u st' <->
  exists T, tables st !! t = Some T /\ bit < length (tmp_set T) /\
    st' = mkState (<[t := with_tmp_set T (<[bit := true]> (tmp_set T))]>
                     (tables st)) (errors st) (subquery_ctx st).
Proof.
  unfold tmp_set_bit, bitmap_set_bit. split.
  - intros H. apply bind_Ret in H as (T & st1 & HT & H).
    apply get_table_Ret in HT as [HT ->].
    apply bind_Ret in H as (m & st1 & Hm & H).
    apply deref_Ret in Hm as [Hm ->]. case_decide; [|discriminate].
    injection Hm as <-. apply put_tmp_set_Ret in H as (T' & HT' & ->).
    exists T. split; [done|]. split; [done|]. congruence.
  - intros (T & HT & Hlt & ->). apply bind_Ret. exists T, st.
    split; [by apply get_table_Ret|]. apply bind_Ret.
    exists (<[bit := true]> (tmp_set T)), st. split.
    + apply deref_Ret. split; [|done]. by rewrite decide_True.
    + apply put_tmp_set_Ret. eauto.
Qed.

Lemma extract_new_func_dep_field_Ret eq dp nd st b st' :
  extract_new_func_dep_field eq dp nd st = Ret b st' ->
  (b = false /\ st' = st) \/
  (b = true /\ exists name fld th T,
     nd = Item_field name fld th /\
     compare_type_handler eq = Some (type_handler_for_comparison dp) /\
     tables st !! table fld = Some T /\
     tmp_set T !! field_index fld = Some false /\
     st' = extracted_state st fld T).
Proof.
  unfold extract_new_func_dep_field. intros H.
  destruct (bool_decide (type (real_item nd) = FIELD_ITEM)); cbn in H;
    [|run_inv; by left].
  apply bind_Ret in H as (cmp & st1 & Hc & H).
  apply deref_Ret in Hc as [Hc ->].
  case_bool_decide as Hth; cbn in H; [|run_inv; by left].
  apply bind_Ret in H as (fld & st1 & Hf & H).
  apply deref_Ret in Hf as [Hf ->].
  apply bind_Ret in H as (T & st1 & HT & H).
  apply get_table_Ret in HT as [HT ->].
  apply bind_Ret in H as (is_set & st1 & Hs & H).
  apply deref_Ret in Hs as [Hs ->]. unfold bitmap_is_set in Hs.
  destruct is_set; [run_inv; by left|].
  apply bind_Ret in H as (u & st1 & Hb & H).
  apply tmp_set_bit_Ret in Hb as (T' & HT' & Hlt & ->).
  assert (T' = T) as -> by congruence.
  apply bind_Ret in H as (u' & st2 & Hm & H). run_inv.
  right. split; [done|]. destruct nd; try discriminate.
  injection Hf as ->. exists name, fld, th, T.
  do 4 (split; [congruence|]). unfold extracted_state.
  destruct (materialized_derived (pos_in_table_list T)).
  - apply tmp_set_all_Ret in Hm as (T1 & HT1 & ->). cbn in HT1.
    rewrite lookup_insert_eq in HT1. by injection HT1 as <-.
  - by run_inv.
Qed.

(** ** The rounds over the deferred equalities *)

Lemma fields_dep_Ret flds dep st b st' :
  fields_dep flds dep st = Ret b st' ->
  st' = st /\ (b = true <-> dep = true /\ fields_allowed st flds).
Proof.
  revert dep. induction flds as [|fld rest IH]; cbn; intros dep H.
  - run_inv. split; [done|]. split; [by split; [|constructor] | by intros []].
  - apply bind_Ret in H as (ok & st1 & Hf & H).
    apply Field_excl_Ret in Hf as [-> Hf].
    apply IH in H as [-> Hr]. split; [done|]. rewrite Hr.
    rewrite andb_true_iff, Hf. unfold fields_allowed. split.
    + intros [[? ?] ?]. split; [done|]. by constructor.
    + intros [? Hall]. inversion Hall; subst. auto.
Qed.

Lemma fields_dep_allowed flds st :
  fields_allowed st flds -> fields_dep flds true st = Ret true st.
Proof.
  induction 1 as [|fld rest (T & HT & Hb) Hall IH]; cbn; [done|].
  unfold bind, Field_excl_func_dep_on_grouping_fields, bind, get_table.
  rewrite HT. unfold bitmap_is_set. rewrite Hb. cbn. exact IH.
Qed.

Lemma fields_allowed_le st st' flds :
  state_le st st' -> fields_allowed st flds -> fields_allowed st' flds.
Proof.
  unfold fields_allowed. intros Hle Hall.
  eapply Forall_impl; [exact Hall|]. intros. by eapply field_allowed_le.
Qed.

Lemma process_eq_it_Ret eq_it ex st ex' removed st' :
  process_eq_it eq_it ex st = Ret (ex', removed) st' ->
  (~ fields_allowed st (fields_l eq_it) /\
   ~ fields_allowed st (fields_r eq_it) /\
   removed = false /\ ex' = ex /\ st' = st)
  \/ (fields_allowed st (fields_l eq_it) /\
      fields_allowed st (fields_r eq_it) /\
      removed = true /\ ex' = ex /\ st' = st)
  \/ (fields_allowed st (fields_l eq_it) /\
      ~ fields_allowed st (fields_r eq_it) /\
      removed = true /\
      exists a0 a1 b, arguments (equal eq_it) = Some (a0, a1) /\
        extract_new_func_dep_field (equal eq_it) a0 a1 st = Ret b st' /\
        ex' = ex || b)
  \/ (~ fields_allowed st (fields_l eq_it) /\
      fields_allowed st (fields_r eq_it) /\
      removed = true /\
      exists a0 a1 b, arguments (equal eq_it) = Some (a0, a1) /\
        extract_new_func_dep_field (equal eq_it) a1 a0 st = Ret b st' /\
        ex' = ex || b).
Proof.
  clear. unfold process_eq_it. intros H.
  apply bind_Ret in H as (dep_l & st1 & Hl & H).
  apply fields_dep_Ret in Hl as [-> Hl].
  apply bind_Ret in H as (dep_r & st1 & Hr & H).
  apply fields_dep_Ret in Hr as [-> Hr].
  assert (dep_l = true <-> fields_allowed st (fields_l eq_it)) as Hl'
    by (rewrite Hl; tauto).
  assert (dep_r = true <-> fields_allowed st (fields_r eq_it)) as Hr'
    by (rewrite Hr; tauto).
  clear Hl Hr.
  destruct dep_l, dep_r; cbn in H.
  - run_inv. right. left. rewrite orb_false_r. tauto.
  - run_inv. right. right. left. split; [tauto|]. split; [|split; [done|]].
    { intros HR. apply Hr' in HR. discriminate. }
    match goal with
    | He : extract_new_func_dep_field _ _ _ _ = Ret ?x _ |- _ => destruct x
    end; run_inv; eauto 10.
  - run_inv. right. right. right. split; [|split; [tauto|split; [done|]]].
    { intros HL. apply Hl' in HL. discriminate. }
    eauto 10.
  - run_inv. left. split; [|split].
    + intros HL. apply Hl' in HL. discriminate.
    + intros HR. apply Hr' in HR. discriminate.
    + done.
Qed.

Lemma eq_items_round_Ret items ex st ex' items' st' :
  eq_items_round items ex st = Ret (ex', items') st' ->
  state_le st st' /\ sublist items' items /\
  Forall (fun e => ~ fields_allowed st (fields_l e) /\
                   ~ fields_allowed st (fields_r e)) items' /\
  (length items' = length items -> ex' = ex /\ st' = st) /\
  (ex' = true -> ex = true \/ length items' < length items) /\
  ((forall e, e ∈ items ->
      fields_allowed st (fields_l e) \/ fields_allowed st (fields_r e)) ->
   items' = []).
Proof.
  intros H.
  split; [exact (grows_Ret _ _ _ _ (grows_eq_items_round items ex) H)|].
  revert ex st ex' items' H.
  induction items as [|e rest IH]; cbn; intros ex st ex' items' H.
  - run_inv. split; [constructor|]. split; [constructor|]. auto.
  - apply bind_Ret in H as ([ex1 removed] & st1 & Hp & H).
    apply bind_Ret in H as ([ex2 rest'] & st2 & Hr & H).
    injection H as <- <- <-.
    pose proof (grows_Ret _ _ _ _ (grows_process_eq_it e ex) Hp) as Hle1.
    destruct (IH _ _ _ _ Hr) as (Hsub & Hun & Hlen & Hex & Hall).
    pose proof (sublist_length _ _ Hsub) as Hlen'.
    assert (Forall (fun e => ~ fields_allowed st (fields_l e) /\
                             ~ fields_allowed st (fields_r e)) rest')
      as Hun'.
    { eapply Forall_impl; [exact Hun|]. intros e' [Hl Hr'].
      split; intros Ha; [apply Hl | apply Hr'];
        by eapply fields_allowed_le. }
    apply process_eq_it_Ret in Hp
      as [(HL & HR & -> & -> & ->)|
          [(HL & HR & -> & -> & ->)|
           [(HL & HR & -> & _)|(HL & HR & -> & _)]]].
    + split; [by constructor|]. split; [by constructor|]. split; [|split].
      * cbn. intros [= E]. by apply Hlen.
      * cbn. intros E. destruct (Hex E); [by left | right; lia].
      * intros Hsat. destruct (Hsat e); [apply elem_of_cons; by left|..];
          done.
    + split; [by constructor|]. split; [done|]. split; [|split].
      * cbn. lia.
      * cbn. intros _. right. lia.
      * intros Hsat. apply Hall. intros e' Hin.
        apply Hsat, elem_of_cons. by right.
    + split; [by constructor|]. split; [done|]. split; [|split].
      * cbn. lia.
      * cbn. intros _. right. lia.
      * intros Hsat. apply Hall. intros e' Hin.
        destruct (Hsat e') as [?|?]; [apply elem_of_cons; by right|..];
          eauto using fields_allowed_le.
    + split; [by constructor|]. split; [done|]. split; [|split].
      * cbn. lia.
      * cbn. intros _. right. lia.
      * intros Hsat. apply Hall. intros e' Hin.
        destruct (Hsat e') as [?|?]; [apply elem_of_cons; by right|..];
          eauto using fields_allowed_le.
Qed.

(** ** Termination of the loop over the deferred equalities *)

Lemma not_full_b_le st st' tbl :
  state_le st st' -> not_full_b st' tbl = true -> not_full_b st tbl = true.
Proof.
  unfold not_full_b. intros Hle. destruct (tl_table tbl) as [t|]; [|done].
  specialize (Hle t). destruct Hle as [T T' (_ & _ & _ & HB)|]; [|done].
  destruct (bitmap_is_set_all (tmp_set T)) eqn:E; [|done].
  by rewrite (bitmap_le_is_set_all _ _ HB E).
Qed.

Lemma not_full_count_le st st' tbls :
  state_le st st' -> not_full_count st' tbls <= not_full_count st tbls.
Proof.
  intros Hle. unfold not_full_count.
  induction tbls as [|tbl rest IH]; cbn; [done|].
  destruct (not_full_b st' tbl) eqn:E.
  - rewrite (not_full_b_le _ _ _ Hle E). cbn. lia.
  - destruct (not_full_b st tbl); cbn; lia.
Qed.

Lemma not_full_count_lt st st' tbls tbl t :
  state_le st st' -> tbl ∈ tbls -> tl_table tbl = Some t ->
  filled st st' t ->
  not_full_count st' tbls < not_full_count st tbls.
Proof.
  intros Hle Hin Ht [(T & HT & Hn) (T' & HT' & Hf)].
  assert (not_full_b st tbl = true) as E
    by (unfold not_full_b; by rewrite Ht, HT, Hn).
  assert (not_full_b st' tbl = false) as E'
    by (unfold not_full_b; by rewrite Ht, HT', Hf).
  unfold not_full_count.
  induction tbls as [|tbl0 rest IH]; [by apply elem_of_nil in Hin|].
  pose proof (not_full_count_le st st' rest Hle) as Hrest.
  unfold not_full_count in Hrest.
  apply elem_of_cons in Hin as [<-|Hin]; cbn.
  - rewrite E, E'. cbn. lia.
  - specialize (IH Hin). destruct (not_full_b st' tbl0) eqn:E0.
    + rewrite (not_full_b_le _ _ _ Hle E0). cbn. lia.
    + destruct (not_full_b st tbl0); cbn; lia.
Qed.

Lemma not_full_count_length st tbls : not_full_count st tbls <= length tbls.
Proof.
  unfold not_full_count. induction tbls as [|tbl rest IH]; cbn; [done|].
  destruct (not_full_b st tbl); cbn; lia.
Qed.

Lemma eq_items_loop_body_Ret sl items st ex items' st' :
  eq_items_loop_body sl items st = Ret (ex, items') st' ->
  state_le st st' /\ length items' <= length items /\
  (ex = true ->
   length items' < length items \/
   not_full_count st' (leaf_tables sl) < not_full_count st (leaf_tables sl)).
Proof.
  intros H.
  split; [exact (grows_Ret _ _ _ _ (grows_eq_items_loop_body sl items) H)|].
  unfold eq_items_loop_body in H.
  apply bind_Ret in H as ([ex1 items1] & st1 & Hr & H).
  apply eq_items_round_Ret in Hr as (Hle1 & Hsub & _ & _ & Hex & _).
  apply sublist_length in Hsub.
  destruct (negb ex1 || bool_decide (items1 = [])) eqn:Hc.
  - apply bind_Ret in H as (keys & st2 & Hk & H). injection H as <- <- <-.
    split; [done|]. intros E.
    apply check_allowed_unique_keys_from_Ret in Hk
      as (Hle2 & _ & _ & Htrue).
    destruct keys.
    + destruct (Htrue eq_refl) as [?|(tbl & t & Hin & Ht & Hf)]; [done|].
      right. eapply Nat.lt_le_trans;
        [eapply not_full_count_lt; eauto | by apply not_full_count_le].
    + subst. left. destruct (Hex eq_refl); [done | lia].
  - injection H as <- <- <-. split; [done|]. intros ->. left.
    destruct (Hex eq_refl); [done | lia].
Qed.

Lemma eq_items_loop_fuel fuel sl ex items st :
  length items + not_full_count st (leaf_tables sl) < fuel ->
  match eq_items_loop fuel sl ex items st with
  | Ret _ st' => state_le st st'
  | Undef => True
  | NoFuel => False
  end.
Proof.
  revert ex items st. induction fuel as [|fuel IH]; intros ex items st Hm;
    [lia|].
  cbn. destruct (ex && negb (bool_decide (items = []))); cbn;
    [|apply state_le_refl].
  unfold bind.
  pose proof (grows_eq_items_loop_body sl items st) as Hg.
  destruct (eq_items_loop_body sl items st) as [[ex' items'] st1| |] eqn:Hb;
    [|done|done].
  apply eq_items_loop_body_Ret in Hb as (Hle & Hlen & Hex).
  pose proof (not_full_count_le _ _ (leaf_tables sl) Hle) as Hcnt.
  destruct ex'.
  - specialize (IH true items' st1).
    destruct (eq_items_loop fuel sl true items' st1).
    + eapply state_le_trans; [exact Hle|]. apply IH.
      destruct (Hex eq_refl); lia.
    + done.
    + apply IH. destruct (Hex eq_refl); lia.
  - destruct fuel; cbn; done.
Qed.

Lemma eq_items_loop_more_fuel fuel fuel' sl ex items st :
  fuel <= fuel' -> eq_items_loop fuel sl ex items st <> NoFuel ->
  eq_items_loop fuel' sl ex items st = eq_items_loop fuel sl ex items st.
Proof.
  revert fuel' ex items st.
  induction fuel as [|fuel IH]; intros fuel' ex items st Hle Hn.
  - destruct fuel'; [done|]. cbn in *.
    by destruct (ex && negb (bool_decide (items = []))).
  - destruct fuel' as [|fuel']; [lia|]. cbn in *.
    destruct (ex && negb (bool_decide (items = []))); [|done].
    unfold bind in *.
    destruct (eq_items_loop_body sl items st) as [[ex' items'] st1| |];
      [|done|done].
    apply IH; [lia | done].
Qed.

Lemma grows_eq_items_loop sl ex items :
  grows (eq_items_loop (rounds_bound sl items) sl ex items).
Proof.
  intros st. apply eq_items_loop_fuel. unfold rounds_bound.
  pose proof (not_full_count_length st (leaf_tables sl)). lia.
Qed.

#[local] Hint Resolve grows_eq_items_loop : grows.

Lemma grows_check_where_and_get_new_dependencies sl md :
  grows (check_where_and_get_new_dependencies sl md).
Proof. unfold check_where_and_get_new_dependencies. grows_tac. Qed.

#[local] Hint Resolve grows_check_where_and_get_new_dependencies : grows.

Lemma grows_check_func_dep_closure sl md : grows (check_func_dep_closure sl md).
Proof. unfold check_func_dep_closure. grows_tac. Qed.

#[local] Hint Resolve grows_check_func_dep_closure : grows.

Lemma grows_check_func_dep_cleared sl md : grows (check_func_dep_cleared sl md).
Proof. unfold check_func_dep_cleared. grows_tac. Qed.

(** ** Key Closure returns on well-formed metadata *)

Lemma field_valid_le st st' fld :
  state_le st st' -> field_valid st fld -> field_valid st' fld.
Proof.
  intros Hle (T & HT & Hlt).
  destruct (state_le_lookup _ _ _ _ Hle HT) as (T' & HT' & _ & _ & _ & HL & _).
  exists T'. split; [done | lia].
Qed.

Lemma table_wf_le st st' T T' :
  state_le st st' -> table_le T T' -> table_wf st T -> table_wf st' T'.
Proof.
  intros Hle (HK & HP & _) [Hpk Hkeys]. split; rewrite ?HP, HK; [done|].
  eapply Forall_impl; [exact Hkeys|]. intros k Hk.
  eapply Forall_impl; [exact Hk|]. intros. by eapply field_valid_le.
Qed.

Lemma leaf_tables_wf_le st st' tbls :
  state_le st st' -> leaf_tables_wf st tbls -> leaf_tables_wf st' tbls.
Proof.
  intros Hle Hwf. eapply Forall_impl; [exact Hwf|].
  intros tbl H t Ht. destruct (H t Ht) as (T & HT & HW).
  destruct (state_le_lookup _ _ _ _ Hle HT) as (T' & HT' & HTle).
  eauto using table_wf_le.
Qed.

Lemma are_key_parts_allowed_defined parts st :
  Forall (field_valid st) parts ->
  exists b, are_key_parts_allowed parts st = Ret b st.
Proof.
  induction 1 as [|fld rest (T & HT & Hlt) Hall [b IH]]; cbn; [by eexists|].
  unfold bind, Field_excl_func_dep_on_grouping_fields, bind, get_table.
  rewrite HT. unfold bitmap_is_set.
  destruct (lookup_lt_is_Some_2 _ _ Hlt) as [v ->]. cbn.
  destruct v; eauto.
Qed.

Lemma tmp_set_all_defined t st T :
  tables st !! t = Some T -> tmp_set_all t st = Ret tt (mark_table st t T).
Proof. intros HT. apply tmp_set_all_Ret. eauto. Qed.

Lemma unique_keys_scan_defined t keys st T :
  tables st !! t = Some T ->
  Forall (fun k => Forall (field_valid st) (key_part k)) keys ->
  exists b st', unique_keys_scan t keys st = Ret b st'.
Proof.
  intros HT. induction 1 as [|k rest Hk Hall (b & st' & IH)]; cbn;
    [by do 2 eexists|].
  destruct (Z.land (flags k) HA_NOSAME =? 0)%Z; [eauto|].
  unfold bind, are_key_fields_allowed.
  destruct (are_key_parts_allowed_defined _ _ Hk) as [ok ->].
  destruct ok; [|eauto]. rewrite (tmp_set_all_defined _ _ _ HT). eauto.
Qed.

Lemma check_table_keys_defined tbl st :
  (forall t, tl_table tbl = Some t ->
     exists T, tables st !! t = Some T /\ table_wf st T) ->
  exists e st', check_table_keys tbl st = Ret e st'.
Proof.
  unfold check_table_keys. intros H.
  destruct (tl_table tbl) as [t|]; [|by do 2 eexists].
  destruct (H t eq_refl) as (T & HT & Hpk & Hkeys).
  unfold bind at 1, get_table. rewrite HT.
  destruct (bitmap_is_set_all (tmp_set T)); [by do 2 eexists|].
  unfold bind at 1.
  assert (exists p, (if decide (primary_key T < MAX_KEY)
            then let* pk := deref (key_info T !! primary_key T)
                 in are_key_fields_allowed pk
            else ret false) st = Ret p st) as [p ->].
  { case_decide as Hlt; [|by eexists].
    destruct (lookup_lt_is_Some_2 _ _ (Hpk Hlt)) as [pk Epk].
    rewrite Epk. unfold bind, deref, ret, are_key_fields_allowed.
    apply are_key_parts_allowed_defined.
    rewrite Forall_forall in Hkeys. apply Hkeys.
    by eapply list_elem_of_lookup_2. }
  destruct p.
  - unfold bind. rewrite (tmp_set_all_defined _ _ _ HT). eauto.
  - by eapply unique_keys_scan_defined.
Qed.

Lemma check_allowed_unique_keys_from_defined tbls fe st :
  leaf_tables_wf st tbls ->
  exists r st', check_allowed_unique_keys_from tbls fe st = Ret r st'.
Proof.
  revert fe st. induction tbls as [|tbl rest IH]; cbn; intros fe st Hwf;
    [by do 2 eexists|].
  inversion Hwf as [|? ? Htbl Hrest]; subst.
  destruct (check_table_keys_defined _ _ Htbl) as (e & st1 & He).
  unfold bind. rewrite He. apply IH.
  eapply leaf_tables_wf_le; [|exact Hrest].
  exact (grows_Ret _ _ _ _ (grows_check_table_keys tbl) He).
Qed.

(** C2. Key Closure correctness: on well-formed table metadata one run of
    Key Closure returns; after it, every leaf table of the block whose
    Allowed-Set was not full and that has a primary key, or else a unique
    key, all of whose columns were allowed has all its columns allowed;
    and the run returns true exactly when the Allowed-Set of some table
    changed. *)
Theorem key_closure_correct sl st :
  leaf_tables_wf st (leaf_tables sl) ->
  exists r st',
    check_allowed_unique_keys sl st = Ret r st' /\
    (forall tbl t T,
        tbl ∈ leaf_tables sl -> tl_table tbl = Some t ->
        tables st !! t = Some T ->
        bitmap_is_set_all (tmp_set T) = false ->
        has_allowed_key st T ->
        table_full st' t) /\
    (r = true <-> allowed_set_changed st st').
Proof.
  intros Hwf.
  destruct (check_allowed_unique_keys_from_defined _ false _ Hwf)
    as (r & st' & Hrun).
  exists r, st'. split; [exact Hrun|].
  apply check_allowed_unique_keys_from_Ret in Hrun
    as (Hle & Hall & Hfalse & Htrue).
  split; [eauto|]. split.
  - intros E. destruct (Htrue E) as [?|(tbl & t & _ & _ & Hf)]; [done|].
    by eapply filled_changed.
  - intros (t & T & T' & HT & HT' & Hne). destruct r; [done|].
    destruct (Hfalse eq_refl) as [_ ->]. congruence.
Qed.

(** ** Statements about the deferred equalities *)

Lemma bind_ret_pair {A B} (m : M (A * B)) st :
  (let* '(a, b) := m in ret (a, b)) st = m st.
Proof. unfold bind. by destruct (m st) as [[a b] st'| |]. Qed.

(** C10. A deferred equality both of whose stored column sets are fully
    allowed is removed from the worklist: processing it leaves the whole
    state, so every Allowed-Set, unchanged, does not change the
    [extracted] flag of the round, and the round goes on as if the entry
    had not been in the list. *)
Theorem satisfied_equality_dropped eq_it rest ex st :
  fields_allowed st (fields_l eq_it) ->
  fields_allowed st (fields_r eq_it) ->
  process_eq_it eq_it ex st = Ret (ex, true) st /\
  eq_items_round (eq_it :: rest) ex st = eq_items_round rest ex st.
Proof.
  intros HL HR.
  assert (process_eq_it eq_it ex st = Ret (ex, true) st) as Hp.
  { unfold process_eq_it, bind.
    rewrite (fields_dep_allowed _ _ HL), (fields_dep_allowed _ _ HR). cbn.
    by rewrite orb_false_r. }
  split; [exact Hp|].
  cbn. unfold bind at 1. rewrite Hp. apply bind_ret_pair.
Qed.

(** C5 (as the code has it). In a round every deferred equality has its
    stored column sets evaluated against the Allowed-Sets of the moment.
    With neither side satisfied the entry stays in the worklist and
    nothing changes; with both sides satisfied it is removed and nothing
    changes; with exactly one side satisfied extraction is attempted with
    that side as the dependent part and the entry is removed whatever the
    attempt gives.  So the worklist after the round is a sublist of the
    one before, made of entries neither side of which was satisfied, and
    it is empty when every entry had a satisfied side. *)
Theorem deferred_equality_round items ex st ex' items' st' :
  eq_items_round items ex st = Ret (ex', items') st' ->
  (sublist items' items /\
   Forall (fun e => ~ fields_allowed st (fields_l e) /\
                    ~ fields_allowed st (fields_r e)) items' /\
   ((forall e, e ∈ items ->
       fields_allowed st (fields_l e) \/ fields_allowed st (fields_r e)) ->
    items' = [])) /\
  (forall eq_it rest, items = eq_it :: rest ->
     exists ex1 removed st1,
       process_eq_it eq_it ex st = Ret (ex1, removed) st1 /\
       (exists rest', eq_items_round rest ex1 st1 = Ret (ex', rest') st' /\
                      items' = if removed then rest' else eq_it :: rest') /\
       let L := fields_allowed st (fields_l eq_it) in
       let R := fields_allowed st (fields_r eq_it) in
       (~ L /\ ~ R /\ removed = false /\ ex1 = ex /\ st1 = st)
       \/ (L /\ R /\ removed = true /\ ex1 = ex /\ st1 = st)
       \/ (L /\ ~ R /\ removed = true /\
           exists a0 a1 b,
             arguments (equal eq_it) = Some (a0, a1) /\
             extract_new_func_dep_field (equal eq_it) a0 a1 st = Ret b st1 /\
             ex1 = ex || b)
       \/ (~ L /\ R /\ removed = true /\
           exists a0 a1 b,
             arguments (equal eq_it) = Some (a0, a1) /\
             extract_new_func_dep_field (equal eq_it) a1 a0 st = Ret b st1 /\
             ex1 = ex || b)).
Proof.
  intros H. split.
  - apply eq_items_round_Ret in H as (_ & Hsub & Hun & _ & _ & Hall). auto.
  - intros eq_it rest ->. cbn in H.
    apply bind_Ret in H as ([ex1 removed] & st1 & Hp & H).
    apply bind_Ret in H as ([ex2 rest'] & st2 & Hr & H).
    injection H as <- <- <-.
    exists ex1, removed, st1. split; [exact Hp|]. split; [eauto|].
    by apply process_eq_it_Ret.
Qed.

Lemma clear_and_collect_halts tbls md st :
  clear_and_collect tbls md st <> NoFuel.
Proof.
  revert md st. induction tbls as [|tbl rest IH]; cbn; intros md st; [done|].
  destruct (tl_table tbl) as [t|]; [|apply IH].
  unfold bind at 1, get_table. destruct (tables st !! t) as [T|] eqn:HT;
    [|done].
  unfold bind at 1, put_tmp_set. rewrite HT.
  destruct (materialized_derived tbl); apply IH.
Qed.

Lemma check_func_dep_halts sl st : check_func_dep sl st <> NoFuel.
Proof.
  unfold check_func_dep. unfold bind at 1.
  destruct (join sl) as [j|]; [|done]. cbn [deref ret].
  destruct (_ || _); [done|]. unfold bind.
  pose proof (clear_and_collect_halts (leaf_tables sl) [] st) as Hc.
  destruct (clear_and_collect (leaf_tables sl) [] st) as [md st0| |];
    [|done|done].
  intros E. pose proof (grows_check_func_dep_cleared sl md st0) as H.
  by rewrite E in H.
Qed.


(** ** Error reporting *)

Lemma quiet_Ret {A} (m : M A) st a st' :
  quiet m -> m st = Ret a st' -> errors st' = errors st.
Proof. intros H E. specialize (H st). by rewrite E in H. Qed.

Lemma reads_quiet {A} (m : M A) : reads m -> quiet m.
Proof.
  intros H st. specialize (H st). destruct (m st); try done. by subst.
Qed.

Lemma quiet_ret {A} (a : A) : quiet (ret a).
Proof. by intros st. Qed.

Lemma quiet_bind {A B} (m : M A) (k : A -> M B) :
  quiet m -> (forall a, quiet (k a)) -> quiet (bind m k).
Proof.
  intros Hm Hk st. unfold bind. specialize (Hm st).
  destruct (m st) as [a st1| |]; try done.
  specialize (Hk a st1). destruct (k a st1); try done. congruence.
Qed.

Lemma quiet_tmp_set_all t : quiet (tmp_set_all t).
Proof.
  intros st. destruct (tmp_set_all t st) as [u st'| |] eqn:E; [|done..].
  by apply tmp_set_all_Ret in E as (T & _ & ->).
Qed.

Lemma quiet_tmp_set_bit t bit : quiet (tmp_set_bit t bit).
Proof.
  intros st. destruct (tmp_set_bit t bit st) as [u st'| |] eqn:E; [|done..].
  by apply tmp_set_bit_Ret in E as (T & _ & _ & ->).
Qed.

Lemma quiet_walk_set_subquery_ctx it ctx :
  quiet (walk_set_subquery_ctx it ctx).
Proof. by intros st. Qed.

Create HintDb quiet.
#[local] Hint Resolve reads_quiet reads_ret reads_deref reads_get_table
  quiet_ret quiet_tmp_set_all quiet_tmp_set_bit quiet_walk_set_subquery_ctx
  reads_Field_excl reads_excl_func_dep_on_grouping_fields
  reads_excl_func_dep_from_equalities reads_are_key_parts_allowed
  reads_fields_dep : quiet.

Ltac quiet_tac :=
  repeat first
    [ solve [eauto with quiet]
    | match goal with
      | |- quiet (bind _ _) => apply quiet_bind; [|intros]
      | |- quiet (if ?b then _ else _) => destruct b
      | |- quiet (match ?x with _ => _ end) => destruct x
      end ].

Lemma quiet_unique_keys_scan t keys : quiet (unique_keys_scan t keys).
Proof. induction keys; cbn; unfold are_key_fields_allowed; quiet_tac. Qed.

#[local] Hint Resolve quiet_unique_keys_scan : quiet.

Lemma quiet_check_table_keys tbl : quiet (check_table_keys tbl).
Proof. unfold check_table_keys, are_key_fields_allowed. quiet_tac. Qed.

#[local] Hint Resolve quiet_check_table_keys : quiet.

Lemma quiet_check_allowed_unique_keys_from tbls fe :
  quiet (check_allowed_unique_keys_from tbls fe).
Proof. revert fe. induction tbls; intros; cbn; quiet_tac. Qed.

Lemma quiet_check_allowed_unique_keys sl : quiet (check_allowed_unique_keys sl).
Proof. apply quiet_check_allowed_unique_keys_from. Qed.

#[local] Hint Resolve quiet_check_allowed_unique_keys : quiet.

Lemma quiet_mat_derived_scan l : quiet (mat_derived_scan l).
Proof. induction l; cbn; quiet_tac. Qed.

#[local] Hint Resolve quiet_mat_derived_scan : quiet.

Lemma quiet_check_allowed_materialized_derived md :
  quiet (check_allowed_materialized_derived md).
Proof. unfold check_allowed_materialized_derived. quiet_tac. Qed.

Lemma quiet_collect_gb_scan ords gb : quiet (collect_gb_scan ords gb).
Proof. revert gb. induction ords; intros; cbn; quiet_tac. Qed.

#[local] Hint Resolve quiet_check_allowed_materialized_derived
  quiet_collect_gb_scan : quiet.

Lemma quiet_collect_gb_fields sl md gb : quiet (collect_gb_fields sl md gb).
Proof. unfold collect_gb_fields. quiet_tac. Qed.

Lemma quiet_set_select_list_context items :
  quiet (set_select_list_context items).
Proof. induction items; cbn; quiet_tac. Qed.

#[local] Hint Resolve quiet_set_select_list_context : quiet.

Lemma quiet_set_subqueries_context sl : quiet (set_subqueries_context sl).
Proof. unfold set_subqueries_context, set_clause_context. quiet_tac. Qed.

Lemma quiet_extract_new_func_dep_field eq dp nd :
  quiet (extract_new_func_dep_field eq dp nd).
Proof. unfold extract_new_func_dep_field. quiet_tac. Qed.

#[local] Hint Resolve quiet_extract_new_func_dep_field : quiet.

Lemma quiet_process_eq_it eq_it ex : quiet (process_eq_it eq_it ex).
Proof. unfold process_eq_it. quiet_tac. Qed.

#[local] Hint Resolve quiet_process_eq_it : quiet.

Lemma quiet_eq_items_round items ex : quiet (eq_items_round items ex).
Proof. revert ex. induction items; intros; cbn; quiet_tac. Qed.

#[local] Hint Resolve quiet_eq_items_round : quiet.

Lemma quiet_eq_items_loop_body sl items : quiet (eq_items_loop_body sl items).
Proof. unfold eq_items_loop_body. quiet_tac. Qed.

#[local] Hint Resolve quiet_eq_items_loop_body : quiet.

Lemma quiet_eq_items_loop fuel sl ex items :
  quiet (eq_items_loop fuel sl ex items).
Proof.
  revert ex items. induction fuel; intros; cbn; quiet_tac.
  by intros st.
Qed.

Lemma quiet_set_all_tables tbls : quiet (set_all_tables tbls).
Proof. induction tbls; cbn; quiet_tac. Qed.

#[local] Hint Resolve quiet_eq_items_loop quiet_set_all_tables
  quiet_collect_gb_fields quiet_set_subqueries_context : quiet.

Lemma quiet_set_update_table_fields sl : quiet (set_update_table_fields sl).
Proof. unfold set_update_table_fields. quiet_tac. Qed.

Lemma quiet_clear_and_collect tbls md : quiet (clear_and_collect tbls md).
Proof.
  revert md. induction tbls as [|tbl rest IH]; intros; cbn; quiet_tac.
  all: intros st; destruct (put_tmp_set _ _ st) as [u st'| |] eqn:E;
    [|done..]; by apply put_tmp_set_Ret in E as (T & _ & ->).
Qed.

#[local] Hint Resolve quiet_set_update_table_fields quiet_clear_and_collect
  : quiet.

Lemma report_non_grouping_field_Ret w place st u st' :
  report_non_grouping_field w place st = Ret u st' ->
  exists it, w = Some it /\
    errors st' = errors st
                 ++ [mkDiag ER_NON_GROUPING_FIELD_USED
                            (full_name (real_item it)) place] /\
    tables st' = tables st.
Proof.
  unfold report_non_grouping_field. intros H.
  apply bind_Ret in H as (it & st1 & Hd & H).
  apply deref_Ret in Hd as [-> ->]. injection H as <- <-. by exists it.
Qed.

Lemma raised_intro st st' name place :
  errors st' = errors st
               ++ [mkDiag ER_NON_GROUPING_FIELD_USED name place] ->
  place ∈ clause_names -> raised st st'.
Proof. intros. by exists name, place. Qed.

Lemma raised_quiet_l st st1 st' :
  errors st1 = errors st -> raised st1 st' -> raised st st'.
Proof. intros E (n & p & H & Hp). exists n, p. by rewrite <- E. Qed.

Lemma raised_quiet_r st st1 st' :
  raised st st1 -> errors st' = errors st1 -> raised st st'.
Proof. intros (n & p & H & Hp) E. exists n, p. by rewrite E. Qed.

Lemma reports_select_list_scan sl gb items :
  reports negb (select_list_scan sl gb items).
Proof.
  clear Item_excl_func_dep_from_equalities.
  induction items as [|it rest IH]; cbn; intros st a st' H.
  - injection H as <- <-. done.
  - apply bind_Ret in H as ([ok w] & st1 & Ho & H).
    injection Ho as Ho <-. destruct ok; [by apply IH|].
    apply bind_Ret in H as (u & st1 & Hr & H). injection H as <- <-.
    apply report_non_grouping_field_Ret in Hr as (w' & _ & Hr & _).
    eapply raised_intro; [exact Hr|]. set_solver.
Qed.

Lemma reports_are_having_fields_allowed sl h gb :
  reports negb (are_having_fields_allowed sl h gb).
Proof.
  clear Item_excl_func_dep_from_equalities.
  unfold are_having_fields_allowed. intros st a st' H.
  destruct h as [h|]; [|by injection H as <- <-].
  apply bind_Ret in H as ([ok w] & st1 & Ho & H).
  injection Ho as Ho <-. destruct ok; [by injection H as <- <-|].
  apply bind_Ret in H as (u & st1 & Hr & H). injection H as <- <-.
  apply report_non_grouping_field_Ret in Hr as (w' & _ & Hr & _).
  eapply raised_intro; [exact Hr|]. set_solver.
Qed.

Lemma reports_where_clause_exit w eqs :
  reports fst (where_clause_exit w eqs).
Proof.
  clear Item_excl_func_dep_on_grouping_fields.
  clear Item_excl_func_dep_from_equalities.
  unfold where_clause_exit. intros st a st' H.
  destruct w as [w|]; [|by injection H as <- <-].
  apply bind_Ret in H as (u & st1 & Hr & H). injection H as <- <-.
  apply report_non_grouping_field_Ret in Hr as (w' & _ & Hr & _).
  eapply raised_intro; [exact Hr|]. set_solver.
Qed.

Lemma reports_check_equality_on_new_func_dep eq sl eqs :
  reports fst (check_equality_on_new_func_dep eq sl eqs).
Proof.
  unfold check_equality_on_new_func_dep. intros st a st' H.
  apply bind_Ret in H as (j & st1 & Hj & H).
  apply deref_Ret in Hj as [_ ->].
  apply bind_Ret in H as ([item_l item_r] & st1 & Ha & H).
  apply deref_Ret in Ha as [_ ->].
  destruct (_ || _); [by injection H as <- <-|].
  apply bind_Ret in H as ([[dep_l w] fl] & st1 & Ho & H).
  injection Ho as Ho <-.
  destruct (_ && _); [by eapply reports_where_clause_exit|].
  apply bind_Ret in H as ([[dep_r w'] fr] & st1 & Ho' & H).
  injection Ho' as Ho' <-.
  destruct (_ || _); [by eapply reports_where_clause_exit|].
  destruct (_ && _); [by injection H as <- <-|].
  destruct dep_l; [|destruct dep_r].
  - apply bind_Ret in H as (b & st1 & He & H). injection H as <- <-.
    exact (quiet_Ret _ _ _ _ (quiet_extract_new_func_dep_field _ _ _) He).
  - apply bind_Ret in H as (b & st1 & He & H). injection H as <- <-.
    exact (quiet_Ret _ _ _ _ (quiet_extract_new_func_dep_field _ _ _) He).
  - by injection H as <- <-.
Qed.

Lemma reports_check_other_condition it sl w :
  reports fst (check_other_condition it sl w).
Proof.
  clear Item_excl_func_dep_on_grouping_fields.
  unfold check_other_condition. intros st a st' H.
  apply bind_Ret in H as ([[ok w'] fl] & st1 & Ho & H).
  injection Ho as Ho <-.
  destruct (negb ok); [|by injection H as <- <-].
  destruct w' as [w'|]; [|by injection H as <- <-].
  apply bind_Ret in H as (u & st1 & Hr & H). injection H as <- <-.
  apply report_non_grouping_field_Ret in Hr as (w'' & _ & Hr & _).
  eapply raised_intro; [exact Hr|]. set_solver.
Qed.

Lemma reports_check_equality_condition it sl w :
  reports fst (check_equality_condition it sl w).
Proof.
  unfold check_equality_condition. intros st a st' H.
  apply bind_Ret in H as ([err eqs] & st1 & He & H). injection H as <- <-.
  exact (reports_check_equality_on_new_func_dep _ _ _ _ _ _ He).
Qed.

Lemma reports_and_arguments_scan args sl w :
  reports fst (and_arguments_scan args sl w).
Proof.
  revert w. induction args as [|it rest IH]; cbn; intros w st a st' H.
  - by injection H as <- <-.
  - apply bind_Ret in H as ([err w'] & st1 & Hc & H).
    assert (if err then raised st st1 else errors st1 = errors st) as Hc'.
    { destruct (_ && _).
      - exact (reports_check_equality_condition _ _ _ _ _ _ Hc).
      - exact (reports_check_other_condition _ _ _ _ _ _ Hc). }
    destruct err; [by injection H as <- <-|].
    specialize (IH _ _ _ _ H). destruct (fst a).
    + by eapply raised_quiet_l.
    + congruence.
Qed.

Lemma reports_traverse_where cond sl : reports fst (traverse_where cond sl).
Proof.
  unfold traverse_where. intros st a st' H.
  destruct (_ && _).
  - apply bind_Ret in H as (args & st1 & Hd & H).
    apply deref_Ret in Hd as [_ ->].
    exact (reports_and_arguments_scan _ _ _ _ _ _ H).
  - destruct (_ && _).
    + exact (reports_check_equality_condition _ _ _ _ _ _ H).
    + exact (reports_check_other_condition _ _ _ _ _ _ H).
Qed.

Lemma reports_check_where_and_get_new_dependencies sl md :
  reports id (check_where_and_get_new_dependencies sl md).
Proof.
  unfold check_where_and_get_new_dependencies. intros st a st' H.
  apply bind_Ret in H as (j & st1 & Hj & H).
  apply deref_Ret in Hj as [_ ->].
  destruct (conds j) as [cond|]; [|by injection H as <- <-].
  apply bind_Ret in H as ([err w] & st1 & Ht & H).
  apply reports_traverse_where in Ht. cbn in Ht.
  destruct err; [by injection H as <- <-|].
  destruct (bool_decide _).
  - apply bind_Ret in H as (k & st2 & Hk & H). injection H as <- <-. cbn.
    rewrite (quiet_Ret _ _ _ _ (quiet_check_allowed_unique_keys _) Hk).
    done.
  - destruct (_ =? _); [by injection H as <- <-|].
    apply bind_Ret in H as (k & st2 & Hk & H). injection H as <- <-. cbn.
    rewrite (quiet_Ret _ _ _ _ (quiet_eq_items_loop _ _ _ _) Hk). done.
Qed.

Lemma reports_check_func_dep_closure sl md :
  reports id (check_func_dep_closure sl md).
Proof.
  unfold check_func_dep_closure. intros st a st' H.
  apply bind_Ret in H as ([[err md'] gb] & st1 & Hc & H).
  pose proof (quiet_Ret _ _ _ _ (quiet_collect_gb_fields _ _ _) Hc) as E1.
  assert (err = false) as ->.
  { unfold collect_gb_fields in Hc.
    apply bind_Ret in Hc as (j & st0 & _ & Hc).
    destruct (group_list sl); [by injection Hc|].
    apply bind_Ret in Hc as (? & ? & _ & Hc).
    apply bind_Ret in Hc as (? & ? & _ & Hc).
    apply bind_Ret in Hc as ([? ?] & ? & _ & Hc). by injection Hc. }
  apply bind_Ret in H as (err & st2 & Hw & H).
  apply reports_check_where_and_get_new_dependencies in Hw. unfold id in Hw.
  destruct err.
  { injection H as <- <-. by eapply raised_quiet_l. }
  apply bind_Ret in H as (ok & st3 & Hs & H).
  apply reports_select_list_scan in Hs.
  destruct ok; cbn in *.
  2: { injection H as <- <-. eapply raised_quiet_l; [|exact Hs].
       congruence. }
  apply bind_Ret in H as (j & st4 & Hj & H).
  apply deref_Ret in Hj as [_ ->].
  apply bind_Ret in H as (ok & st4 & Hh & H).
  apply reports_are_having_fields_allowed in Hh.
  destruct ok; cbn in *; injection H as <- <-.
  - congruence.
  - eapply raised_quiet_l; [|exact Hh]. congruence.
Qed.

Lemma reports_check_func_dep_cleared sl md :
  reports id (check_func_dep_cleared sl md).
Proof.
  unfold check_func_dep_cleared. intros st a st' H.
  apply bind_Ret in H as (u & st1 & Hu & H).
  pose proof (quiet_Ret _ _ _ _ (quiet_set_update_table_fields _) Hu) as E1.
  apply bind_Ret in H as (u' & st2 & Hs & H).
  pose proof (quiet_Ret _ _ _ _ (quiet_set_subqueries_context _) Hs) as E2.
  assert (errors st2 = errors st) as E by congruence.
  destruct (_ && _).
  - apply bind_Ret in H as (u'' & st3 & Ha & H).
    pose proof (quiet_Ret _ _ _ _ (quiet_set_all_tables _) Ha) as E3.
    destruct (negb _).
    + injection H as <- <-. cbn. congruence.
    + apply reports_check_func_dep_closure in H. unfold id in *.
      destruct a; [eapply raised_quiet_l; [|exact H]|]; congruence.
  - apply reports_check_func_dep_closure in H. unfold id in *.
    destruct a; [eapply raised_quiet_l; [|exact H]|]; congruence.
Qed.

Lemma reports_check_func_dep sl : reports id (check_func_dep sl).
Proof.
  unfold check_func_dep. intros st a st' H.
  apply bind_Ret in H as (j & st1 & Hj & H).
  apply deref_Ret in Hj as [_ ->].
  destruct (_ || _); [by injection H as <- <-|].
  apply bind_Ret in H as (md & st1 & Hc & H).
  pose proof (quiet_Ret _ _ _ _ (quiet_clear_and_collect _ _) Hc) as E1.
  apply reports_check_func_dep_cleared in H. unfold id in *.
  destruct a; [eapply raised_quiet_l; [|exact H]|]; congruence.
Qed.

Lemma select_list_scan_first_violation sl gb pre it post st w :
  Forall (fun x =>
            fst (Item_excl_func_dep_on_grouping_fields st sl gb x None)
            = true) pre ->
  Item_excl_func_dep_on_grouping_fields st sl gb it None = (false, Some w) ->
  select_list_scan sl gb (pre ++ it :: post) st
  = Ret false (with_error st w "SELECT list").
Proof.
  intros Hpre Hit. induction Hpre as [|x pre Hx Hpre IH]; cbn.
  - unfold bind at 1, excl_func_dep_on_grouping_fields. by rewrite Hit.
  - unfold bind at 1, excl_func_dep_on_grouping_fields.
    destruct (Item_excl_func_dep_on_grouping_fields st sl gb x None)
      as [ok w']. cbn in Hx. subst ok. exact IH.
Qed.

(** C3. Monotonicity.  Every operation of the analyzer only adds to the
    Allowed-Sets: a run of it that returns leaves every table in place
    with an Allowed-Set of the same size in which every bit that was set
    is still set; runs with that property compose; and the whole
    analysis of a block, once it has cleared the Allowed-Sets of the
    tables of the block, is such a run, so that a column allowed at any
    point after the clearing is allowed when the analysis ends. *)
Theorem allowed_sets_grow :
  (forall A B (m : M A) (k : A -> M B),
      grows m -> (forall a, grows (k a)) -> grows (bind m k)) /\
  (forall st st' fld,
      state_le st st' -> field_allowed st fld -> field_allowed st' fld) /\
  (forall eq dp nd, grows (extract_new_func_dep_field eq dp nd)) /\
  (forall sl, grows (check_allowed_unique_keys sl)) /\
  (forall md, grows (check_allowed_materialized_derived md)) /\
  (forall sl md gb, grows (collect_gb_fields sl md gb)) /\
  (forall eq sl eqs, grows (check_equality_on_new_func_dep eq sl eqs)) /\
  (forall sl items, grows (eq_items_loop_body sl items)) /\
  (forall sl md, grows (check_where_and_get_new_dependencies sl md)) /\
  (forall sl, grows (set_update_table_fields sl)) /\
  (forall sl, grows (set_subqueries_context sl)) /\
  (forall tbls, grows (set_all_tables tbls)) /\
  (forall sl gb, grows (are_select_list_fields_allowed sl gb)) /\
  (forall sl h gb, grows (are_having_fields_allowed sl h gb)) /\
  (forall sl md, grows (check_func_dep_cleared sl md)) /\
  (forall sl st r st',
      check_func_dep sl st = Ret r st' ->
      st' = st \/
      exists md st0,
        clear_and_collect (leaf_tables sl) [] st = Ret md st0 /\
        check_func_dep_cleared sl md st0 = Ret r st' /\
        state_le st0 st').
Proof.
  repeat lazymatch goal with |- _ /\ _ => split end;
    eauto using @grows_bind, field_allowed_le,
      grows_check_allowed_materialized_derived, grows_eq_items_loop_body,
      grows_set_all_tables, grows_check_func_dep_cleared with grows.
  intros sl st r st' H. unfold check_func_dep in H.
  apply bind_Ret in H as (j & st1 & Hj & H).
  apply deref_Ret in Hj as [_ ->].
  destruct (_ || _); [left; by injection H|].
  apply bind_Ret in H as (md & st0 & Hc & H). right. exists md, st0.
  do 2 (split; [done|]).
  exact (grows_Ret _ _ _ _ (grows_check_func_dep_cleared sl md) H).
Qed.

(** C1 (where the code departs from it).  When the candidate part is a
    reference that resolves to a column and the comparison types agree,
    the code reads the [field] member of the reference object itself
    instead of the one of the column it resolves to: the run has no
    defined result, and no column is marked. *)
Theorem extract_through_reference_undefined eq dp name ref cmp st :
  type (real_item (Item_ref name ref)) = FIELD_ITEM ->
  compare_type_handler eq = Some cmp ->
  type_handler_for_comparison dp = cmp ->
  extract_new_func_dep_field eq dp (Item_ref name ref) st = Undef.
Proof.
  intros Hf Hc Hd. unfold extract_new_func_dep_field.
  rewrite bool_decide_eq_true_2 by done. cbn [negb].
  rewrite Hc. unfold bind at 1. cbn [deref ret].
  by rewrite bool_decide_eq_true_2.
Qed.

(** What [extract_new_func_dep_field] does with a candidate that is a
    column item: the column is marked, together with its whole table when
    that is a materialized derived table, exactly when it was not allowed
    and the comparison types agree. *)
Lemma extract_new_func_dep_field_column eq dp name fld th cmp T st :
  compare_type_handler eq = Some cmp ->
  tables st !! table fld = Some T ->
  field_index fld < length (tmp_set T) ->
  extract_new_func_dep_field eq dp (Item_field name fld th) st
  = if bool_decide (type_handler_for_comparison dp = cmp)
       && negb (default false (tmp_set T !! field_index fld))
    then Ret true (extracted_state st fld T)
    else Ret false st.
Proof.
  intros Hc HT Hlt. unfold extract_new_func_dep_field. cbn [real_item type].
  rewrite bool_decide_eq_true_2 by done. cbn [negb].
  rewrite Hc. unfold bind at 1. cbn [deref ret].
  case_bool_decide as Hth; cbn [negb andb]; [|done].
  unfold bind at 1. cbn [Item_field_field deref ret].
  unfold bind at 1, get_table. rewrite HT.
  unfold bind at 1, bitmap_is_set.
  destruct (lookup_lt_is_Some_2 _ _ Hlt) as [v Hv]. rewrite Hv.
  cbn [deref ret default]. destruct v; cbn [negb]; [done|].
  unfold bind at 1.
  assert (tmp_set_bit (table fld) (field_index fld) st
          = Ret tt (mkState (<[table fld := with_tmp_set T
                                 (<[field_index fld := true]> (tmp_set T))]>
                               (tables st)) (errors st) (subquery_ctx st)))
    as ->.
  { apply tmp_set_bit_Ret. eauto. }
  unfold extracted_state.
  destruct (materialized_derived (pos_in_table_list T)); [|done].
  unfold bind. rewrite (tmp_set_all_defined _ _
    (with_tmp_set T (<[field_index fld := true]> (tmp_set T)))); [done|].
  cbn. apply lookup_insert_eq.
Qed.

(** The guard on the arguments themselves: an equality one side of which
    is itself a function item flagged non-deterministic is skipped: no
    error is raised, the state is left as it is, so that no column
    becomes allowed, and the equality is not deferred either. *)
Lemma non_deterministic_equality_skipped eq_item item_l item_r sl eqs st :
  is_Some (join sl) ->
  arguments eq_item = Some (item_l, item_r) ->
  is_non_deterministic_func item_l = true \/
  is_non_deterministic_func item_r = true ->
  check_equality_on_new_func_dep eq_item sl eqs st = Ret (false, eqs) st.
Proof.
  intros [j Hj] Ha Hnd. unfold check_equality_on_new_func_dep.
  rewrite Hj, Ha. unfold bind. cbn.
  destruct Hnd as [-> | ->]; [done|]. by rewrite orb_true_r.
Qed.

(** ** The Group-By Collector *)

Lemma is_column_reference_test it :
  bool_decide (type it = FIELD_ITEM)
  || (bool_decide (type it = REF_ITEM)
      && bool_decide (type (real_item it) = FIELD_ITEM))
  = is_column_reference it.
Proof. unfold is_column_reference. by destruct it. Qed.

Lemma collect_gb_scan_Ret ords gb st gb' st' :
  collect_gb_scan ords gb st = Ret gb' st' ->
  gb' = gb ++ List.filter (fun it => negb (is_column_reference it)) ords /\
  forall it, it ∈ ords -> is_column_reference it = true ->
    exists fld, column_of it = Some fld /\ field_allowed st' fld.
Proof.
  revert gb st. induction ords as [|ord rest IH]; cbn; intros gb st H.
  - injection H as <- <-. split; [by rewrite app_nil_r|].
    intros it Hin. by apply elem_of_nil in Hin.
  - rewrite is_column_reference_test in H.
    destruct (is_column_reference ord) eqn:Hcol; cbn.
    + apply bind_Ret in H as (fld & st1 & Hd & H).
      apply deref_Ret in Hd as [Hd ->].
      apply bind_Ret in H as (u & st1 & Hb & H).
      pose proof (grows_Ret _ _ _ _ (grows_collect_gb_scan rest gb) H)
        as Hle.
      destruct (IH _ _ H) as [-> Hrest]. split; [done|].
      intros it Hin Hc. apply elem_of_cons in Hin as [->|Hin]; [|eauto].
      exists fld. split; [done|]. eapply field_allowed_le; [exact Hle|].
      apply tmp_set_bit_Ret in Hb as (T & HT & Hlt & ->).
      exists (with_tmp_set T (<[field_index fld := true]> (tmp_set T))).
      cbn. rewrite lookup_insert_eq. split; [done|].
      by apply list_lookup_insert_eq.
    + destruct (IH _ _ H) as [-> Hrest]. split; [by rewrite <- app_assoc|].
      intros it Hin Hc. apply elem_of_cons in Hin as [->|Hin]; [|eauto].
      congruence.
Qed.

(** C9 (as the code has it).  On a block with an empty GROUP BY list
    the collector returns at once: it reports no error and hands back
    the state, the list of materialized derived tables and the list of
    non-column grouping expressions as it got them, so that neither
    closure is run.  On a block with a non-empty GROUP BY list the
    collector reports no error; every grouping expression that is a
    column reference, or a reference resolving to one, has its column
    allowed afterwards; the other grouping expressions are appended, in
    order, to the list of non-column grouping expressions; and the final
    state is the one reached by the pass over the GROUP BY list followed
    by one run of Key Closure and then one run of Derived-Table
    Closure. *)
Theorem group_by_collector sl md gb st :
  (group_list sl = [] -> is_Some (join sl) ->
   collect_gb_fields sl md gb st = Ret (false, md, gb) st) /\
  (forall r md' gb' st',
      group_list sl <> [] ->
      collect_gb_fields sl md gb st = Ret (r, md', gb') st' ->
      r = false /\
      (forall it, it ∈ group_list sl -> is_column_reference it = true ->
         exists fld, column_of it = Some fld /\ field_allowed st' fld) /\
      gb' = gb ++ List.filter (fun it => negb (is_column_reference it))
                              (group_list sl) /\
      exists st1 st2 keys derived,
        collect_gb_scan (group_list sl) gb st = Ret gb' st1 /\
        check_allowed_unique_keys sl st1 = Ret keys st2 /\
        check_allowed_materialized_derived md st2
        = Ret (derived, md') st').
Proof.
  split.
  - intros Hgl [j Hj]. unfold collect_gb_fields. rewrite Hj, Hgl. done.
  - intros r md' gb' st' Hne H. unfold collect_gb_fields in H.
    apply bind_Ret in H as (j & st0 & Hj & H).
    apply deref_Ret in Hj as [_ ->].
    destruct (group_list sl) as [|g gl] eqn:Hgl; [done|].
    apply bind_Ret in H as (gb1 & st1 & Hs & H).
    apply bind_Ret in H as (keys & st2 & Hk & H).
    apply bind_Ret in H as ([derived md1] & st3 & Hd & H).
    injection H as <- <- <- <-. split; [done|].
    destruct (collect_gb_scan_Ret _ _ _ _ _ Hs) as [Hgb Hcols].
    split; [|split; [done|]].
    + intros it Hin Hc. destruct (Hcols it Hin Hc) as (fld & Hf & Ha).
      exists fld. split; [done|].
      eapply field_allowed_le; [|exact Ha].
      eapply state_le_trans.
      * exact (grows_Ret _ _ _ _ (grows_check_allowed_unique_keys sl) Hk).
      * exact (grows_Ret _ _ _ _
                 (grows_check_allowed_materialized_derived md) Hd).
    + exists st1, st2, keys, derived. auto.
Qed.

(** ** The trivial pass *)

Lemma same_tables_refl st : same_tables st st.
Proof. by intros t. Qed.

Lemma same_tables_trans st1 st2 st3 :
  same_tables st1 st2 -> same_tables st2 st3 -> same_tables st1 st3.
Proof. intros H1 H2 t. by rewrite (H1 t). Qed.

Lemma state_le_same_tables st st' : state_le st st' -> same_tables st st'.
Proof.
  intros H t. specialize (H t).
  destruct H; split; intros [? ?]; (done || eauto).
Qed.

Lemma tables_opened_same st st' tbls :
  same_tables st st' -> tables_opened st tbls -> tables_opened st' tbls.
Proof.
  intros Hs H. eapply Forall_impl; [exact H|].
  intros tbl (t & Ht & Ho). exists t. split; [done|]. by apply Hs.
Qed.

Lemma clear_and_collect_defined tbls md st :
  tables_opened st tbls ->
  exists md' st', clear_and_collect tbls md st = Ret md' st' /\
                  same_tables st st' /\ errors st' = errors st.
Proof.
  revert md st. induction tbls as [|tbl rest IH]; cbn; intros md st Ho.
  - exists md, st. auto using same_tables_refl.
  - inversion Ho as [|? ? (t & Ht & [T HT]) Hrest]; subst. rewrite Ht.
    unfold bind at 1, get_table. rewrite HT.
    unfold bind at 1, put_tmp_set. rewrite HT.
    set (st1 := mkState _ _ _).
    assert (same_tables st st1) as Hs.
    { intros t'. subst st1. cbn. destruct (decide (t = t')) as [<-|Hne].
      - rewrite lookup_insert_eq, HT. split; eauto.
      - by rewrite lookup_insert_ne. }
    assert (tables_opened st1 rest) as Ho1
      by (by eapply tables_opened_same).
    destruct (materialized_derived tbl);
      [destruct (IH (md ++ [tbl]) st1 Ho1) as (md' & st' & E & Hs' & He)
      |destruct (IH md st1 Ho1) as (md' & st' & E & Hs' & He)];
      exists md', st'; (split; [done|]);
      (split; [by eapply same_tables_trans | done]).
Qed.

Lemma set_all_tables_defined tbls st :
  tables_opened st tbls ->
  exists st', set_all_tables tbls st = Ret tt st' /\ all_full st' tbls.
Proof.
  revert st. induction tbls as [|tbl rest IH]; cbn; intros st Ho.
  - exists st. split; [done|]. intros ? ? Hin. by apply elem_of_nil in Hin.
  - inversion Ho as [|? ? (t & Ht & [T HT]) Hrest]; subst. rewrite Ht.
    unfold bind at 1. cbn [deref ret]. unfold bind at 1.
    rewrite (tmp_set_all_defined _ _ _ HT).
    pose proof (mark_table_le _ _ _ HT) as Hle.
    destruct (IH (mark_table st t T)) as (st' & E & Hfull).
    { eapply tables_opened_same; [|exact Hrest].
      by apply state_le_same_tables. }
    exists st'. split; [done|]. intros tbl' t' Hin Ht'.
    apply elem_of_cons in Hin as [->|Hin]; [|by eapply Hfull].
    assert (t' = t) as -> by congruence.
    eapply table_full_le; [|apply mark_table_full].
    exact (grows_Ret _ _ _ _ (grows_set_all_tables rest) E).
Qed.

Lemma set_select_list_context_defined items st :
  exists st', set_select_list_context items st = Ret tt st' /\
              tables st' = tables st /\ errors st' = errors st.
Proof.
  revert st. induction items as [|it rest IH]; cbn; intros st; [by exists st|].
  unfold bind at 1. destruct (with_subquery it); cbn.
  - destruct (IH (mkState (tables st) (errors st)
       (subquery_ctx st ++ List.map (fun n => (n, SELECT_LIST))
                                    (subselects it))))
      as (st' & E & Ht & He). exists st'. auto.
  - apply IH.
Qed.

Lemma set_clause_context_defined clause ctx st :
  exists st', set_clause_context clause ctx st = Ret tt st' /\
              tables st' = tables st /\ errors st' = errors st.
Proof.
  unfold set_clause_context. destruct clause as [it|]; [|by exists st].
  destruct (with_subquery it); [|by exists st]. by eexists.
Qed.

Lemma set_subqueries_context_defined sl st :
  is_Some (join sl) ->
  exists st', set_subqueries_context sl st = Ret tt st' /\
              tables st' = tables st /\ errors st' = errors st.
Proof.
  intros [j Hj]. unfold set_subqueries_context.
  destruct (set_select_list_context_defined (item_list sl) st)
    as (st1 & E1 & Ht1 & He1).
  unfold bind at 1. rewrite E1, Hj. unfold bind at 1. cbn [deref ret].
  destruct (set_clause_context_defined (conds j) IN_WHERE st1)
    as (st2 & E2 & Ht2 & He2).
  unfold bind at 1. rewrite E2.
  destruct (set_clause_context_defined (join_having j) IN_HAVING st2)
    as (st3 & E3 & Ht3 & He3).
  exists st3. split; [done|]. split; congruence.
Qed.

Lemma set_update_table_fields_defined sl st :
  (forall i o, item (master_unit sl) = Some i ->
     outer_select (master_unit sl) = Some o -> join o = None ->
     tables_opened st (leaf_tables o)) ->
  exists st', set_update_table_fields sl st = Ret tt st'.
Proof.
  intros H. unfold set_update_table_fields.
  destruct (item (master_unit sl)) as [i|]; [|by eexists].
  destruct (outer_select (master_unit sl)) as [o|]; [|by eexists].
  destruct (join o) as [j|] eqn:Hj; [by eexists|].
  destruct (set_all_tables_defined _ _ (H i o eq_refl eq_refl Hj))
    as (st' & E & _). eauto.
Qed.

Lemma all_full_same st st' tbls :
  tables st' = tables st -> all_full st tbls -> all_full st' tbls.
Proof.
  intros E H tbl t Hin Ht. destruct (H tbl t Hin Ht) as (T & HT & Hf).
  exists T. by rewrite E.
Qed.

(** The first steps of [check_func_dep] on a block without GROUP BY and
    HAVING: every Allowed-Set of the block ends full and nothing is
    raised. *)
Lemma check_func_dep_no_group_by sl st :
  is_Some (join sl) ->
  leaf_tables sl <> [] ->
  select_number sl <> UINT_MAX -> select_number sl <> INT_MAX ->
  group_list sl = [] -> having sl = None ->
  tables_opened st (leaf_tables sl) ->
  (forall i o, item (master_unit sl) = Some i ->
     outer_select (master_unit sl) = Some o -> join o = None ->
     tables_opened st (leaf_tables o)) ->
  exists md st1,
    all_full st1 (leaf_tables sl) /\ errors st1 = errors st /\
    check_func_dep sl st
    = (if negb (need_check sl) then ret false
       else check_func_dep_closure sl md) st1.
Proof.
  intros [j Hj] Hleaf Hu Hi Hgl Hh Ho Hup. unfold check_func_dep.
  rewrite Hj. unfold bind at 1. cbn [deref ret].
  rewrite bool_decide_eq_false_2 by done.
  apply Z.eqb_neq in Hu, Hi. rewrite Hu, Hi. cbn [orb].
  destruct (clear_and_collect_defined _ [] _ Ho) as (md & st0 & E0 & Hs0 & He0).
  unfold bind at 1. rewrite E0. unfold check_func_dep_cleared.
  destruct (set_update_table_fields_defined sl st0) as (st1 & E1).
  { intros i o H1 H2 H3. eapply tables_opened_same; [exact Hs0|]. eauto. }
  unfold bind at 1. rewrite E1.
  pose proof (grows_Ret _ _ _ _ (grows_set_update_table_fields sl) E1) as Hle1.
  pose proof (quiet_Ret _ _ _ _ (quiet_set_update_table_fields sl) E1) as He1.
  destruct (set_subqueries_context_defined sl st1) as (st2 & E2 & Ht2 & He2);
    [by exists j|].
  unfold bind at 1. rewrite E2.
  rewrite Hgl, Hh. rewrite bool_decide_eq_true_2 by done.
  rewrite bool_decide_eq_false_2 by (by intros [? ?]). cbn [negb andb].
  destruct (set_all_tables_defined (leaf_tables sl) st2) as (st3 & E3 & Hfull).
  { eapply tables_opened_same; [|exact Ho]. intros t.
    rewrite Ht2. rewrite (Hs0 t). by apply state_le_same_tables. }
  unfold bind at 1. rewrite E3.
  exists md, st3. split; [done|]. split; [|done].
  rewrite (quiet_Ret _ _ _ _ (quiet_set_all_tables _) E3). congruence.
Qed.

(** C7 (as the code has it).  On a block that is not an internal
    placeholder block, whose table references all have an opened table,
    with an empty GROUP BY list and no HAVING clause: when the block does
    not sit under an aggregating outer block the analysis returns success
    without raising anything, whatever the SELECT list is, and every
    column of every leaf table is allowed; when it sits under an
    aggregating outer block the analysis marks every column of every leaf
    table allowed and goes on with the collector, the WHERE clause and
    the validation. *)
Theorem trivial_pass sl st :
  is_Some (join sl) ->
  select_number sl <> UINT_MAX -> select_number sl <> INT_MAX ->
  group_list sl = [] -> having sl = None ->
  tables_opened st (leaf_tables sl) ->
  (forall i o, item (master_unit sl) = Some i ->
     outer_select (master_unit sl) = Some o -> join o = None ->
     tables_opened st (leaf_tables o)) ->
  ((forall o, outer_select (master_unit sl) = Some o -> join o = None) ->
   exists st',
     check_func_dep sl st = Ret false st' /\
     errors st' = errors st /\
     all_full st' (leaf_tables sl)) /\
  (forall o, outer_select (master_unit sl) = Some o -> is_Some (join o) ->
   leaf_tables sl <> [] ->
   exists md st1,
     all_full st1 (leaf_tables sl) /\ errors st1 = errors st /\
     check_func_dep sl st = check_func_dep_closure sl md st1).
Proof.
  intros Hj Hu Hi Hgl Hh Ho Hup. split.
  - intros Hout. destruct (leaf_tables sl) as [|tbl rest] eqn:Hleaf.
    + exists st. unfold check_func_dep. destruct Hj as [j ->].
      rewrite Hleaf. cbn. split; [done|]. split; [done|].
      intros ? ? Hin. by apply elem_of_nil in Hin.
    + destruct (check_func_dep_no_group_by sl st)
        as (md & st1 & Hfull & He & E); try done.
      { by rewrite Hleaf. }
      { by rewrite Hleaf. }
      exists st1. rewrite Hleaf in Hfull. split; [|done]. rewrite E.
      unfold need_check. rewrite Hgl, Hh.
      rewrite bool_decide_eq_true_2 by done.
      rewrite (bool_decide_eq_false_2 (is_Some None)) by (by intros [? ?]).
      destruct (outer_select (master_unit sl)) as [o|]; [|done].
      rewrite (Hout o eq_refl).
      by rewrite bool_decide_eq_false_2 by (by intros [? ?]).
  - intros o Hout Hjo Hleaf.
    destruct (check_func_dep_no_group_by sl st)
      as (md & st1 & Hfull & He & E); try done.
    exists md, st1. do 2 (split; [done|]). rewrite E.
    unfold need_check. rewrite Hout.
    rewrite (bool_decide_eq_true_2 (is_Some (join o))) by done.
    by rewrite orb_true_r.
Qed.

(** * Further properties of the analyzer *)

(** ** Derived-Table Closure *)

Lemma bitmap_set_all_not_clear m :
  bitmap_is_clear_all m = false ->
  bitmap_is_clear_all (bitmap_set_all m) = false.
Proof. by destruct m. Qed.

Lemma bitmap_not_clear_lookup (m : MY_BITMAP) i :
  m !! i = Some true -> bitmap_is_clear_all m = false.
Proof.
  unfold bitmap_is_clear_all. revert i.
  induction m as [|b m IH]; intros [|i] H; cbn in *; try done.
  - by injection H as ->.
  - rewrite (IH i H). apply andb_false_r.
Qed.

Lemma allowed_set_clear_b_mark st t T tbl :
  tables st !! t = Some T -> bitmap_is_clear_all (tmp_set T) = false ->
  allowed_set_clear_b (mark_table st t T) tbl = allowed_set_clear_b st tbl.
Proof.
  intros HT Hn. unfold allowed_set_clear_b.
  destruct (tl_table tbl) as [t'|]; [|done]. cbn.
  destruct (decide (t = t')) as [<-|Hne].
  - rewrite lookup_insert_eq, HT. cbn.
    by rewrite bitmap_set_all_not_clear, Hn.
  - by rewrite lookup_insert_ne.
Qed.

Lemma filter_length_all {A} (f : A -> bool) (l : list A) :
  length (List.filter f l) = length l <-> Forall (fun x => f x = true) l.
Proof.
  induction l as [|x l IH]; cbn.
  - split; [constructor | done].
  - pose proof (List.filter_length_le f l) as Hle.
    destruct (f x) eqn:E; cbn.
    + split.
      * intros [= H]. constructor; [done | by apply IH].
      * inversion 1; subst. f_equal. by apply IH.
    + split; [lia | inversion 1; congruence].
Qed.

Lemma filter_length_some {A} (f : A -> bool) (l : list A) :
  length (List.filter f l) <> length l -> exists x, x ∈ l /\ f x = false.
Proof.
  induction l as [|x l IH]; cbn; [done|].
  destruct (f x) eqn:E; cbn.
  - intros H. destruct IH as (y & Hin & Hy); [congruence|].
    exists y. split; [apply elem_of_cons; by right | done].
  - intros _. exists x. split; [apply elem_of_cons; by left | done].
Qed.

Lemma mat_derived_scan_Ret l st l' st' :
  mat_derived_scan l st = Ret l' st' ->
  l' = List.filter (allowed_set_clear_b st) l /\
  (forall tbl t, tbl ∈ l -> tl_table tbl = Some t ->
     allowed_set_clear_b st tbl = false -> table_full st' t) /\
  (forall t, (forall tbl, tbl ∈ l -> tl_table tbl = Some t ->
                allowed_set_clear_b st tbl = true) ->
     tables st' !! t = tables st !! t) /\
  Forall (fun tbl => exists t, tl_table tbl = Some t /\
                               is_Some (tables st !! t)) l /\
  errors st' = errors st /\ subquery_ctx st' = subquery_ctx st.
Proof.
  revert st l'. induction l as [|tbl rest IH]; cbn; intros st l' H.
  - injection H as <- <-. split; [done|]. split.
    { intros ? ? Hin. by apply elem_of_nil in Hin. }
    split; [done|]. split; [constructor | done].
  - apply bind_Ret in H as (t & st0 & Ht & H).
    apply deref_Ret in Ht as [Ht ->].
    apply bind_Ret in H as (T & st0 & HT & H).
    apply get_table_Ret in HT as [HT ->].
    assert (allowed_set_clear_b st tbl = bitmap_is_clear_all (tmp_set T))
      as Hcl by (unfold allowed_set_clear_b; by rewrite Ht, HT).
    rewrite Hcl.
    destruct (bitmap_is_clear_all (tmp_set T)) eqn:Hc.
    + apply bind_Ret in H as (rest' & st1 & Hs & H). injection H as <- <-.
      destruct (IH _ _ Hs) as (-> & Hfull & Hframe & Hdef & He).
      split; [done|]. split; [|split; [|split; [|done]]].
      * intros tbl' t' Hin Ht' Hn.
        apply elem_of_cons in Hin as [->|Hin]; [congruence | eauto].
      * intros t' Hall. apply Hframe. intros tbl' Hin.
        apply Hall, elem_of_cons. by right.
      * constructor; [eauto | done].
    + apply bind_Ret in H as (u & st1 & Hm & H).
      apply tmp_set_all_Ret in Hm as (T' & HT' & ->).
      assert (T' = T) as -> by congruence.
      pose proof (grows_Ret _ _ _ _ (grows_mat_derived_scan rest) H) as Hle.
      destruct (IH _ _ H) as (-> & Hfull & Hframe & Hdef & He1 & He2).
      split; [|split; [|split; [|split; [|done]]]].
      * apply List.filter_ext. intros tbl'.
        by apply allowed_set_clear_b_mark.
      * intros tbl' t' Hin Ht' Hn.
        apply elem_of_cons in Hin as [->|Hin].
        -- assert (t' = t) as -> by congruence.
           eapply table_full_le; [exact Hle | apply mark_table_full].
        -- apply (Hfull tbl' t' Hin Ht').
           by rewrite allowed_set_clear_b_mark.
      * intros t' Hall.
        assert (t <> t') as Hne.
        { intros <-.
          specialize (Hall tbl ltac:(apply elem_of_cons; by left) Ht).
          congruence. }
        rewrite Hframe.
        -- cbn. by rewrite lookup_insert_ne.
        -- intros tbl' Hin Ht'. rewrite allowed_set_clear_b_mark by done.
           apply Hall; [apply elem_of_cons; by right | done].
      * constructor; [eauto|].
        eapply Forall_impl; [exact Hdef|]. intros tbl' (t' & Ht' & Hs).
        exists t'. split; [done|].
        by apply (state_le_same_tables _ _ (mark_table_le _ _ _ HT)).
Qed.

Lemma mat_derived_scan_clear l st :
  Forall (fun tbl => exists t, tl_table tbl = Some t /\
                               is_Some (tables st !! t)) l ->
  Forall (fun tbl => allowed_set_clear_b st tbl = true) l ->
  mat_derived_scan l st = Ret l st.
Proof.
  induction l as [|tbl rest IH]; cbn; intros Hdef Hcl; [done|].
  inversion Hdef as [|? ? (t & Ht & [T HT]) Hdef']; subst.
  inversion Hcl as [|? ? Hc Hcl']; subst.
  unfold allowed_set_clear_b in Hc. rewrite Ht, HT in Hc.
  rewrite Ht. unfold bind at 1. cbn [deref ret].
  unfold bind at 1, get_table. rewrite HT, Hc.
  unfold bind. by rewrite IH.
Qed.

(** X1. Derived-Table Closure.  A run over the list of pending
    materialized derived tables keeps exactly the entries whose
    Allowed-Set had no bit set; the table of every other entry ends with
    every column allowed; a table none of whose entries had a bit set is
    left as it was; nothing is raised; and the answer is true exactly when
    some entry had a bit set. *)
Theorem derived_closure_correct mat_derived st r mat_derived' st' :
  check_allowed_materialized_derived mat_derived st
  = Ret (r, mat_derived') st' ->
  mat_derived' = List.filter (allowed_set_clear_b st) mat_derived /\
  (forall tbl t, tbl ∈ mat_derived -> tl_table tbl = Some t ->
     allowed_set_clear_b st tbl = false -> table_full st' t) /\
  (forall t, (forall tbl, tbl ∈ mat_derived -> tl_table tbl = Some t ->
                allowed_set_clear_b st tbl = true) ->
     tables st' !! t = tables st !! t) /\
  errors st' = errors st /\
  (r = true <->
   exists tbl, tbl ∈ mat_derived /\ allowed_set_clear_b st tbl = false).
Proof.
  unfold check_allowed_materialized_derived. intros H.
  destruct mat_derived as [|tbl0 rest0] eqn:Hmd.
  { injection H as <- <- <-. split; [done|]. split.
    { intros ? ? Hin. by apply elem_of_nil in Hin. }
    split; [done|]. split; [done|]. split; [done|].
    intros (tbl & Hin & _). by apply elem_of_nil in Hin. }
  rewrite <- Hmd in *. clear Hmd tbl0 rest0.
  apply bind_Ret in H as (l' & st1 & Hs & H). injection H as <- <- <-.
  destruct (mat_derived_scan_Ret _ _ _ _ Hs)
    as (-> & Hfull & Hframe & _ & He & _).
  do 4 (split; [done|]).
  rewrite negb_true_iff, Nat.eqb_neq. split.
  - intros Hne. apply filter_length_some. congruence.
  - intros (tbl & Hin & Hc) E. symmetry in E.
    apply filter_length_all in E. rewrite Forall_forall in E.
    specialize (E tbl Hin). congruence.
Qed.

(** X2. Derived-Table Closure is idempotent: run again on the list and
    the state it has left, it answers false and changes neither. *)
Theorem derived_closure_idempotent mat_derived st r mat_derived' st' :
  check_allowed_materialized_derived mat_derived st
  = Ret (r, mat_derived') st' ->
  check_allowed_materialized_derived mat_derived' st'
  = Ret (false, mat_derived') st'.
Proof.
  unfold check_allowed_materialized_derived at 1. intros H.
  destruct mat_derived as [|tbl0 rest0] eqn:Hmd.
  { by injection H as <- <- <-. }
  rewrite <- Hmd in *. clear Hmd tbl0 rest0.
  apply bind_Ret in H as (l' & st1 & Hs & H). injection H as <- <- <-.
  pose proof (grows_Ret _ _ _ _ (grows_mat_derived_scan _) Hs) as Hle.
  destruct (mat_derived_scan_Ret _ _ _ _ Hs)
    as (-> & _ & Hframe & Hdef & _).
  set (l' := List.filter (allowed_set_clear_b st) mat_derived).
  assert (forall tbl, tbl ∈ l' ->
            tbl ∈ mat_derived /\ allowed_set_clear_b st tbl = true) as Hin'.
  { intros tbl Hin. apply list_elem_of_In in Hin.
    apply List.filter_In in Hin as [Hin Hc].
    by apply list_elem_of_In in Hin. }
  assert (mat_derived_scan l' st1 = Ret l' st1) as Hscan.
  { apply mat_derived_scan_clear; apply Forall_forall; intros tbl Hin;
      destruct (Hin' tbl Hin) as [Hin0 Hc].
    - rewrite Forall_forall in Hdef.
      destruct (Hdef tbl Hin0) as (t & Ht & Hs').
      exists t. split; [done|].
      by apply (state_le_same_tables _ _ Hle).
    - unfold allowed_set_clear_b in *.
      destruct (tl_table tbl) as [t|] eqn:Ht; [|done].
      rewrite Hframe; [done|].
      intros tbl2 Hin2 Ht2. unfold allowed_set_clear_b. rewrite Ht2.
      destruct (tables st !! t); done. }
  unfold check_allowed_materialized_derived.
  destruct l' as [|tbl1 rest1] eqn:El; [done|]. rewrite <- El in *.
  unfold bind. rewrite Hscan. by rewrite Nat.eqb_refl.
Qed.

(** ** More on Key Closure *)

Lemma unique_keys_scan_true t keys st st' :
  unique_keys_scan t keys st = Ret true st' ->
  exists k, k ∈ keys /\ Z.land (flags k) HA_NOSAME <> 0%Z /\
            key_allowed st k.
Proof.
  induction keys as [|k rest IH]; cbn; intros H; [by injection H|].
  destruct (Z.land (flags k) HA_NOSAME =? 0)%Z eqn:Hflag.
  - destruct (IH H) as (k' & Hin & Hk). exists k'.
    split; [apply elem_of_cons; by right | done].
  - apply Z.eqb_neq in Hflag.
    apply bind_Ret in H as (ok & st1 & Hk & H).
    apply are_key_parts_allowed_Ret in Hk as [-> Hk]. destruct ok.
    + exists k. split; [apply elem_of_cons; by left|]. split; [done|].
      by apply Hk.
    + destruct (IH H) as (k' & Hin & Hk'). exists k'.
      split; [apply elem_of_cons; by right | done].
Qed.

Lemma check_table_keys_true tbl st st' :
  check_table_keys tbl st = Ret true st' ->
  exists t T, tl_table tbl = Some t /\ tables st !! t = Some T /\
    bitmap_is_set_all (tmp_set T) = false /\ has_allowed_key st T /\
    st' = mark_table st t T.
Proof.
  intros H.
  destruct (check_table_keys_Ret _ _ _ _ H)
    as [([=] & _)|(_ & t & T & Ht & HT & Hn & ->)].
  exists t, T. do 3 (split; [done|]). split; [|done].
  unfold check_table_keys in H. rewrite Ht in H.
  apply bind_Ret in H as (T' & st1 & HT' & H).
  apply get_table_Ret in HT' as [HT' ->].
  assert (T' = T) as -> by congruence. rewrite Hn in H.
  apply bind_Ret in H as (p & st1 & Hp & H). destruct p.
  - left. case_decide as Hlt; [|by injection Hp].
    apply bind_Ret in Hp as (pk & st2 & Hd & Hp).
    apply deref_Ret in Hd as [Hd ->].
    apply are_key_parts_allowed_Ret in Hp as [-> Hk].
    split; [done|]. exists pk. split; [done|]. by apply Hk.
  - right.
    assert (st1 = st) as ->.
    { case_decide; [|by injection Hp].
      apply bind_Ret in Hp as (pk & st2 & Hd & Hp).
      apply deref_Ret in Hd as [Hd ->].
      by apply are_key_parts_allowed_Ret in Hp as [-> _]. }
    by eapply unique_keys_scan_true.
Qed.

Lemma check_allowed_unique_keys_from_all_or_nothing tbls fe st r st' :
  check_allowed_unique_keys_from tbls fe st = Ret r st' ->
  forall t,
    tables st' !! t = tables st !! t \/
    exists tbl T,
      tbl ∈ tbls /\ tl_table tbl = Some t /\
      tables st !! t = Some T /\
      bitmap_is_set_all (tmp_set T) = false /\
      tables st' !! t
      = Some (with_tmp_set T (bitmap_set_all (tmp_set T))) /\
      has_allowed_key st' (with_tmp_set T (bitmap_set_all (tmp_set T))).
Proof.
  revert fe st.
  induction tbls as [|tbl rest IH]; cbn; intros fe st H t.
  - injection H as <- <-. by left.
  - apply bind_Ret in H as (e & st1 & Hc & H).
    pose proof (grows_Ret _ _ _ _
                  (grows_check_allowed_unique_keys_from rest _) H) as Hle2.
    specialize (IH _ _ H t). destruct e.
    + apply check_table_keys_true in Hc
        as (t0 & T0 & Ht0 & HT0 & Hn0 & Hkey & ->).
      destruct (decide (t0 = t)) as [->|Hne].
      * right. exists tbl, T0.
        split; [apply elem_of_cons; by left|]. do 3 (split; [done|]).
        assert (tables st' !! t
                = Some (with_tmp_set T0 (bitmap_set_all (tmp_set T0))))
          as E.
        { destruct IH as [->|(tbl' & T' & _ & _ & HT' & Hn' & _)].
          - cbn. apply lookup_insert_eq.
          - cbn in HT'. rewrite lookup_insert_eq in HT'.
            injection HT' as <-. cbn in Hn'.
            by rewrite bitmap_set_all_is_set_all in Hn'. }
        split; [done|].
        apply (has_allowed_key_le st st' T0); [| |exact Hkey].
        -- eapply state_le_trans; [by apply mark_table_le | exact Hle2].
        -- unfold table_le. cbn. auto using bitmap_le_set_all.
      * cbn in IH. rewrite lookup_insert_ne in IH by done.
        destruct IH as [?|(tbl' & T' & Hin & Hrest)]; [by left|].
        right. exists tbl', T'.
        split; [apply elem_of_cons; by right | done].
    + destruct (check_table_keys_Ret _ _ _ _ Hc)
        as [(_ & -> & _)|([=] & _)].
      destruct IH as [?|(tbl' & T' & Hin & Hrest)]; [by left|].
      right. exists tbl', T'.
      split; [apply elem_of_cons; by right | done].
Qed.

(** X3. Key Closure is all or nothing, and sound.  After a run every
    table of the store either is exactly as it was, or is the table of a
    leaf table of the block, had an Allowed-Set that was not full, has
    now every column allowed and nothing else changed, and has a primary
    or unique key all of whose columns are allowed. *)
Theorem key_closure_all_or_nothing sl st r st' :
  check_allowed_unique_keys sl st = Ret r st' ->
  forall t,
    tables st' !! t = tables st !! t \/
    exists tbl T,
      tbl ∈ leaf_tables sl /\ tl_table tbl = Some t /\
      tables st !! t = Some T /\
      bitmap_is_set_all (tmp_set T) = false /\
      tables st' !! t
      = Some (with_tmp_set T (bitmap_set_all (tmp_set T))) /\
      has_allowed_key st' (with_tmp_set T (bitmap_set_all (tmp_set T))).
Proof. apply check_allowed_unique_keys_from_all_or_nothing. Qed.

Lemma are_key_parts_allowed_local parts t st1 st2 b :
  (forall fld, fld ∈ parts -> table fld = t) ->
  tables st1 !! t = tables st2 !! t ->
  are_key_parts_allowed parts st1 = Ret b st1 ->
  are_key_parts_allowed parts st2 = Ret b st2.
Proof.
  intros Hown Ht. induction parts as [|fld rest IH]; cbn; intros H.
  - by injection H as <-.
  - apply bind_Ret in H as (ok & st0 & Hf & H).
    assert (st0 = st1) as ->
      by exact (reads_Ret _ _ _ _ (reads_Field_excl fld) Hf).
    unfold Field_excl_func_dep_on_grouping_fields in Hf.
    apply bind_Ret in Hf as (T & st0 & HT & Hf).
    apply get_table_Ret in HT as [HT ->].
    apply deref_Ret in Hf as [Hf _].
    rewrite (Hown fld) in HT by (apply elem_of_cons; by left).
    unfold bind at 1, Field_excl_func_dep_on_grouping_fields, bind at 1,
      get_table.
    rewrite (Hown fld) by (apply elem_of_cons; by left).
    rewrite <- Ht, HT, Hf. cbn [deref ret].
    destruct ok; [|by injection H as <-].
    apply IH; [|done]. intros f Hin. apply Hown, elem_of_cons. by right.
Qed.

Lemma unique_keys_scan_local t keys st1 st2 :
  (forall k fld, k ∈ keys -> fld ∈ key_part k -> table fld = t) ->
  tables st1 !! t = tables st2 !! t ->
  unique_keys_scan t keys st1 = Ret false st1 ->
  unique_keys_scan t keys st2 = Ret false st2.
Proof.
  intros Hown Ht. induction keys as [|k rest IH]; cbn; intros H; [done|].
  assert (forall k' fld, k' ∈ rest -> fld ∈ key_part k' -> table fld = t)
    as Hown'.
  { intros k' f Hin. apply Hown, elem_of_cons. by right. }
  destruct (Z.land (flags k) HA_NOSAME =? 0)%Z; [by apply IH|].
  apply bind_Ret in H as (ok & st0 & Hk & H).
  assert (st0 = st1) as ->
    by exact (reads_Ret _ _ _ _ (reads_are_key_parts_allowed _) Hk).
  unfold bind at 1, are_key_fields_allowed.
  rewrite (are_key_parts_allowed_local _ t st1 st2 ok); [|
    intros f Hin; eapply Hown; [apply elem_of_cons; by left | done]
    | done | done].
  destruct ok; [|by apply IH].
  apply bind_Ret in H as (u & st0 & _ & H). by injection H.
Qed.

Lemma check_table_keys_local tbl st1 st2 :
  (forall t T, tl_table tbl = Some t -> tables st1 !! t = Some T ->
     own_keys t T /\ tables st2 !! t = Some T) ->
  check_table_keys tbl st1 = Ret false st1 ->
  check_table_keys tbl st2 = Ret false st2.
Proof.
  unfold check_table_keys. intros Hloc H.
  destruct (tl_table tbl) as [t|]; [|done].
  apply bind_Ret in H as (T & st0 & HT & H).
  apply get_table_Ret in HT as [HT ->].
  destruct (Hloc t T eq_refl HT) as [Hown HT2].
  unfold bind at 1, get_table. rewrite HT2.
  destruct (bitmap_is_set_all (tmp_set T)); [done|].
  apply bind_Ret in H as (p & st0 & Hp & H).
  assert (st0 = st1 /\
          (if decide (primary_key T < MAX_KEY)
           then let* pk := deref (key_info T !! primary_key T)
                in are_key_fields_allowed pk
           else ret false) st2 = Ret p st2) as [-> Hp2].
  { case_decide; [|by injection Hp as <- <-].
    apply bind_Ret in Hp as (pk & st3 & Hd & Hp).
    apply deref_Ret in Hd as [Hd ->].
    assert (st0 = st1) as ->
      by exact (reads_Ret _ _ _ _ (reads_are_key_parts_allowed _) Hp).
    split; [done|]. rewrite Hd. unfold bind, deref, ret.
    apply (are_key_parts_allowed_local _ t st1); [|congruence|done].
    intros f Hin. eapply Hown; [|done]. by eapply list_elem_of_lookup_2. }
  unfold bind at 1. rewrite Hp2. destruct p.
  - apply bind_Ret in H as (u & st0 & _ & H). by injection H.
  - apply (unique_keys_scan_local _ _ st1); [|congruence|done].
    intros k f. apply Hown.
Qed.

Lemma check_table_keys_full tbl st :
  (forall t, tl_table tbl = Some t -> table_full st t) ->
  check_table_keys tbl st = Ret false st.
Proof.
  unfold check_table_keys. intros H.
  destruct (tl_table tbl) as [t|]; [|done].
  destruct (H t eq_refl) as (T & HT & Hf).
  unfold bind, get_table. by rewrite HT, Hf.
Qed.

Lemma check_table_keys_settled tbl st e st1 :
  check_table_keys tbl st = Ret e st1 ->
  check_table_keys tbl st1 = Ret false st1.
Proof.
  intros H. destruct e.
  - apply check_table_keys_true in H as (t & T & Ht & HT & _ & _ & ->).
    apply check_table_keys_full. intros t' Ht'.
    assert (t' = t) as -> by congruence. apply mark_table_full.
  - destruct (check_table_keys_Ret _ _ _ _ H)
      as [(_ & -> & _)|([=] & _)]. done.
Qed.

Lemma check_table_keys_stays_settled tbl tbl2 st e st2 :
  (forall t T, tl_table tbl = Some t -> tables st !! t = Some T ->
     own_keys t T) ->
  check_table_keys tbl st = Ret false st ->
  check_table_keys tbl2 st = Ret e st2 ->
  check_table_keys tbl st2 = Ret false st2.
Proof.
  intros Hown Hs H2. destruct e.
  - apply check_table_keys_true in H2 as (t2 & T2 & Ht2 & HT2 & _ & _ & ->).
    destruct (tl_table tbl) as [t|] eqn:Ht;
      [|unfold check_table_keys; by rewrite Ht].
    destruct (decide (t = t2)) as [->|Hne].
    + apply check_table_keys_full. intros t' Ht'. rewrite Ht in Ht'.
      injection Ht' as <-. apply mark_table_full.
    + eapply check_table_keys_local; [|exact Hs].
      intros t' T Ht' HT. rewrite Ht in Ht'. injection Ht' as <-.
      split; [by eapply Hown|]. cbn. by rewrite lookup_insert_ne.
  - destruct (check_table_keys_Ret _ _ _ _ H2)
      as [(_ & -> & _)|([=] & _)]. done.
Qed.

Lemma own_keys_le st st' tbl :
  state_le st st' ->
  (forall t T, tl_table tbl = Some t -> tables st !! t = Some T ->
     own_keys t T) ->
  forall t T, tl_table tbl = Some t -> tables st' !! t = Some T ->
    own_keys t T.
Proof.
  intros Hle Hown t T' Ht HT'.
  destruct (state_le_lookup_inv _ _ _ _ Hle HT') as (T & HT & HK & _).
  unfold own_keys. rewrite HK. by eapply Hown.
Qed.

Lemma check_allowed_unique_keys_from_settled tbls fe st r st' :
  check_allowed_unique_keys_from tbls fe st = Ret r st' ->
  (forall tbl,
      (forall t T, tl_table tbl = Some t -> tables st !! t = Some T ->
         own_keys t T) ->
      check_table_keys tbl st = Ret false st ->
      check_table_keys tbl st' = Ret false st') /\
  (keys_own st tbls ->
   Forall (fun tbl => check_table_keys tbl st' = Ret false st') tbls).
Proof.
  revert fe st. induction tbls as [|tbl rest IH]; cbn; intros fe st H.
  - injection H as <- <-. split; [done | constructor].
  - apply bind_Ret in H as (e & st1 & Hc & H).
    pose proof (grows_Ret _ _ _ _ (grows_check_table_keys tbl) Hc) as Hle1.
    destruct (IH _ _ H) as [Hkeep Hall]. split.
    + intros tbl0 Hown Hs. apply Hkeep.
      * by eapply own_keys_le.
      * by eapply check_table_keys_stays_settled.
    + intros Hown. constructor.
      * apply Hkeep.
        -- eapply own_keys_le; [exact Hle1|]. intros t T Ht HT.
           eapply Hown; [apply elem_of_cons; by left | done | done].
        -- by eapply check_table_keys_settled.
      * apply Hall. intros tbl' t T' Hin Ht HT'.
        eapply (own_keys_le st st1 tbl'); [done| |done|done].
        intros t0 T0 Ht0 HT0.
        eapply Hown; [apply elem_of_cons; by right | done | done].
Qed.

Lemma check_allowed_unique_keys_from_fixed tbls st :
  Forall (fun tbl => check_table_keys tbl st = Ret false st) tbls ->
  check_allowed_unique_keys_from tbls false st = Ret false st.
Proof.
  induction 1 as [|tbl rest Hs Hall IH]; cbn; [done|].
  unfold bind. rewrite Hs. exact IH.
Qed.

(** X4. Key Closure is idempotent on tables whose keys are made of their
    own columns: run again on the state it has left, it answers false and
    changes nothing. *)
Theorem key_closure_idempotent sl st r st' :
  keys_own st (leaf_tables sl) ->
  check_allowed_unique_keys sl st = Ret r st' ->
  check_allowed_unique_keys sl st' = Ret false st'.
Proof.
  intros Hown H. apply check_allowed_unique_keys_from_fixed.
  by apply (check_allowed_unique_keys_from_settled _ _ _ _ _ H).
Qed.

(** ** The UPDATE special case, the context tags and the clearing *)

Lemma set_all_tables_Ret tbls st u st' :
  set_all_tables tbls st = Ret u st' ->
  all_full st' tbls /\
  (forall t, ~ referenced tbls t -> tables st' !! t = tables st !! t) /\
  errors st' = errors st /\ subquery_ctx st' = subquery_ctx st.
Proof.
  revert st. induction tbls as [|tbl rest IH]; cbn; intros st H.
  - injection H as <- <-. split; [|done].
    intros ? ? Hin. by apply elem_of_nil in Hin.
  - apply bind_Ret in H as (t & st0 & Ht & H).
    apply deref_Ret in Ht as [Ht ->].
    apply bind_Ret in H as (u' & st1 & Hm & H).
    apply tmp_set_all_Ret in Hm as (T & HT & ->).
    pose proof (grows_Ret _ _ _ _ (grows_set_all_tables rest) H) as Hle.
    destruct (IH _ H) as (Hfull & Hframe & He & Hc).
    split; [|split; [|done]].
    + intros tbl' t' Hin Ht'.
      apply elem_of_cons in Hin as [->|Hin]; [|by eapply Hfull].
      assert (t' = t) as -> by congruence.
      eapply table_full_le; [exact Hle | apply mark_table_full].
    + intros t' Hnr. rewrite Hframe.
      * cbn. apply lookup_insert_ne. intros <-. apply Hnr.
        exists tbl. split; [apply elem_of_cons; by left | done].
      * intros (tbl' & Hin & Ht'). apply Hnr. exists tbl'.
        split; [apply elem_of_cons; by right | done].
Qed.

(** X5. The UPDATE special case.  When the block is not the subquery of
    an item, or has no outer block, or its outer block has a join, no
    state is touched.  When it is the subquery of an item under an outer
    block without a join, every column of every leaf table of the outer
    block ends allowed, no other table is touched, no bit is cleared and
    nothing is raised. *)
Theorem update_target_fields sl st u st' :
  set_update_table_fields sl st = Ret u st' ->
  (item (master_unit sl) = None \/
   outer_select (master_unit sl) = None \/
   (exists outer, outer_select (master_unit sl) = Some outer /\
                  is_Some (join outer)) ->
   st' = st) /\
  (forall outer,
      is_Some (item (master_unit sl)) ->
      outer_select (master_unit sl) = Some outer ->
      join outer = None ->
      all_full st' (leaf_tables outer) /\
      (forall t, ~ referenced (leaf_tables outer) t ->
         tables st' !! t = tables st !! t) /\
      state_le st st' /\ errors st' = errors st).
Proof.
  intros H.
  pose proof (grows_Ret _ _ _ _ (grows_set_update_table_fields sl) H)
    as Hle.
  unfold set_update_table_fields in H. split.
  - intros [Hi|[Ho|(outer & Ho & [j Hj])]].
    + rewrite Hi in H. by injection H.
    + rewrite Ho in H. destruct (item (master_unit sl)); by injection H.
    + rewrite Ho, Hj in H. destruct (item (master_unit sl)); by injection H.
  - intros outer [i Hi] Ho Hj. rewrite Hi, Ho, Hj in H.
    destruct (set_all_tables_Ret _ _ _ _ H) as (Hfull & Hframe & He & _).
    auto.
Qed.

Lemma walk_if_with_subquery it ctx st :
  (if with_subquery it then walk_set_subquery_ctx it ctx else ret tt) st
  = Ret tt (mkState (tables st) (errors st)
                    (subquery_ctx st ++ clause_tags ctx it)).
Proof.
  unfold with_subquery, clause_tags. case_bool_decide as E; cbn.
  - rewrite E. cbn. rewrite app_nil_r. by destruct st.
  - done.
Qed.

Lemma set_select_list_context_Ret items st :
  set_select_list_context items st
  = Ret tt (mkState (tables st) (errors st)
              (subquery_ctx st
               ++ flat_map (clause_tags SELECT_LIST) items)).
Proof.
  revert st. induction items as [|it rest IH]; cbn; intros st.
  - rewrite app_nil_r. by destruct st.
  - unfold bind. rewrite walk_if_with_subquery, IH. cbn.
    by rewrite <- app_assoc.
Qed.

Lemma set_clause_context_Ret clause ctx st :
  set_clause_context clause ctx st
  = Ret tt (mkState (tables st) (errors st)
              (subquery_ctx st ++ clause_tags_opt ctx clause)).
Proof.
  unfold set_clause_context. destruct clause as [it|]; cbn.
  - apply walk_if_with_subquery.
  - rewrite app_nil_r. by destruct st.
Qed.

(** X6. The context tags.  A run of [set_subqueries_context] needs the
    join of the block; it leaves the Allowed-Sets and the diagnostics as
    they are and appends, in this order, a tag SELECT_LIST for every
    subquery of the SELECT list, a tag IN_WHERE for every subquery of the
    WHERE condition of the join and a tag IN_HAVING for every subquery of
    the HAVING condition of the join. *)
Theorem subqueries_context_tags sl st u st' :
  set_subqueries_context sl st = Ret u st' ->
  exists j,
    join sl = Some j /\
    tables st' = tables st /\ errors st' = errors st /\
    subquery_ctx st'
    = subquery_ctx st
      ++ flat_map (clause_tags SELECT_LIST) (item_list sl)
      ++ clause_tags_opt IN_WHERE (conds j)
      ++ clause_tags_opt IN_HAVING (join_having j).
Proof.
  unfold set_subqueries_context. intros H.
  apply bind_Ret in H as (u0 & st0 & H0 & H).
  rewrite set_select_list_context_Ret in H0. injection H0 as _ <-.
  apply bind_Ret in H as (j & st1 & Hj & H).
  apply deref_Ret in Hj as [Hj ->].
  apply bind_Ret in H as (u1 & st1 & H1 & H).
  rewrite set_clause_context_Ret in H1. injection H1 as _ <-.
  rewrite set_clause_context_Ret in H. injection H as _ <-.
  exists j. cbn. by rewrite !app_assoc.
Qed.

Lemma referenced_cons tbl rest t :
  referenced (tbl :: rest) t <-> tl_table tbl = Some t \/ referenced rest t.
Proof.
  unfold referenced. split.
  - intros (tbl' & Hin & Ht). apply elem_of_cons in Hin as [->|Hin]; eauto.
  - intros [Ht|(tbl' & Hin & Ht)].
    + exists tbl. split; [apply elem_of_cons; by left | done].
    + exists tbl'. split; [apply elem_of_cons; by right | done].
Qed.

Lemma referenced_decide tbls t : referenced tbls t \/ ~ referenced tbls t.
Proof.
  induction tbls as [|tbl rest IH].
  - right. intros (tbl & Hin & _). by apply elem_of_nil in Hin.
  - destruct (decide (tl_table tbl = Some t)) as [E|E].
    + left. apply referenced_cons. by left.
    + destruct IH as [IH|IH].
      * left. apply referenced_cons. by right.
      * right. intros Hr. apply referenced_cons in Hr as [?|?]; done.
Qed.

Lemma cleared_cleared T : cleared (cleared T) = cleared T.
Proof.
  unfold cleared, with_tmp_set, bitmap_clear_all. cbn.
  by rewrite length_replicate.
Qed.

Lemma clear_and_collect_Ret tbls md st md' st' :
  clear_and_collect tbls md st = Ret md' st' ->
  md' = md ++ List.filter (fun tbl => bool_decide (is_Some (tl_table tbl))
                                      && materialized_derived tbl) tbls /\
  (forall t, referenced tbls t ->
     exists T, tables st !! t = Some T /\
               tables st' !! t = Some (cleared T)) /\
  (forall t, ~ referenced tbls t -> tables st' !! t = tables st !! t) /\
  errors st' = errors st /\ subquery_ctx st' = subquery_ctx st.
Proof.
  revert md st. induction tbls as [|tbl rest IH]; cbn; intros md st H.
  - injection H as <- <-. rewrite app_nil_r. split; [done|].
    split; [|done]. intros t (tbl & Hin & _). by apply elem_of_nil in Hin.
  - destruct (tl_table tbl) as [t|] eqn:Ht.
    + apply bind_Ret in H as (T & st0 & HT & H).
      apply get_table_Ret in HT as [HT ->].
      apply bind_Ret in H as (u & st1 & Hp & H).
      apply put_tmp_set_Ret in Hp as (T' & HT' & ->).
      assert (T' = T) as -> by congruence.
      fold (cleared T) in H.
      rewrite bool_decide_eq_true_2 by eauto. cbn [andb].
      assert (exists md1,
                 clear_and_collect rest md1
                   (mkState (<[t := cleared T]> (tables st)) (errors st)
                            (subquery_ctx st)) = Ret md' st' /\
                 md1 ++ List.filter
                          (fun tbl => bool_decide (is_Some (tl_table tbl))
                                      && materialized_derived tbl) rest
                 = md ++ (if materialized_derived tbl
                          then tbl :: List.filter
                                 (fun tbl =>
                                    bool_decide (is_Some (tl_table tbl))
                                    && materialized_derived tbl) rest
                          else List.filter
                                 (fun tbl =>
                                    bool_decide (is_Some (tl_table tbl))
                                    && materialized_derived tbl) rest))
        as (md1 & H1 & Emd).
      { destruct (materialized_derived tbl).
        - exists (md ++ [tbl]). split; [done|]. by rewrite <- app_assoc.
        - by exists md. }
      destruct (IH _ _ H1) as (-> & Hcl & Hframe & He).
      split; [done|]. split; [|split; [|done]].
      * intros t0 Hr.
        destruct (decide (t = t0)) as [<-|Hne].
        -- exists T. split; [done|].
           destruct (referenced_decide rest t) as [Hrr|Hnr].
           ++ destruct (Hcl t Hrr) as (T1 & HT1 & ->).
              cbn in HT1. rewrite lookup_insert_eq in HT1.
              injection HT1 as <-. by rewrite cleared_cleared.
           ++ rewrite (Hframe t Hnr). cbn. apply lookup_insert_eq.
        -- apply referenced_cons in Hr as [Hr|Hr]; [congruence|].
           destruct (Hcl t0 Hr) as (T1 & HT1 & ->).
           cbn in HT1. rewrite lookup_insert_ne in HT1 by done. eauto.
      * intros t0 Hnr. rewrite Hframe.
        -- cbn. apply lookup_insert_ne. intros <-.
           apply Hnr, referenced_cons. by left.
        -- intros Hr. apply Hnr, referenced_cons. by right.
    + rewrite bool_decide_eq_false_2 by (by intros [? ?]). cbn [andb].
      destruct (IH _ _ H) as (-> & Hcl & Hframe & He).
      split; [done|]. split; [|split; [|done]].
      * intros t0 Hr. apply referenced_cons in Hr as [Hr|Hr]; [congruence|].
        by apply Hcl.
      * intros t0 Hnr. apply Hframe. intros Hr.
        apply Hnr, referenced_cons. by right.
Qed.

(** X7. The clearing loop.  The first loop of [check_func_dep] replaces
    the Allowed-Set of every opened table of the list by an empty set of
    the same size, so that no column of such a table is allowed
    afterwards; it touches no other table, raises nothing, and appends
    to the list of materialized derived tables, in order, the opened
    table references flagged as materialized derived. *)
Theorem clearing_pass tbls mat_derived st mat_derived' st' :
  clear_and_collect tbls mat_derived st = Ret mat_derived' st' ->
  mat_derived'
  = mat_derived
    ++ List.filter (fun tbl => bool_decide (is_Some (tl_table tbl))
                               && materialized_derived tbl) tbls /\
  (forall t, referenced tbls t ->
     exists T, tables st !! t = Some T /\
               tables st' !! t = Some (cleared T)) /\
  (forall fld, referenced tbls (table fld) -> ~ field_allowed st' fld) /\
  (forall t, ~ referenced tbls t -> tables st' !! t = tables st !! t) /\
  errors st' = errors st.
Proof.
  intros H.
  destruct (clear_and_collect_Ret _ _ _ _ _ H)
    as (Hmd & Hcl & Hframe & He & _).
  do 2 (split; [done|]). split; [|done].
  intros fld Hr (T' & HT' & Hbit).
  destruct (Hcl _ Hr) as (T & _ & HT). rewrite HT in HT'.
  injection HT' as <-. cbn in Hbit. unfold bitmap_clear_all in Hbit.
  apply lookup_replicate in Hbit as [? _]. done.
Qed.

Lemma same_shape_refl st : same_shape st st.
Proof. intros t. destruct (tables st !! t); by constructor. Qed.

Lemma same_shape_trans st1 st2 st3 :
  same_shape st1 st2 -> same_shape st2 st3 -> same_shape st1 st3.
Proof.
  intros H12 H23 t. specialize (H12 t). specialize (H23 t).
  destruct H12 as [T1 T2 (?&?&?&?)|]; inversion H23 as [? T3 (?&?&?&?)|];
    subst; constructor.
  repeat split; congruence.
Qed.

Lemma state_le_same_shape st st' : state_le st st' -> same_shape st st'.
Proof.
  intros Hle t. specialize (Hle t).
  destruct Hle as [T T' (?&?&?&[? _])|]; constructor. auto.
Qed.

Lemma clear_and_collect_same_shape tbls md st md' st' :
  clear_and_collect tbls md st = Ret md' st' -> same_shape st st'.
Proof.
  intros H t.
  destruct (clear_and_collect_Ret _ _ _ _ _ H) as (_ & Hcl & Hframe & _).
  destruct (referenced_decide tbls t) as [Hr|Hr].
  - destruct (Hcl t Hr) as (T & -> & ->). constructor. cbn.
    unfold bitmap_clear_all. by rewrite length_replicate.
  - rewrite (Hframe t Hr). destruct (tables st !! t); by constructor.
Qed.

(** X8. The shape of the store.  A whole run of [check_func_dep], the
    clearing included, neither adds nor removes a table and changes of a
    table only the bits of its Allowed-Set: the keys, the primary key,
    the table reference and the size of the Allowed-Set are those it
    started with. *)
Theorem check_func_dep_keeps_shape sl st r st' :
  check_func_dep sl st = Ret r st' -> same_shape st st'.
Proof.
  unfold check_func_dep. intros H.
  apply bind_Ret in H as (j & st0 & Hj & H).
  apply deref_Ret in Hj as [_ ->].
  destruct (_ || _).
  - injection H as _ <-. apply same_shape_refl.
  - apply bind_Ret in H as (md & st1 & Hc & H).
    eapply same_shape_trans.
    + by eapply clear_and_collect_same_shape.
    + apply state_le_same_shape.
      exact (grows_Ret _ _ _ _ (grows_check_func_dep_cleared sl md) H).
Qed.

(** ** The checks of the SELECT list and of the HAVING clause *)

Lemma report_non_grouping_field_inv w place st u st' :
  report_non_grouping_field w place st = Ret u st' ->
  exists it, w = Some it /\ st' = with_error st it place.
Proof.
  unfold report_non_grouping_field. intros H.
  apply bind_Ret in H as (it & st1 & Hd & H).
  apply deref_Ret in Hd as [-> ->]. injection H as _ <-. by exists it.
Qed.

Lemma select_list_scan_Ret sl gb items st r st' :
  select_list_scan sl gb items st = Ret r st' ->
  (r = true /\ st' = st /\ Forall (passes st sl gb) items) \/
  (r = false /\
   exists pre it post w,
     items = pre ++ it :: post /\ Forall (passes st sl gb) pre /\
     Item_excl_func_dep_on_grouping_fields st sl gb it None
     = (false, Some w) /\
     st' = with_error st w "SELECT list").
Proof.
  induction items as [|it rest IH]; cbn; intros H.
  - injection H as <- <-. left. by repeat split.
  - destruct (Item_excl_func_dep_on_grouping_fields st sl gb it None)
      as [ok w] eqn:Ho.
    destruct ok.
    + destruct (IH H) as [(-> & -> & Hall)|(-> & pre & x & post & w' & E
                                            & Hpre & Hx & ->)].
      * left. do 2 (split; [done|]). constructor; [|done].
        unfold passes. by rewrite Ho.
      * right. split; [done|]. exists (it :: pre), x, post, w'.
        rewrite E. split; [done|]. split; [|done].
        constructor; [|done]. unfold passes. by rewrite Ho.
    + apply bind_Ret in H as (u & st1 & Hr & H). injection H as <- <-.
      apply report_non_grouping_field_inv in Hr as (w' & -> & ->).
      right. split; [done|]. exists [], it, rest, w'. by repeat split.
Qed.

(** X9. The check of the SELECT list.  A run of
    [are_select_list_fields_allowed] never touches an Allowed-Set.  It
    answers true exactly when every item of the SELECT list passes the
    test, and then leaves the state as it was; when it answers false,
    some item fails the test with a reported sub-expression, every item
    before it passes, and the only change of the state is the error
    raised for that sub-expression with clause "SELECT list". *)
Theorem select_list_check sl gb_items st r st' :
  are_select_list_fields_allowed sl gb_items st = Ret r st' ->
  tables st' = tables st /\
  (r = true <-> Forall (passes st sl gb_items) (item_list sl)) /\
  (r = true -> st' = st) /\
  (r = false ->
   exists pre it post w,
     item_list sl = pre ++ it :: post /\
     Forall (passes st sl gb_items) pre /\
     Item_excl_func_dep_on_grouping_fields st sl gb_items it None
     = (false, Some w) /\
     st' = with_error st w "SELECT list").
Proof.
  unfold are_select_list_fields_allowed. intros H.
  apply select_list_scan_Ret in H
    as [(-> & -> & Hall)|(-> & pre & it & post & w & E & Hpre & Hit & ->)].
  - by repeat split.
  - split; [done|]. split; [|split; [done|]].
    + split; [done|]. rewrite E. intros Hall.
      apply Forall_app in Hall as [_ Hall]. inversion Hall as [|? ? Hp _].
      unfold passes in Hp. by rewrite Hit in Hp.
    + intros _. by exists pre, it, post, w.
Qed.

Lemma are_having_fields_allowed_Ret sl h gb st r st' :
  are_having_fields_allowed sl h gb st = Ret r st' ->
  (r = true /\ st' = st /\ forall x, h = Some x -> passes st sl gb x) \/
  (r = false /\ exists x w,
      h = Some x /\
      Item_excl_func_dep_on_grouping_fields st sl gb x None
      = (false, Some w) /\
      st' = with_error st w "HAVING clause").
Proof.
  unfold are_having_fields_allowed. intros H. destruct h as [x|].
  - apply bind_Ret in H as ([ok w] & st1 & Ho & H).
    unfold excl_func_dep_on_grouping_fields in Ho. injection Ho as Ho <-.
    destruct ok.
    + injection H as <- <-. left. do 2 (split; [done|]).
      intros ? [= <-]. unfold passes. by rewrite Ho.
    + apply bind_Ret in H as (u & st1 & Hr & H). injection H as <- <-.
      apply report_non_grouping_field_inv in Hr as (w' & -> & ->).
      right. split; [done|]. by exists x, w'.
  - injection H as <- <-. left. by repeat split.
Qed.

Lemma collect_gb_fields_items sl md st r md' gb' st' :
  collect_gb_fields sl md [] st = Ret (r, md', gb') st' ->
  r = false /\ gb' = non_column_groups sl.
Proof.
  unfold collect_gb_fields, non_column_groups. intros H.
  apply bind_Ret in H as (j & st0 & Hj & H).
  apply deref_Ret in Hj as [_ ->].
  destruct (group_list sl) as [|g gl] eqn:Hgl.
  - by injection H as <- <- <-.
  - apply bind_Ret in H as (gb1 & st1 & Hs & H).
    apply bind_Ret in H as (keys & st2 & Hk & H).
    apply bind_Ret in H as ([derived md1] & st3 & Hd & H).
    injection H as <- <- <- <-.
    by destruct (collect_gb_scan_Ret _ _ _ _ _ Hs) as [-> _].
Qed.

Lemma check_func_dep_closure_accepts sl md st st' :
  check_func_dep_closure sl md st = Ret false st' ->
  exists j,
    join sl = Some j /\
    Forall (passes st' sl (non_column_groups sl)) (item_list sl) /\
    forall h, join_having j = Some h ->
              passes st' sl (non_column_groups sl) h.
Proof.
  unfold check_func_dep_closure. intros H.
  apply bind_Ret in H as ([[err md'] gb] & st1 & Hc & H).
  apply collect_gb_fields_items in Hc as [-> ->].
  apply bind_Ret in H as (err & st2 & Hw & H).
  destruct err; [by injection H|].
  apply bind_Ret in H as (ok & st3 & Hs & H).
  apply select_list_scan_Ret in Hs as [(-> & -> & Hall)|(-> & _)];
    [|by injection H].
  cbn in H. apply bind_Ret in H as (j & st4 & Hj & H).
  apply deref_Ret in Hj as [Hj ->].
  apply bind_Ret in H as (ok & st4 & Hh & H).
  apply are_having_fields_allowed_Ret in Hh as [(-> & -> & Hh)|(-> & _)];
    [|by injection H].
  injection H as <-. by exists j.
Qed.

(** X10. What an accepted block has passed.  When a block with leaf
    tables that is not a placeholder block has to be checked (it has a
    GROUP BY list, or a HAVING clause, or an outer block with a join)
    and [check_func_dep] answers false, then in the final state every
    item of the SELECT list passes the test against the non-column
    grouping expressions, and so does the HAVING condition of the join
    if there is one. *)
Theorem accepted_block_is_checked sl st st' :
  leaf_tables sl <> [] ->
  select_number sl <> UINT_MAX -> select_number sl <> INT_MAX ->
  need_check sl = true ->
  check_func_dep sl st = Ret false st' ->
  exists j,
    join sl = Some j /\
    Forall (passes st' sl (non_column_groups sl)) (item_list sl) /\
    forall h, join_having j = Some h ->
              passes st' sl (non_column_groups sl) h.
Proof.
  intros Hleaf Hn1 Hn2 Hneed H. unfold check_func_dep in H.
  apply bind_Ret in H as (j & st0 & Hj & H).
  apply deref_Ret in Hj as [_ ->].
  rewrite bool_decide_eq_false_2 in H by done.
  apply Z.eqb_neq in Hn1, Hn2. rewrite Hn1, Hn2 in H. cbn in H.
  apply bind_Ret in H as (md & st1 & Hc & H).
  unfold check_func_dep_cleared in H.
  apply bind_Ret in H as (u & st2 & Hu & H).
  apply bind_Ret in H as (u' & st3 & Hs & H).
  rewrite Hneed in H. cbn in H.
  destruct (_ && _).
  - apply bind_Ret in H as (u'' & st4 & Ha & H).
    by apply check_func_dep_closure_accepts in H.
  - by apply check_func_dep_closure_accepts in H.
Qed.

(** ** The first pass over the WHERE clause *)

Lemma where_clause_exit_Ret w eqs st err eqs' st' :
  where_clause_exit w eqs st = Ret (err, eqs') st' ->
  eqs' = eqs /\
  ((err = false /\ w = None /\ st' = st) \/
   (err = true /\ exists it, w = Some it /\
                             st' = with_error st it "WHERE clause")).
Proof.
  unfold where_clause_exit. intros H. destruct w as [it|].
  - apply bind_Ret in H as (u & st1 & Hr & H). injection H as <- <- <-.
    apply report_non_grouping_field_inv in Hr as (it' & [= <-] & ->).
    split; [done|]. right. split; [done|]. by exists it.
  - injection H as <- <- <-. split; [done|]. by left.
Qed.

Lemma check_equality_on_new_func_dep_Ret eq sl eqs st err eqs' st' :
  check_equality_on_new_func_dep eq sl eqs st = Ret (err, eqs') st' ->
  (err = true /\ eqs' = eqs /\
   exists it, st' = with_error st it "WHERE clause") \/
  (err = false /\ eqs' = eqs /\ st' = st) \/
  (err = false /\ st' = st /\
   exists e, eqs' = eqs ++ [e] /\ equal e = eq /\ deferred_entry e) \/
  (err = false /\ eqs' = eqs /\
   exists fld T, tables st !! table fld = Some T /\
                 tmp_set T !! field_index fld = Some false /\
                 st' = extracted_state st fld T).
Proof.
  unfold check_equality_on_new_func_dep. intros H.
  apply bind_Ret in H as (j & st0 & Hj & H).
  apply deref_Ret in Hj as [_ ->].
  apply bind_Ret in H as ([item_l item_r] & st0 & Ha & H).
  apply deref_Ret in Ha as [Ha ->].
  destruct (_ || _) eqn:Hnd.
  { injection H as <- <- <-. right. by left. }
  apply orb_false_iff in Hnd as [Hnl Hnr].
  apply bind_Ret in H as ([[dep_l w] fl] & st0 & Ho & H).
  injection Ho as Ho <-.
  assert (forall w0 e q s,
             where_clause_exit w0 eqs st = Ret (e, q) s ->
             (e = true /\ q = eqs /\
              exists it, s = with_error st it "WHERE clause") \/
             (e = false /\ q = eqs /\ s = st)) as Hexit.
  { intros w0 e q s Hx.
    apply where_clause_exit_Ret in Hx
      as [-> [(-> & _ & ->)|(-> & it & _ & ->)]]; [by right|].
    left. do 2 (split; [done|]). by exists it. }
  destruct (negb dep_l && bool_decide (fl = [])) eqn:C1.
  { destruct (Hexit _ _ _ _ H) as [?|?]; [by left | right; by left]. }
  apply bind_Ret in H as ([[dep_r w'] fr] & st0 & Ho' & H).
  injection Ho' as Ho' <-.
  destruct (_ || _) eqn:C2.
  { destruct (Hexit _ _ _ _ H) as [?|?]; [by left | right; by left]. }
  apply orb_false_iff in C2 as [C2 C4].
  apply orb_false_iff in C2 as [C2 C3].
  destruct (negb dep_l && negb dep_r) eqn:C5.
  { injection H as <- <- <-. right. right. left. do 2 (split; [done|]).
    exists (mk_fd_info eq fl fr). do 2 (split; [done|]).
    apply andb_true_iff in C5 as [Hl Hr].
    apply negb_true_iff in Hl, Hr. subst dep_l dep_r. cbn in C1, C3, C4.
    apply bool_decide_eq_false in C1, C3.
    split; [by exists item_l, item_r|]. cbn. do 2 (split; [done|]).
    apply andb_false_iff in C4 as [C4|C4];
      apply negb_false_iff, Nat.eqb_eq in C4; auto. }
  assert (forall dp nd b s,
             extract_new_func_dep_field eq dp nd st = Ret b s ->
             s = st \/
             exists fld T, tables st !! table fld = Some T /\
                           tmp_set T !! field_index fld = Some false /\
                           s = extracted_state st fld T) as Hext.
  { intros dp nd b s Hx.
    apply extract_new_func_dep_field_Ret in Hx
      as [[_ ->]|(_ & n & fld & th & T & _ & _ & HT & Hb & ->)];
      [by left|]. right. by exists fld, T. }
  destruct dep_l; [|destruct dep_r].
  - apply bind_Ret in H as (b & st1 & He & H). injection H as <- <- <-.
    destruct (Hext _ _ _ _ He) as [->|?]; [right; by left|].
    right. right. right. done.
  - apply bind_Ret in H as (b & st1 & He & H). injection H as <- <- <-.
    destruct (Hext _ _ _ _ He) as [->|?]; [right; by left|].
    right. right. right. done.
  - injection H as <- <- <-. right. by left.
Qed.

Lemma raised_in_with_error st it place :
  raised_in place st (with_error st it place).
Proof. by exists (full_name (real_item it)). Qed.

Lemma first_pass_refl w st : first_pass w st false w st.
Proof.
  exists [], 0. rewrite app_nil_r. cbn. repeat split; auto with lia.
Qed.

Lemma first_pass_trans w st w1 st1 err w' st' :
  first_pass w st false w1 st1 -> first_pass w1 st1 err w' st' ->
  first_pass w st err w' st'.
Proof.
  intros (n1 & k1 & E1 & F1 & C1 & R1 & S1) (n2 & k2 & E2 & F2 & C2 & R2 & S2).
  exists (n1 ++ n2), (k1 + k2).
  split; [by rewrite E2, E1, app_assoc|].
  split; [by apply Forall_app|].
  split; [rewrite length_app; lia|]. split.
  - destruct err.
    + destruct R2 as [name R2]. exists name. by rewrite R2, R1.
    + congruence.
  - intros Hk He. rewrite (S2 ltac:(lia) He). apply S1; [lia | done].
Qed.

Lemma first_pass_equality it sl w st err w' st' :
  check_equality_condition it sl w st = Ret (err, w') st' ->
  first_pass w st err w' st'.
Proof.
  unfold check_equality_condition. intros H.
  apply bind_Ret in H as ([e eqs] & st1 & Hc & H). injection H as <- <- <-.
  apply check_equality_on_new_func_dep_Ret in Hc
    as [(-> & -> & w0 & ->)|[(-> & -> & ->)|[(-> & -> & x & -> & _ & Hx)
       |(-> & -> & fld & T & HT & Hb & ->)]]]; cbn.
  - exists [], 1. cbn. rewrite app_nil_r.
    split; [done|]. split; [done|]. split; [lia|].
    split; [apply raised_in_with_error | lia].
  - exists [], 1. cbn. rewrite app_nil_r.
    split; [done|]. split; [done|]. split; [lia|]. split; [done | lia].
  - exists [x], 0. cbn.
    split; [done|]. split; [by constructor|]. split; [lia|]. done.
  - exists [], 1. cbn. rewrite app_nil_r.
    split; [done|]. split; [done|]. split; [lia|]. split; [|lia].
    unfold extracted_state.
    by destruct (materialized_derived (pos_in_table_list T)).
Qed.

Lemma first_pass_other it sl w st err w' st' :
  check_other_condition it sl w st = Ret (err, w') st' ->
  first_pass w st err w' st'.
Proof.
  unfold check_other_condition. intros H.
  apply bind_Ret in H as ([[ok w1] fl] & st1 & Ho & H).
  injection Ho as Ho <-.
  assert (first_pass w st false
            (mk_where_locals (eq_items w) fl w1 (eq_count w)) st) as Hq.
  { exists [], 0. cbn. rewrite app_nil_r. repeat split; auto with lia. }
  destruct (negb ok); [|by injection H as <- <- <-].
  destruct w1 as [it1|]; [|by injection H as <- <- <-].
  apply bind_Ret in H as (u & st1 & Hr & H). injection H as <- <- <-.
  apply report_non_grouping_field_inv in Hr as (it' & [= <-] & ->).
  exists [], 0. cbn. rewrite app_nil_r.
  split; [done|]. split; [done|]. split; [lia|].
  split; [apply raised_in_with_error | done].
Qed.

Lemma first_pass_and_arguments_scan args sl w st err w' st' :
  and_arguments_scan args sl w st = Ret (err, w') st' ->
  first_pass w st err w' st'.
Proof.
  revert w st. induction args as [|it rest IH]; intros w st H.
  - cbn in H. injection H as <- <- <-. apply first_pass_refl.
  - cbn [and_arguments_scan] in H.
    apply bind_Ret in H as ([e w1] & st1 & Hc & H).
    assert (first_pass w st e w1 st1) as H1.
    { destruct (_ && _);
        [by apply first_pass_equality in Hc
        | by apply first_pass_other in Hc]. }
    destruct e; [by injection H as <- <- <-|].
    eapply first_pass_trans; [exact H1 | by apply IH].
Qed.

Lemma first_pass_traverse_where cond sl st err w st' :
  traverse_where cond sl st = Ret (err, w) st' ->
  first_pass (mk_where_locals [] [] None 0) st err w st'.
Proof.
  unfold traverse_where. intros H. destruct (_ && _).
  - apply bind_Ret in H as (args & st1 & Hd & H).
    apply deref_Ret in Hd as [_ ->].
    by apply first_pass_and_arguments_scan in H.
  - destruct (_ && _);
      [by apply first_pass_equality in H | by apply first_pass_other in H].
Qed.

(** X11. The entries of the first pass.  When the traversal of the WHERE
    clause returns, every equality it has deferred is an equality with
    its two arguments, none of them a non-deterministic function item,
    with a non-empty field list on each side and a single field on at
    least one side; there are at most as many deferred equalities as
    equalities met; and if all the equalities met are deferred and no
    error is reported, the traversal has left the state as it was. *)
Theorem first_pass_entries cond sl st err w st' :
  traverse_where cond sl st = Ret (err, w) st' ->
  Forall deferred_entry (eq_items w) /\
  length (eq_items w) <= eq_count w /\
  (err = false -> eq_count w = length (eq_items w) -> st' = st).
Proof.
  intros H.
  apply first_pass_traverse_where in H as (new & k & E & F & C & _ & S).
  cbn in E, C. rewrite E. split; [done|]. split; [lia|].
  intros He Hc. apply S; [lia | done].
Qed.

(** X12. The clause of a WHERE error.  A run of
    [check_where_and_get_new_dependencies] raises at most one condition,
    and the one it may raise is the error ER_NON_GROUPING_FIELD_USED
    with clause "WHERE clause"; a run that answers false has raised
    none. *)
Theorem where_error_place sl mat_derived st r st' :
  check_where_and_get_new_dependencies sl mat_derived st = Ret r st' ->
  (errors st' = errors st \/ raised_in "WHERE clause" st st') /\
  (r = false -> errors st' = errors st).
Proof.
  unfold check_where_and_get_new_dependencies. intros H.
  apply bind_Ret in H as (j & st1 & Hj & H).
  apply deref_Ret in Hj as [_ ->].
  destruct (conds j) as [cond|]; [|injection H as <- <-; auto].
  apply bind_Ret in H as ([err w] & st1 & Ht & H).
  apply first_pass_traverse_where in Ht as (_ & _ & _ & _ & _ & R & _).
  destruct err; [injection H as <- <-; split; [auto | done]|].
  destruct (bool_decide _).
  - apply bind_Ret in H as (k & st2 & Hk & H). injection H as <- <-.
    rewrite (quiet_Ret _ _ _ _ (quiet_check_allowed_unique_keys _) Hk).
    auto.
  - destruct (_ =? _); [injection H as <- <-; auto|].
    apply bind_Ret in H as (k & st2 & Hk & H). injection H as <- <-.
    rewrite (quiet_Ret _ _ _ _ (quiet_eq_items_loop _ _ _ _) Hk). auto.
Qed.

(** X13. Nothing extracted in the first pass.  When the traversal of
    the WHERE clause reports no error and has deferred every equality it
    met, at least one, [check_where_and_get_new_dependencies] answers
    false and leaves the state as it was: neither the keys nor the
    deferred equalities are looked at again. *)
Theorem all_equalities_deferred sl mat_derived st j cond w st1 :
  join sl = Some j -> conds j = Some cond ->
  traverse_where cond sl st = Ret (false, w) st1 ->
  eq_items w <> [] -> eq_count w = length (eq_items w) ->
  check_where_and_get_new_dependencies sl mat_derived st = Ret false st.
Proof.
  intros Hj Hc Ht Hne Hcount.
  assert (st1 = st) as ->.
  { apply first_pass_traverse_where in Ht as (new & k & E & _ & C & _ & S).
    cbn in E, C. apply S; [|done]. rewrite E in Hcount. lia. }
  unfold check_where_and_get_new_dependencies. rewrite Hj. unfold bind at 1.
  cbn [deref ret]. rewrite Hc. unfold bind at 1. rewrite Ht.
  rewrite bool_decide_eq_false_2 by done.
  by rewrite (proj2 (Nat.eqb_eq _ _) Hcount).
Qed.

(** ** The end of the rounds over the deferred equalities *)

Lemma eq_items_round_nothing items ex st items' st' :
  eq_items_round items ex st = Ret (false, items') st' ->
  ex = false /\ st' = st.
Proof.
  revert ex st items'.
  induction items as [|e rest IH]; intros ex st items' H.
  - cbn in H. by injection H as -> _ <-.
  - cbn [eq_items_round] in H.
    apply bind_Ret in H as ([ex1 removed] & st1 & Hp & H).
    apply bind_Ret in H as ([ex2 rest'] & st2 & Hr & H).
    injection H as -> _ <-.
    apply IH in Hr as [-> ->].
    apply process_eq_it_Ret in Hp
      as [(_ & _ & _ & <- & ->)|[(_ & _ & _ & <- & ->)
         |[(_ & _ & _ & a0 & a1 & b & _ & He & Hb)
          |(_ & _ & _ & a0 & a1 & b & _ & He & Hb)]]]; try done.
    + symmetry in Hb. apply orb_false_iff in Hb as [-> ->].
      apply extract_new_func_dep_field_Ret in He as [[_ ->]|[? _]]; done.
    + symmetry in Hb. apply orb_false_iff in Hb as [-> ->].
      apply extract_new_func_dep_field_Ret in He as [[_ ->]|[? _]]; done.
Qed.

Lemma eq_items_loop_body_sublist sl items st ex items' st' :
  eq_items_loop_body sl items st = Ret (ex, items') st' ->
  sublist items' items /\
  (ex = false ->
   st' = st /\ Forall (unresolved st) items' /\
   check_allowed_unique_keys sl st = Ret false st).
Proof.
  unfold eq_items_loop_body. intros H.
  apply bind_Ret in H as ([ex1 items1] & st1 & Hr & H).
  pose proof (eq_items_round_Ret _ _ _ _ _ _ Hr) as (_ & Hsub & Hun & _).
  destruct (negb ex1 || bool_decide (items1 = [])) eqn:Hc.
  - apply bind_Ret in H as (keys & st2 & Hk & H). injection H as <- <- <-.
    split; [done|]. intros E.
    destruct keys; [done|]. subst ex1.
    apply eq_items_round_nothing in Hr as [_ ->].
    pose proof (check_allowed_unique_keys_from_Ret _ _ _ _ _ Hk)
      as (_ & _ & Hf & _).
    destruct (Hf eq_refl) as [_ ->]. done.
  - injection H as <- <- <-. split; [done|]. intros ->. done.
Qed.

Lemma eq_items_loop_end fuel sl ex items st items' st' :
  eq_items_loop fuel sl ex items st = Ret items' st' ->
  sublist items' items /\
  (ex = true -> items' <> [] ->
   Forall (unresolved st') items' /\
   check_allowed_unique_keys sl st' = Ret false st').
Proof.
  revert ex items st.
  induction fuel as [|fuel IH]; intros ex items st H; cbn in H.
  - destruct (ex && negb (bool_decide (items = []))) eqn:C; [done|].
    injection H as <- <-. split; [done|]. intros -> Hne. cbn in C.
    apply negb_false_iff, bool_decide_eq_true in C. done.
  - destruct (ex && negb (bool_decide (items = []))) eqn:C.
    + apply bind_Ret in H as ([ex1 items1] & st1 & Hb & H).
      apply eq_items_loop_body_sublist in Hb as [Hsub1 Hb].
      pose proof H as H'. apply IH in H as [Hsub2 Hend].
      split; [by etrans|]. intros _ Hne.
      destruct ex1; [by apply Hend|].
      destruct (Hb eq_refl) as (-> & Hun & Hk).
      assert (items' = items1 /\ st' = st) as [-> ->].
      { destruct fuel; cbn in H'; by injection H' as <- <-. }
      done.
    + injection H as <- <-. split; [done|]. intros -> Hne. cbn in C.
      apply negb_false_iff, bool_decide_eq_true in C. done.
Qed.

(** X14. The end of the rounds.  When the loop over the deferred
    equalities returns, the equalities left are among those it started
    with, in their order; and if some are left, then in the final state
    neither side of any of them is built from allowed fields only and a
    further run of Key Closure changes nothing and answers false. *)
Theorem deferred_loop_fixed_point fuel sl items st items' st' :
  eq_items_loop fuel sl true items st = Ret items' st' ->
  sublist items' items /\
  (items' <> [] ->
   Forall (unresolved st') items' /\
   check_allowed_unique_keys sl st' = Ret false st').
Proof.
  intros H. apply eq_items_loop_end in H as [Hsub Hend]. auto.
Qed.

(** ** Grouping by a key, grouping by a column of a derived table *)

Lemma collect_gb_fields_Ret sl md gb st r md' gb' st' :
  group_list sl <> [] ->
  collect_gb_fields sl md gb st = Ret (r, md', gb') st' ->
  exists st1 st2 keys derived,
    collect_gb_scan (group_list sl) gb st = Ret gb' st1 /\
    check_allowed_unique_keys sl st1 = Ret keys st2 /\
    check_allowed_materialized_derived md st2 = Ret (derived, md') st' /\
    forall fld, grouped_column sl fld -> field_allowed st1 fld.
Proof.
  intros Hne H. unfold collect_gb_fields in H.
  apply bind_Ret in H as (j & st0 & Hj & H).
  apply deref_Ret in Hj as [_ ->].
  destruct (group_list sl) as [|g gl] eqn:Hgl; [done|].
  apply bind_Ret in H as (gb1 & st1 & Hs & H).
  apply bind_Ret in H as (keys & st2 & Hk & H).
  apply bind_Ret in H as ([derived md1] & st3 & Hd & H).
  injection H as <- <- <- <-.
  exists st1, st2, keys, derived. do 3 (split; [done|]).
  intros fld (it & Hin & Hc & Hf). unfold grouped_column in *.
  rewrite Hgl in Hin.
  destruct (collect_gb_scan_Ret _ _ _ _ _ Hs) as [_ Hcols].
  destruct (Hcols it Hin Hc) as (fld' & Hf' & Ha). congruence.
Qed.

(** X15. Grouping by a key.  When the GROUP BY list of a block names, as
    column references, every field of the primary key or of a key
    flagged HA_NOSAME of one of its leaf tables, every column of that
    table is allowed when [collect_gb_fields] returns. *)
Theorem group_by_key_fills_table sl md gb st r md' gb' st' tbl t T k :
  group_list sl <> [] ->
  collect_gb_fields sl md gb st = Ret (r, md', gb') st' ->
  tbl ∈ leaf_tables sl -> tl_table tbl = Some t ->
  tables st !! t = Some T ->
  (primary_key T < MAX_KEY /\ key_info T !! primary_key T = Some k) \/
  (k ∈ key_info T /\ Z.land (flags k) HA_NOSAME <> 0%Z) ->
  Forall (grouped_column sl) (key_part k) ->
  table_full st' t.
Proof.
  intros Hne H Hin Ht HT Hkey Hall.
  destruct (collect_gb_fields_Ret _ _ _ _ _ _ _ _ Hne H)
    as (st1 & st2 & keys & derived & Hs & Hk & Hd & Hcols).
  pose proof (grows_Ret _ _ _ _ (grows_collect_gb_scan _ _) Hs) as Hle1.
  destruct (state_le_lookup _ _ _ _ Hle1 HT) as (T1 & HT1 & HTle).
  assert (has_allowed_key st1 T1) as Hak.
  { apply (has_allowed_key_le st1 st1 T T1);
      [apply state_le_refl | done |].
    assert (key_allowed st1 k) as Hka.
    { unfold key_allowed. eapply Forall_impl; [exact Hall|]. auto. }
    destruct Hkey as [[Hlt Hpk]|[Hk' Hf]]; [left | right]; eauto. }
  apply check_allowed_unique_keys_from_Ret in Hk as (_ & Hfull & _).
  eapply table_full_le.
  - exact (grows_Ret _ _ _ _
             (grows_check_allowed_materialized_derived md) Hd).
  - by eapply Hfull.
Qed.

(** X16. Grouping by a column of a materialized derived table.  When the
    GROUP BY list of a block names, as a column reference, a column of a
    table of the list of materialized derived tables, every column of
    that table is allowed when [collect_gb_fields] returns, and the
    table has left the list. *)
Theorem group_by_derived_column sl md gb st r md' gb' st' tbl fld :
  group_list sl <> [] ->
  collect_gb_fields sl md gb st = Ret (r, md', gb') st' ->
  tbl ∈ md -> tl_table tbl = Some (table fld) ->
  grouped_column sl fld ->
  table_full st' (table fld) /\ tbl ∉ md'.
Proof.
  intros Hne H Hin Ht Hg.
  destruct (collect_gb_fields_Ret _ _ _ _ _ _ _ _ Hne H)
    as (st1 & st2 & keys & derived & Hs & Hk & Hd & Hcols).
  pose proof (grows_Ret _ _ _ _ (grows_check_allowed_unique_keys _) Hk)
    as Hle2.
  assert (allowed_set_clear_b st2 tbl = false) as Hnc.
  { destruct (field_allowed_le _ _ _ Hle2 (Hcols _ Hg)) as (T & HT & Hb).
    unfold allowed_set_clear_b. rewrite Ht, HT.
    by eapply bitmap_not_clear_lookup. }
  unfold check_allowed_materialized_derived in Hd.
  destruct md as [|m0 md0] eqn:Hmd; [by apply elem_of_nil in Hin|].
  rewrite <- Hmd in *. clear Hmd.
  apply bind_Ret in Hd as (md1 & st3 & Hscan & Hd).
  injection Hd as _ <- <-.
  apply mat_derived_scan_Ret in Hscan as (-> & Hfull & _).
  split; [by eapply Hfull|].
  intros Hin'. apply list_elem_of_In, filter_In in Hin' as [_ Hc].
  congruence.
Qed.

(** ** An equality that gives a new allowed column *)

Lemma extract_new_func_dep_field_fresh eq dp name fld th T st :
  compare_type_handler eq = Some (type_handler_for_comparison dp) ->
  tables st !! table fld = Some T ->
  tmp_set T !! field_index fld = Some false ->
  extract_new_func_dep_field eq dp (Item_field name fld th) st
  = Ret true (extracted_state st fld T).
Proof.
  intros Hc HT Hb.
  rewrite (extract_new_func_dep_field_column _ _ _ _ _ _ T _ Hc HT).
  - rewrite bool_decide_eq_true_2 by done. by rewrite Hb.
  - apply lookup_lt_is_Some. by eexists.
Qed.

(** X17. An equality between a closed side and a column.  Take an
    equality of a block with a join, one side of which is a column that
    is not allowed yet and the other side an expression of the
    comparison type of the equality that is not a non-deterministic
    function item.  If the second capability finds the other side
    closed over allowed fields and the column not, with at least one
    field on the side of the column and a single field on one of the
    sides, then [check_equality_on_new_func_dep] reports no error, does
    not defer the equality and makes the column allowed (and the whole
    table with it when the table is a materialized derived table),
    whether the column is the right or the left argument. *)
Theorem equality_gives_new_column
    sl name det cmp cname fld th other eqs st T :
  is_Some (join sl) ->
  is_non_deterministic_func other = false ->
  type_handler_for_comparison other = cmp ->
  tables st !! table fld = Some T ->
  tmp_set T !! field_index fld = Some false ->
  (forall w w' fo fc,
      Item_excl_func_dep_from_equalities st sl other None [] = (true, w, fo) ->
      Item_excl_func_dep_from_equalities st sl (Item_field cname fld th) w []
      = (false, w', fc) ->
      fc <> [] -> length fo = 1 \/ length fc = 1 ->
      check_equality_on_new_func_dep
        (Item_func_eq name det cmp other (Item_field cname fld th)) sl eqs st
      = Ret (false, eqs) (extracted_state st fld T)) /\
  (forall w w' fo fc,
      Item_excl_func_dep_from_equalities st sl (Item_field cname fld th)
                                         None []
      = (false, w, fc) ->
      Item_excl_func_dep_from_equalities st sl other w [] = (true, w', fo) ->
      fc <> [] -> length fc = 1 \/ length fo = 1 ->
      check_equality_on_new_func_dep
        (Item_func_eq name det cmp (Item_field cname fld th) other) sl eqs st
      = Ret (false, eqs) (extracted_state st fld T)).
Proof.
  intros [j Hj] Hnd Hth HT Hb.
  assert (is_non_deterministic_func (Item_field cname fld th) = false)
    as Hcol by reflexivity.
  split.
  - intros w w' fo fc Ho Hc Hne Hlen.
    unfold check_equality_on_new_func_dep. rewrite Hj.
    unfold bind at 1. cbn [deref ret arguments].
    unfold bind at 1. cbn [deref ret]. rewrite Hnd, Hcol. cbn [orb].
    unfold bind at 1, excl_func_dep_from_equalities at 1. rewrite Ho.
    cbn [negb andb].
    unfold bind at 1, excl_func_dep_from_equalities at 1. rewrite Hc.
    cbn [negb andb orb]. rewrite bool_decide_eq_false_2 by done.
    replace (negb (length fo =? 1) && negb (length fc =? 1)) with false
      by (destruct Hlen as [-> | ->]; cbn; by rewrite ?andb_false_r).
    cbn [orb]. unfold bind at 1.
    rewrite (extract_new_func_dep_field_fresh _ _ _ _ _ T); try done.
    cbn. by rewrite Hth.
  - intros w w' fo fc Hc Ho Hne Hlen.
    unfold check_equality_on_new_func_dep. rewrite Hj.
    unfold bind at 1. cbn [deref ret arguments].
    unfold bind at 1. cbn [deref ret]. rewrite Hnd, Hcol. cbn [orb].
    unfold bind at 1, excl_func_dep_from_equalities at 1. rewrite Hc.
    cbn [negb andb]. rewrite bool_decide_eq_false_2 by done.
    unfold bind at 1, excl_func_dep_from_equalities at 1. rewrite Ho.
    cbn [negb andb orb].
    replace (negb (length fc =? 1) && negb (length fo =? 1)) with false
      by (destruct Hlen as [-> | ->]; cbn; by rewrite ?andb_false_r).
    cbn [orb]. unfold bind at 1.
    rewrite (extract_new_func_dep_field_fresh _ _ _ _ _ T); try done.
    cbn. by rewrite Hth.
Qed.

(** X18. What an extraction does.  A run of [extract_new_func_dep_field]
    raises nothing.  When it answers false it leaves the state as it
    was.  When it answers true, the candidate part is a column item, the
    other part has the comparison type of the equality, the column was
    not allowed and is allowed now, and no other table is touched; if
    the table of the column is a materialized derived table all its
    columns are allowed now, otherwise the other columns of the table
    are allowed exactly when they were. *)
Theorem extraction_outcome eq dp nd st b st' :
  extract_new_func_dep_field eq dp nd st = Ret b st' ->
  errors st' = errors st /\
  (b = false -> st' = st) /\
  (b = true ->
   exists fld T,
     Item_field_field nd = Some fld /\
     compare_type_handler eq = Some (type_handler_for_comparison dp) /\
     tables st !! table fld = Some T /\
     ~ field_allowed st fld /\ field_allowed st' fld /\
     (forall t, t <> table fld -> tables st' !! t = tables st !! t) /\
     (materialized_derived (pos_in_table_list T) = true ->
      table_full st' (table fld)) /\
     (materialized_derived (pos_in_table_list T) = false ->
      forall i, i <> field_index fld ->
        field_allowed st' (mkField (table fld) i)
        <-> field_allowed st (mkField (table fld) i))).
Proof.
  intros H.
  split; [exact (quiet_Ret _ _ _ _
                   (quiet_extract_new_func_dep_field _ _ _) H)|].
  apply extract_new_func_dep_field_Ret in H
    as [[-> ->]|(-> & name & fld & th & T & -> & Hc & HT & Hb & ->)].
  { split; [done|]. discriminate. }
  split; [discriminate|]. intros _. exists fld, T.
  do 3 (split; [done|]).
  assert (field_index fld < length (tmp_set T)) as Hlt
    by (apply lookup_lt_is_Some; by eexists).
  split.
  { intros (T' & HT' & Hb'). congruence. }
  unfold extracted_state.
  destruct (materialized_derived (pos_in_table_list T)) eqn:Hmd.
  - split; [|split; [|split; [|done]]].
    + eexists. cbn. rewrite lookup_insert_eq. split; [done|]. cbn.
      unfold bitmap_set_all. apply lookup_replicate_2.
      by rewrite length_insert.
    + intros t Hne. cbn. by rewrite !lookup_insert_ne.
    + intros _. apply mark_table_full.
  - split; [|split; [|split; [done|]]].
    + eexists. cbn. rewrite lookup_insert_eq. split; [done|]. cbn.
      by apply list_lookup_insert_eq.
    + intros t Hne. cbn. by rewrite lookup_insert_ne.
    + intros _ i Hi. unfold field_allowed. cbn.
      rewrite lookup_insert_eq. split.
      * intros (T' & [= <-] & Hb'). cbn in Hb'.
        rewrite list_lookup_insert_ne in Hb' by done. eauto.
      * intros (T' & HT' & Hb'). eexists. split; [done|]. cbn.
        rewrite list_lookup_insert_ne by done. congruence.
Qed.

(** ** The guard on non-deterministic functions and references *)

Lemma extracted_state_allowed st fld T :
  tables st !! table fld = Some T ->
  tmp_set T !! field_index fld = Some false ->
  field_allowed (extracted_state st fld T) fld.
Proof.
  intros HT Hb.
  assert (field_index fld < length (tmp_set T)) as Hlt
    by (apply lookup_lt_is_Some; by eexists).
  unfold extracted_state.
  destruct (materialized_derived (pos_in_table_list T)).
  - eexists. cbn. rewrite lookup_insert_eq. split; [done|]. cbn.
    unfold bitmap_set_all. apply lookup_replicate_2.
    by rewrite length_insert.
  - eexists. cbn. rewrite lookup_insert_eq. split; [done|]. cbn.
    by apply list_lookup_insert_eq.
Qed.

Lemma check_equality_column_left
    sl name det cmp cname fld th other eqs st T w w' fc fo :
  is_Some (join sl) ->
  is_non_deterministic_func other = false ->
  type_handler_for_comparison other = cmp ->
  tables st !! table fld = Some T ->
  tmp_set T !! field_index fld = Some false ->
  Item_excl_func_dep_from_equalities st sl (Item_field cname fld th) None []
  = (false, w, fc) ->
  Item_excl_func_dep_from_equalities st sl other w [] = (true, w', fo) ->
  fc <> [] -> length fc = 1 \/ length fo = 1 ->
  check_equality_on_new_func_dep
    (Item_func_eq name det cmp (Item_field cname fld th) other) sl eqs st
  = Ret (false, eqs) (extracted_state st fld T).
Proof.
  intros [j Hj] Hnd Hth HT Hb Hc Ho Hne Hlen.
  assert (is_non_deterministic_func (Item_field cname fld th) = false)
    as Hcol by reflexivity.
  unfold check_equality_on_new_func_dep. rewrite Hj.
  unfold bind at 1. cbn [deref ret arguments].
  unfold bind at 1. cbn [deref ret]. rewrite Hnd, Hcol. cbn [orb].
  unfold bind at 1, excl_func_dep_from_equalities at 1. rewrite Hc.
  cbn [negb andb]. rewrite bool_decide_eq_false_2 by done.
  unfold bind at 1, excl_func_dep_from_equalities at 1. rewrite Ho.
  cbn [negb andb orb].
  replace (negb (length fc =? 1) && negb (length fo =? 1)) with false
    by (destruct Hlen as [-> | ->]; cbn; by rewrite ?andb_false_r).
  cbn [orb]. unfold bind at 1.
  rewrite (extract_new_func_dep_field_fresh _ _ _ _ _ T); try done.
  cbn. by rewrite Hth.
Qed.


(** ** Error handling *)

Lemma select_list_scan_pass sl gb items st :
  Forall (passes st sl gb) items ->
  select_list_scan sl gb items st = Ret true st.
Proof.
  induction 1 as [|x rest Hx Hrest IH]; cbn; [done|].
  unfold bind at 1, excl_func_dep_on_grouping_fields. unfold passes in Hx.
  destruct (Item_excl_func_dep_on_grouping_fields st sl gb x None)
    as [ok w']. cbn in Hx. subst ok. exact IH.
Qed.

Lemma check_other_condition_violation it sl w st x fl :
  Item_excl_func_dep_from_equalities st sl it (item_arg w) (fields w)
  = (false, Some x, fl) ->
  check_other_condition it sl w st
  = Ret (true, mk_where_locals (eq_items w) fl (Some x) (eq_count w))
        (with_error st x "WHERE clause").
Proof.
  intros Ho. unfold check_other_condition.
  unfold bind at 1, excl_func_dep_from_equalities. by rewrite Ho.
Qed.

Lemma and_arguments_scan_app pre rest sl w st w1 st1 :
  and_arguments_scan pre sl w st = Ret (false, w1) st1 ->
  and_arguments_scan (pre ++ rest) sl w st
  = and_arguments_scan rest sl w1 st1.
Proof.
  revert w st. induction pre as [|it pre IH]; intros w st H.
  - cbn in H. by injection H as <- <-.
  - cbn [and_arguments_scan app] in *.
    apply bind_Ret in H as ([e w2] & st2 & Hc & H).
    unfold bind at 1. rewrite Hc.
    destruct e; [by injection H|]. by apply IH.
Qed.

Lemma check_func_dep_reaches_closure sl st r st' :
  leaf_tables sl <> [] ->
  select_number sl <> UINT_MAX -> select_number sl <> INT_MAX ->
  need_check sl = true ->
  check_func_dep sl st = Ret r st' ->
  exists md st0, check_func_dep_closure sl md st0 = Ret r st'.
Proof.
  intros Hleaf Hn1 Hn2 Hneed H. unfold check_func_dep in H.
  apply bind_Ret in H as (j & st0 & Hj & H).
  apply deref_Ret in Hj as [_ ->].
  rewrite bool_decide_eq_false_2 in H by done.
  apply Z.eqb_neq in Hn1, Hn2. rewrite Hn1, Hn2 in H. cbn in H.
  apply bind_Ret in H as (md & st1 & Hc & H).
  unfold check_func_dep_cleared in H.
  apply bind_Ret in H as (u & st2 & Hu & H).
  apply bind_Ret in H as (u' & st3 & Hs & H).
  rewrite Hneed in H. cbn in H.
  destruct (_ && _).
  - apply bind_Ret in H as (u'' & st4 & Ha & H). eauto.
  - eauto.
Qed.


End Analyzer.

(** * The analysis on the sample blocks *)

Import Samples.

Local Abbreviation the_MAX_KEY := Capabilities.MAX_KEY.
Local Abbreviation the_HA_NOSAME := Capabilities.HA_NOSAME.
Local Abbreviation cap_a := Capabilities.excl_func_dep_on_grouping_fields.
Local Abbreviation cap_b := Capabilities.excl_func_dep_from_equalities.
Local Abbreviation analyze :=
  (check_func_dep the_MAX_KEY the_HA_NOSAME cap_a cap_b).

(** The four scenarios of the description of the analyzer. *)
Example scenario_not_dependent :
  analyze q_a_b_by_a st_t
  = Ret true (with_error (st_bits [false; true; false]) b "SELECT list").
Proof. vm_compute. reflexivity. Qed.

Example scenario_equality :
  analyze q_eq_a_plus_1 st_t = Ret false (st_bits [false; true; true]).
Proof. vm_compute. reflexivity. Qed.

Example scenario_primary_key :
  analyze q_by_pk st_t = Ret false (st_bits [true; true; true]).
Proof. vm_compute. reflexivity. Qed.

Example scenario_rand :
  analyze q_eq_rand st_t
  = Ret true (with_error (st_bits [false; true; false]) b "SELECT list").
Proof. vm_compute. reflexivity. Qed.

(** The second scenario with the column [b] reached through a reference:
    the whole analysis has no defined result. *)
Example scenario_equality_through_reference :
  analyze q_ref_eq st_t = Undef.
Proof. vm_compute. reflexivity. Qed.

(** ** C1 *)

Lemma extract_through_reference_undefined_witness :
  type (real_item v_b) = FIELD_ITEM /\
  compare_type_handler v_b_eq_a_plus_1 = Some type_handler_slonglong /\
  type_handler_for_comparison a_plus_1 = type_handler_slonglong /\
  extract_new_func_dep_field v_b_eq_a_plus_1 a_plus_1 v_b
                             (st_bits [false; true; false])
  = Undef.
Proof.
  split; [reflexivity|]. split; [reflexivity|]. split; [reflexivity|].
  apply (extract_through_reference_undefined
           v_b_eq_a_plus_1 a_plus_1 "v.b" b type_handler_slonglong);
    reflexivity.
Defined.

(** ** C2 *)

Lemma key_closure_correct_witness :
  leaf_tables_wf the_MAX_KEY (st_bits [true; false; false])
                 (leaf_tables q_by_pk) /\
  exists r st',
    check_allowed_unique_keys the_MAX_KEY the_HA_NOSAME q_by_pk
                              (st_bits [true; false; false])
    = Ret r st' /\
    (forall tbl t T,
        tbl ∈ leaf_tables q_by_pk -> tl_table tbl = Some t ->
        tables (st_bits [true; false; false]) !! t = Some T ->
        bitmap_is_set_all (tmp_set T) = false ->
        has_allowed_key the_MAX_KEY the_HA_NOSAME
                        (st_bits [true; false; false]) T ->
        table_full st' t) /\
    (r = true <-> allowed_set_changed (st_bits [true; false; false]) st').
Proof.
  assert (leaf_tables_wf the_MAX_KEY (st_bits [true; false; false])
                         (leaf_tables q_by_pk)) as Hwf.
  { constructor; [|constructor]. intros t0 [= <-].
    exists (t_bits [true; false; false]). split; [reflexivity|].
    split; [cbn; lia|]. constructor; [|constructor].
    constructor; [|constructor].
    exists (t_bits [true; false; false]). split; [reflexivity | cbn; lia]. }
  split; [exact Hwf|].
  exact (key_closure_correct the_MAX_KEY the_HA_NOSAME q_by_pk _ Hwf).
Defined.

(** ** C4 *)

Lemma non_deterministic_equality_skipped_witness :
  is_Some (join q_eq_rand) /\
  arguments b_eq_rand = Some (b, rand) /\
  (is_non_deterministic_func b = true \/
   is_non_deterministic_func rand = true) /\
  check_equality_on_new_func_dep cap_b b_eq_rand q_eq_rand []
                                 (st_bits [false; true; false])
  = Ret (false, []) (st_bits [false; true; false]).
Proof.
  assert (is_Some (join q_eq_rand)) as Hj by (by eexists).
  assert (is_non_deterministic_func b = true \/
          is_non_deterministic_func rand = true) as Hnd
    by (right; reflexivity).
  split; [exact Hj|]. split; [reflexivity|]. split; [exact Hnd|].
  exact (non_deterministic_equality_skipped cap_b b_eq_rand b rand
           q_eq_rand [] _ Hj eq_refl Hnd).
Defined.

(** With the second capability as it is described, the fourth scenario
    with [rand()] reached through a reference, the column [v.r] of a
    merged view: the equality [t.b = v.r] is not skipped, it makes the
    column [t.b] allowed, and the block is accepted. *)
Example scenario_rand_through_reference :
  analyze q_eq_v_r st_t = Ret false (st_bits [false; true; true]).
Proof. vm_compute. reflexivity. Qed.


(** ** C5 *)

Lemma deferred_equality_round_witness :
  eq_items_round [x_eq_b_deferred] false
                 (st_bits2 [true; false; false] [false; true])
  = Ret (false, [x_eq_b_deferred])
        (st_bits2 [true; false; false] [false; true]) /\
  sublist [x_eq_b_deferred] [x_eq_b_deferred] /\
  Forall (fun e =>
            ~ fields_allowed (st_bits2 [true; false; false] [false; true])
                             (fields_l e) /\
            ~ fields_allowed (st_bits2 [true; false; false] [false; true])
                             (fields_r e))
         [x_eq_b_deferred].
Proof.
  assert (eq_items_round [x_eq_b_deferred] false
                         (st_bits2 [true; false; false] [false; true])
          = Ret (false, [x_eq_b_deferred])
                (st_bits2 [true; false; false] [false; true])) as H
    by (vm_compute; reflexivity).
  split; [exact H|].
  pose proof (proj1 (deferred_equality_round _ _ _ _ _ _ H)) as (Hs & Hf & _).
  exact (conj Hs Hf).
Defined.

(** C5 fails as stated: in the first round over the worklist of
    [q_two_tables] neither side of [u.x = t.b] is satisfied, and the
    equality stays in the worklist; it is tried again in the second
    round, after Key Closure has made [t.b] allowed, and then makes
    [u.x] allowed, so that the block is accepted. *)
Lemma deferred_equality_kept_and_retried :
  eq_items_round [x_eq_b_deferred] false
                 (st_bits2 [true; false; false] [false; true])
  = Ret (false, [x_eq_b_deferred])
        (st_bits2 [true; false; false] [false; true]) /\
  eq_items_loop the_MAX_KEY the_HA_NOSAME 3 q_two_tables true
                [x_eq_b_deferred]
                (st_bits2 [true; false; false] [false; true])
  = Ret [] (st_bits2 [true; true; true] [true; true]) /\
  analyze q_two_tables st_tu
  = Ret false (st_bits2 [true; true; true] [true; true]).
Proof. repeat split; vm_compute; reflexivity. Qed.

(** ** C6 *)


(** ** C7 *)

Lemma trivial_pass_witness :
  exists st',
    analyze q_plain st_t = Ret false st' /\
    errors st' = errors st_t /\
    all_full st' (leaf_tables q_plain).
Proof.
  apply (trivial_pass the_MAX_KEY the_HA_NOSAME cap_a cap_b q_plain st_t).
  - by eexists.
  - discriminate.
  - discriminate.
  - reflexivity.
  - reflexivity.
  - constructor; [|constructor]. exists 0. split; [reflexivity|].
    by eexists.
  - intros i o Hi. discriminate Hi.
  - intros o Ho. discriminate Ho.
Defined.

(** C7 fails as stated: the analysis of an internal placeholder block
    with an empty GROUP BY list, no HAVING clause and no outer block
    returns success at once and leaves the Allowed-Set of its table as it
    was, here empty. *)
Lemma placeholder_block_not_marked :
  group_list q_placeholder = [] /\ having q_placeholder = None /\
  outer_select (master_unit q_placeholder) = None /\
  analyze q_placeholder st_t = Ret false st_t /\
  ~ all_full st_t (leaf_tables q_placeholder).
Proof.
  do 3 (split; [reflexivity|]). split; [vm_compute; reflexivity|].
  intros H. destruct (H t_ref 0) as (T & HT & Hf).
  - apply elem_of_cons. by left.
  - reflexivity.
  - vm_compute in HT. injection HT as <-. discriminate Hf.
Qed.

(** ** C8 *)

(** SELECT a FROM t GROUP BY a HAVING b > 0: the HAVING clause uses a
    column that is not allowed. *)
Example scenario_having_violation :
  analyze q_having st_t
  = Ret true (with_error (st_bits [false; true; false]) b "HAVING clause").
Proof. vm_compute. reflexivity. Qed.

(** SELECT a FROM t WHERE a = u.x GROUP BY a: the WHERE clause uses a
    column of an outer block that is not allowed. *)
Example scenario_where_violation :
  analyze q_outer_reference st_tu
  = Ret true (with_error (st_bits2 [false; true; false] [false; false]) x
                         "WHERE clause").
Proof. vm_compute. reflexivity. Qed.


(** ** C9 *)

Lemma group_by_collector_witness :
  (group_list q_plain = [] /\ is_Some (join q_plain) /\
   collect_gb_fields the_MAX_KEY the_HA_NOSAME q_plain [] []
                     (st_bits [true; false; false])
   = Ret (false, [], []) (st_bits [true; false; false])) /\
  group_list q_by_pk <> [] /\
  collect_gb_fields the_MAX_KEY the_HA_NOSAME q_by_pk [] [] st_t
  = Ret (false, [], []) (st_bits [true; true; true]) /\
  (forall it, it ∈ group_list q_by_pk -> is_column_reference it = true ->
     exists fld, column_of it = Some fld /\
                 field_allowed (st_bits [true; true; true]) fld).
Proof.
  assert (is_Some (join q_plain)) as Hj by (by eexists).
  assert (group_list q_by_pk <> []) as Hne by discriminate.
  assert (collect_gb_fields the_MAX_KEY the_HA_NOSAME q_by_pk [] [] st_t
          = Ret (false, [], []) (st_bits [true; true; true])) as H
    by (vm_compute; reflexivity).
  split.
  { split; [reflexivity|]. split; [exact Hj|].
    exact (proj1 (group_by_collector the_MAX_KEY the_HA_NOSAME q_plain
                    [] [] (st_bits [true; false; false])) eq_refl Hj). }
  split; [exact Hne|]. split; [exact H|].
  exact (proj1 (proj2 (proj2 (group_by_collector the_MAX_KEY the_HA_NOSAME
                                q_by_pk [] [] st_t) _ _ _ _ Hne H))).
Defined.

(** C9 fails as stated.  The block [q_derived_under_aggregate] has an
    empty GROUP BY list and sits under an outer block with a join, so
    that [check_func_dep] calls the collector on it: after the clearing,
    the UPDATE case and the tagging, all the columns of the derived
    table [d] are marked allowed and [d] is still in the list of pending
    derived tables.  One run of Derived-Table Closure in that state
    takes [d] out of the list; the collector returns at once with [d]
    still in it. *)
Lemma collector_without_group_by_runs_no_closure :
  group_list q_derived_under_aggregate = [] /\
  clear_and_collect (leaf_tables q_derived_under_aggregate) []
    (st_derived [false; false; false] [true; false] [false])
  = Ret [d_ref] (st_derived [false; false; false] [false; false] [false]) /\
  set_update_table_fields q_derived_under_aggregate
    (st_derived [false; false; false] [false; false] [false])
  = Ret tt (st_derived [false; false; false] [false; false] [false]) /\
  set_subqueries_context q_derived_under_aggregate
    (st_derived [false; false; false] [false; false] [false])
  = Ret tt (st_derived [false; false; false] [false; false] [false]) /\
  set_all_tables (leaf_tables q_derived_under_aggregate)
    (st_derived [false; false; false] [false; false] [false])
  = Ret tt (st_derived [false; false; false] [true; true] [false]) /\
  collect_gb_fields the_MAX_KEY the_HA_NOSAME q_derived_under_aggregate
    [d_ref] [] (st_derived [false; false; false] [true; true] [false])
  = Ret (false, [d_ref], [])
        (st_derived [false; false; false] [true; true] [false]) /\
  check_allowed_materialized_derived [d_ref]
    (st_derived [false; false; false] [true; true] [false])
  = Ret (true, []) (st_derived [false; false; false] [true; true] [false]) /\
  analyze q_derived_under_aggregate
    (st_derived [false; false; false] [true; false] [false])
  = Ret false (st_derived [false; false; false] [true; true] [false]).
Proof. repeat split; vm_compute; reflexivity. Qed.

(** ** C10 *)

Lemma satisfied_equality_dropped_witness :
  fields_allowed (st_bits2 [true; true; true] [true; true])
                 (fields_l x_eq_b_deferred) /\
  fields_allowed (st_bits2 [true; true; true] [true; true])
                 (fields_r x_eq_b_deferred) /\
  process_eq_it x_eq_b_deferred false
                (st_bits2 [true; true; true] [true; true])
  = Ret (false, true) (st_bits2 [true; true; true] [true; true]) /\
  eq_items_round [x_eq_b_deferred] false
                 (st_bits2 [true; true; true] [true; true])
  = eq_items_round [] false (st_bits2 [true; true; true] [true; true]).
Proof.
  assert (fields_allowed (st_bits2 [true; true; true] [true; true])
                         (fields_l x_eq_b_deferred)) as HL.
  { constructor; [|constructor].
    exists (u_bits [true; true]). split; reflexivity. }
  assert (fields_allowed (st_bits2 [true; true; true] [true; true])
                         (fields_r x_eq_b_deferred)) as HR.
  { constructor; [|constructor].
    exists (t_bits [true; true; true]). split; reflexivity. }
  split; [exact HL|]. split; [exact HR|].
  exact (satisfied_equality_dropped x_eq_b_deferred [] false _ HL HR).
Defined.

(** * The further properties on the sample blocks *)

(** ** Derived-Table Closure *)

Lemma derived_closure_correct_witness :
  check_allowed_materialized_derived [d_ref; e_ref]
    (st_derived [false; false; false] [true; false] [false])
  = Ret (true, [e_ref])
        (st_derived [false; false; false] [true; true] [false]) /\
  table_full (st_derived [false; false; false] [true; true] [false]) 2.
Proof.
  assert (check_allowed_materialized_derived [d_ref; e_ref]
            (st_derived [false; false; false] [true; false] [false])
          = Ret (true, [e_ref])
                (st_derived [false; false; false] [true; true] [false]))
    as H by (vm_compute; reflexivity).
  split; [exact H|].
  destruct (derived_closure_correct _ _ _ _ _ H) as (_ & Hfull & _).
  apply (Hfull d_ref 2); [apply elem_of_cons; by left | reflexivity..].
Defined.

Lemma derived_closure_idempotent_witness :
  check_allowed_materialized_derived [d_ref; e_ref]
    (st_derived [false; false; false] [true; false] [false])
  = Ret (true, [e_ref])
        (st_derived [false; false; false] [true; true] [false]) /\
  check_allowed_materialized_derived [e_ref]
    (st_derived [false; false; false] [true; true] [false])
  = Ret (false, [e_ref])
        (st_derived [false; false; false] [true; true] [false]).
Proof.
  assert (check_allowed_materialized_derived [d_ref; e_ref]
            (st_derived [false; false; false] [true; false] [false])
          = Ret (true, [e_ref])
                (st_derived [false; false; false] [true; true] [false]))
    as H by (vm_compute; reflexivity).
  split; [exact H|].
  exact (derived_closure_idempotent _ _ _ _ _ H).
Defined.

(** ** Key Closure *)

Lemma key_closure_all_or_nothing_witness :
  check_allowed_unique_keys the_MAX_KEY the_HA_NOSAME q_by_pk
                            (st_bits [true; false; false])
  = Ret true (st_bits [true; true; true]) /\
  (tables (st_bits [true; true; true]) !! 0
   = tables (st_bits [true; false; false]) !! 0
   \/ exists tbl T,
        tbl ∈ leaf_tables q_by_pk /\ tl_table tbl = Some 0 /\
        tables (st_bits [true; false; false]) !! 0 = Some T /\
        bitmap_is_set_all (tmp_set T) = false /\
        tables (st_bits [true; true; true]) !! 0
        = Some (with_tmp_set T (bitmap_set_all (tmp_set T))) /\
        has_allowed_key the_MAX_KEY the_HA_NOSAME
          (st_bits [true; true; true])
          (with_tmp_set T (bitmap_set_all (tmp_set T)))).
Proof.
  assert (check_allowed_unique_keys the_MAX_KEY the_HA_NOSAME q_by_pk
                                    (st_bits [true; false; false])
          = Ret true (st_bits [true; true; true])) as H
    by (vm_compute; reflexivity).
  split; [exact H|].
  exact (key_closure_all_or_nothing _ _ _ _ _ _ H 0).
Defined.

Lemma key_closure_idempotent_witness :
  keys_own (st_bits [true; false; false]) (leaf_tables q_by_pk) /\
  check_allowed_unique_keys the_MAX_KEY the_HA_NOSAME q_by_pk
                            (st_bits [true; false; false])
  = Ret true (st_bits [true; true; true]) /\
  check_allowed_unique_keys the_MAX_KEY the_HA_NOSAME q_by_pk
                            (st_bits [true; true; true])
  = Ret false (st_bits [true; true; true]).
Proof.
  assert (keys_own (st_bits [true; false; false]) (leaf_tables q_by_pk))
    as Hown.
  { intros tbl t0 T Hin Ht HT k fld Hk Hf.
    apply elem_of_cons in Hin as [->|Hin];
      [|by apply elem_of_nil in Hin].
    injection Ht as <-. vm_compute in HT. injection HT as <-.
    apply elem_of_cons in Hk as [->|Hk]; [|by apply elem_of_nil in Hk].
    apply elem_of_cons in Hf as [->|Hf]; [|by apply elem_of_nil in Hf].
    reflexivity. }
  assert (check_allowed_unique_keys the_MAX_KEY the_HA_NOSAME q_by_pk
                                    (st_bits [true; false; false])
          = Ret true (st_bits [true; true; true])) as H
    by (vm_compute; reflexivity).
  split; [exact Hown|]. split; [exact H|].
  exact (key_closure_idempotent _ _ _ _ _ _ Hown H).
Defined.

(** ** The UPDATE special case, the context tags and the clearing *)

Lemma update_target_fields_witness :
  set_update_table_fields q_in_update st_tu
  = Ret tt (st_bits2 [false; false; false] [true; true]) /\
  all_full (st_bits2 [false; false; false] [true; true]) [u_ref].
Proof.
  assert (set_update_table_fields q_in_update st_tu
          = Ret tt (st_bits2 [false; false; false] [true; true])) as H
    by (vm_compute; reflexivity).
  split; [exact H|].
  destruct (update_target_fields _ _ _ _ H) as [_ Hset].
  refine (proj1 (Hset (mk_select_lex 1 [u_ref] [] [] None None
                                     (mk_unit None None)) _ _ _));
    [by eexists | reflexivity..].
Defined.

Lemma subqueries_context_tags_witness :
  set_subqueries_context q_subqueries st_t
  = Ret tt (mkState (tables st_t) []
                    [("(select 1)", SELECT_LIST); ("(select 2)", IN_WHERE)])
  /\ exists j,
       join q_subqueries = Some j /\
       tables (mkState (tables st_t) []
                 [("(select 1)", SELECT_LIST); ("(select 2)", IN_WHERE)])
       = tables st_t.
Proof.
  assert (set_subqueries_context q_subqueries st_t
          = Ret tt (mkState (tables st_t) []
                      [("(select 1)", SELECT_LIST);
                       ("(select 2)", IN_WHERE)])) as H
    by (vm_compute; reflexivity).
  split; [exact H|].
  destruct (subqueries_context_tags _ _ _ _ H) as (j & Hj & Ht & _).
  exists j. exact (conj Hj Ht).
Defined.

Lemma clearing_pass_witness :
  clear_and_collect [t_ref; d_ref] []
    (st_derived [false; true; false] [true; false] [true])
  = Ret [d_ref] (st_derived [false; false; false] [false; false] [true]) /\
  ~ field_allowed
      (st_derived [false; false; false] [false; false] [true]) t_a.
Proof.
  assert (clear_and_collect [t_ref; d_ref] []
            (st_derived [false; true; false] [true; false] [true])
          = Ret [d_ref]
                (st_derived [false; false; false] [false; false] [true]))
    as H by (vm_compute; reflexivity).
  split; [exact H|].
  destruct (clearing_pass _ _ _ _ _ H) as (_ & _ & Hnone & _).
  apply (Hnone t_a). exists t_ref.
  split; [apply elem_of_cons; by left | reflexivity].
Defined.

Lemma check_func_dep_keeps_shape_witness :
  analyze q_by_pk (st_bits [false; true; false])
  = Ret false (st_bits [true; true; true]) /\
  same_shape (st_bits [false; true; false]) (st_bits [true; true; true]).
Proof.
  assert (analyze q_by_pk (st_bits [false; true; false])
          = Ret false (st_bits [true; true; true])) as H
    by (vm_compute; reflexivity).
  split; [exact H|].
  exact (check_func_dep_keeps_shape _ _ _ _ _ _ _ _ H).
Defined.

(** ** The checks of the SELECT list and of the HAVING clause *)

Lemma select_list_check_witness :
  are_select_list_fields_allowed cap_a q_a_b_by_a []
                                 (st_bits [false; true; false])
  = Ret false (with_error (st_bits [false; true; false]) b "SELECT list") /\
  tables (with_error (st_bits [false; true; false]) b "SELECT list")
  = tables (st_bits [false; true; false]).
Proof.
  assert (are_select_list_fields_allowed cap_a q_a_b_by_a []
                                         (st_bits [false; true; false])
          = Ret false (with_error (st_bits [false; true; false]) b
                                  "SELECT list")) as H
    by (vm_compute; reflexivity).
  split; [exact H|].
  exact (proj1 (select_list_check _ _ _ _ _ _ H)).
Defined.

Lemma accepted_block_is_checked_witness :
  leaf_tables q_by_pk <> [] /\
  select_number q_by_pk <> UINT_MAX /\ select_number q_by_pk <> INT_MAX /\
  need_check q_by_pk = true /\
  analyze q_by_pk st_t = Ret false (st_bits [true; true; true]) /\
  exists j,
    join q_by_pk = Some j /\
    Forall (passes cap_a (st_bits [true; true; true]) q_by_pk
                   (non_column_groups q_by_pk)) (item_list q_by_pk) /\
    forall h, join_having j = Some h ->
              passes cap_a (st_bits [true; true; true]) q_by_pk
                     (non_column_groups q_by_pk) h.
Proof.
  assert (leaf_tables q_by_pk <> []) as H1 by discriminate.
  assert (select_number q_by_pk <> UINT_MAX) as H2 by discriminate.
  assert (select_number q_by_pk <> INT_MAX) as H3 by discriminate.
  assert (need_check q_by_pk = true) as H4 by reflexivity.
  assert (analyze q_by_pk st_t = Ret false (st_bits [true; true; true]))
    as H by (vm_compute; reflexivity).
  do 4 (split; [assumption|]). split; [exact H|].
  exact (accepted_block_is_checked _ _ _ _ _ _ _ H1 H2 H3 H4 H).
Defined.

(** ** The WHERE clause *)

Lemma first_pass_entries_witness :
  traverse_where cap_b
    (Item_cond_and "t.pk = 1 and u.x = t.b" [pk_eq_1; x_eq_b]) q_two_tables
    (st_bits2 [false; false; false] [false; true])
  = Ret (false, mk_where_locals [x_eq_b_deferred] [] None 2)
        (st_bits2 [true; false; false] [false; true]) /\
  Forall deferred_entry [x_eq_b_deferred].
Proof.
  assert (traverse_where cap_b
            (Item_cond_and "t.pk = 1 and u.x = t.b" [pk_eq_1; x_eq_b])
            q_two_tables (st_bits2 [false; false; false] [false; true])
          = Ret (false, mk_where_locals [x_eq_b_deferred] [] None 2)
                (st_bits2 [true; false; false] [false; true])) as H
    by (vm_compute; reflexivity).
  split; [exact H|].
  exact (proj1 (first_pass_entries _ _ _ _ _ _ _ H)).
Defined.

Lemma where_error_place_witness :
  check_where_and_get_new_dependencies the_MAX_KEY the_HA_NOSAME cap_b
    q_outer_reference [] (st_bits2 [false; true; false] [false; false])
  = Ret true (with_error (st_bits2 [false; true; false] [false; false]) x
                         "WHERE clause") /\
  raised_in "WHERE clause" (st_bits2 [false; true; false] [false; false])
    (with_error (st_bits2 [false; true; false] [false; false]) x
                "WHERE clause").
Proof.
  assert (check_where_and_get_new_dependencies the_MAX_KEY the_HA_NOSAME
            cap_b q_outer_reference []
            (st_bits2 [false; true; false] [false; false])
          = Ret true
              (with_error (st_bits2 [false; true; false] [false; false]) x
                          "WHERE clause")) as H
    by (vm_compute; reflexivity).
  split; [exact H|].
  destruct (proj1 (where_error_place _ _ _ _ _ _ _ _ H)) as [E|R].
  - discriminate E.
  - exact R.
Defined.

Lemma all_equalities_deferred_witness :
  join q_deferred_only = Some (mkJOIN (Some x_eq_b) None) /\
  traverse_where cap_b x_eq_b q_deferred_only
                 (st_bits2 [false; false; false] [false; true])
  = Ret (false, mk_where_locals [x_eq_b_deferred] [] None 1)
        (st_bits2 [false; false; false] [false; true]) /\
  check_where_and_get_new_dependencies the_MAX_KEY the_HA_NOSAME cap_b
    q_deferred_only [] (st_bits2 [false; false; false] [false; true])
  = Ret false (st_bits2 [false; false; false] [false; true]).
Proof.
  assert (traverse_where cap_b x_eq_b q_deferred_only
                         (st_bits2 [false; false; false] [false; true])
          = Ret (false, mk_where_locals [x_eq_b_deferred] [] None 1)
                (st_bits2 [false; false; false] [false; true])) as H
    by (vm_compute; reflexivity).
  split; [reflexivity|]. split; [exact H|].
  apply (all_equalities_deferred the_MAX_KEY the_HA_NOSAME cap_b
           q_deferred_only [] _ (mkJOIN (Some x_eq_b) None) x_eq_b _ _
           eq_refl eq_refl H);
    [discriminate | reflexivity].
Defined.

Lemma deferred_loop_fixed_point_witness :
  eq_items_loop the_MAX_KEY the_HA_NOSAME 3 q_two_tables true
                [x_eq_b_deferred]
                (st_bits2 [false; true; false] [false; true])
  = Ret [x_eq_b_deferred] (st_bits2 [false; true; false] [false; true]) /\
  Forall (unresolved (st_bits2 [false; true; false] [false; true]))
         [x_eq_b_deferred] /\
  check_allowed_unique_keys the_MAX_KEY the_HA_NOSAME q_two_tables
                            (st_bits2 [false; true; false] [false; true])
  = Ret false (st_bits2 [false; true; false] [false; true]).
Proof.
  assert (eq_items_loop the_MAX_KEY the_HA_NOSAME 3 q_two_tables true
            [x_eq_b_deferred]
            (st_bits2 [false; true; false] [false; true])
          = Ret [x_eq_b_deferred]
                (st_bits2 [false; true; false] [false; true])) as H
    by (vm_compute; reflexivity).
  split; [exact H|].
  apply (proj2 (deferred_loop_fixed_point _ _ _ _ _ _ _ _ H)).
  discriminate.
Defined.

(** ** Grouping by a key, grouping by a column of a derived table *)

Lemma group_by_key_fills_table_witness :
  group_list q_by_pk <> [] /\
  collect_gb_fields the_MAX_KEY the_HA_NOSAME q_by_pk [] [] st_t
  = Ret (false, [], []) (st_bits [true; true; true]) /\
  Forall (grouped_column q_by_pk) [t_pk] /\
  table_full (st_bits [true; true; true]) 0.
Proof.
  assert (group_list q_by_pk <> []) as Hne by discriminate.
  assert (collect_gb_fields the_MAX_KEY the_HA_NOSAME q_by_pk [] [] st_t
          = Ret (false, [], []) (st_bits [true; true; true])) as H
    by (vm_compute; reflexivity).
  assert (Forall (grouped_column q_by_pk) [t_pk]) as Hg.
  { constructor; [|constructor]. exists pk.
    split; [apply elem_of_cons; by left|]. split; reflexivity. }
  split; [exact Hne|]. split; [exact H|]. split; [exact Hg|].
  apply (group_by_key_fills_table the_MAX_KEY the_HA_NOSAME q_by_pk [] []
           st_t false [] [] _ t_ref 0 t (mkKEY the_HA_NOSAME [t_pk]) Hne H).
  - apply elem_of_cons. by left.
  - reflexivity.
  - reflexivity.
  - left. split; [vm_compute; lia | reflexivity].
  - exact Hg.
Defined.

Lemma group_by_derived_column_witness :
  group_list q_derived <> [] /\
  collect_gb_fields the_MAX_KEY the_HA_NOSAME q_derived [d_ref; e_ref] []
    (st_derived [false; false; false] [false; false] [false])
  = Ret (false, [e_ref], [])
        (st_derived [false; false; false] [true; true] [false]) /\
  grouped_column q_derived d_m /\
  table_full (st_derived [false; false; false] [true; true] [false]) 2 /\
  d_ref ∉ [e_ref].
Proof.
  assert (group_list q_derived <> []) as Hne by discriminate.
  assert (collect_gb_fields the_MAX_KEY the_HA_NOSAME q_derived
            [d_ref; e_ref] []
            (st_derived [false; false; false] [false; false] [false])
          = Ret (false, [e_ref], [])
                (st_derived [false; false; false] [true; true] [false]))
    as H by (vm_compute; reflexivity).
  assert (grouped_column q_derived d_m) as Hg.
  { exists dm. split; [apply elem_of_cons; by left|]. split; reflexivity. }
  split; [exact Hne|]. split; [exact H|]. split; [exact Hg|].
  apply (group_by_derived_column the_MAX_KEY the_HA_NOSAME q_derived
           [d_ref; e_ref] [] _ false [e_ref] [] _ d_ref d_m Hne H);
    [apply elem_of_cons; by left | reflexivity | exact Hg].
Defined.

(** ** An equality that gives a new allowed column *)

Lemma equality_gives_new_column_witness :
  check_equality_on_new_func_dep cap_b a_plus_1_eq_b q_eq_a_plus_1 []
                                 (st_bits [false; true; false])
  = Ret (false, []) (st_bits [false; true; true]) /\
  check_equality_on_new_func_dep cap_b b_eq_a_plus_1 q_eq_a_plus_1 []
                                 (st_bits [false; true; false])
  = Ret (false, []) (st_bits [false; true; true]).
Proof.
  assert (extracted_state (st_bits [false; true; false]) t_b
                          (t_bits [false; true; false])
          = st_bits [false; true; true]) as E
    by (vm_compute; reflexivity).
  rewrite <- E.
  destruct (equality_gives_new_column cap_b q_eq_a_plus_1
              "t.a + 1 = t.b" true type_handler_slonglong "t.b" t_b
              type_handler_slonglong a_plus_1 []
              (st_bits [false; true; false]) (t_bits [false; true; false]))
    as [Hr _]; [by eexists | reflexivity..|].
  destruct (equality_gives_new_column cap_b q_eq_a_plus_1
              "t.b = t.a + 1" true type_handler_slonglong "t.b" t_b
              type_handler_slonglong a_plus_1 []
              (st_bits [false; true; false]) (t_bits [false; true; false]))
    as [_ Hl]; [by eexists | reflexivity..|].
  split.
  - apply (Hr None None [t_a] [t_b]);
      [vm_compute; reflexivity | vm_compute; reflexivity | discriminate
      | by left].
  - apply (Hl None None [t_a] [t_b]);
      [vm_compute; reflexivity | vm_compute; reflexivity | discriminate
      | by left].
Defined.

Lemma extraction_outcome_witness :
  extract_new_func_dep_field b_eq_a_plus_1 a_plus_1 b
                             (st_bits [false; true; false])
  = Ret true (st_bits [false; true; true]) /\
  errors (st_bits [false; true; true])
  = errors (st_bits [false; true; false]).
Proof.
  assert (extract_new_func_dep_field b_eq_a_plus_1 a_plus_1 b
                                     (st_bits [false; true; false])
          = Ret true (st_bits [false; true; true])) as H
    by (vm_compute; reflexivity).
  split; [exact H|].
  exact (proj1 (extraction_outcome _ _ _ _ _ _ H)).
Defined.

